(** * Swarm review/merge pipeline and surgical patch engine

    A shallow embedding of the JavaScript that the repository's patch
    scripts install:

    - [specs/patches/apply-surgical-edits.py] carries
      [fetchExistingFileContent] and the patch-aware [writeFiles] of the
      coder agent;
    - [specs/patches/apply-sentinel-polling.py] carries
      [atomicClaimReviewTicket], [setMerged], [setSentinelFailed],
      [executeSentinelReview], [_getRepoUrlForTicket] and [mergePR] of the
      engine.

    JavaScript strings are modelled as [string] (one [ascii] per code
    unit), JavaScript numbers that hold counts and indices as [Z], the
    file system as a finite map from paths to contents, and the ticket
    table as a finite map from ticket ids to rows. *)

From Stdlib Require Import ZArith Ascii String List Lia DecimalString.
From stdpp Require Import gmap strings list sorting.

(** ** JavaScript string and array primitives used by the code *)

Module JS.

(** [strip_prefix p s] is [Some rest] when [s = p ++ rest]. *)
Fixpoint strip_prefix (p s : string) : option string :=
  match p with
  | EmptyString => Some s
  | String a p' =>
      match s with
      | EmptyString => None
      | String b s' => if Ascii.eqb a b then strip_prefix p' s' else None
      end
  end.

(** The first occurrence of [sub] in [s], as the text before it and the
    text after it. *)
Fixpoint find_first (sub s : string) : option (string * string) :=
  match strip_prefix sub s with
  | Some rest => Some (EmptyString, rest)
  | None =>
      match s with
      | EmptyString => None
      | String c s' =>
          match find_first sub s' with
          | Some (before, after) => Some (String c before, after)
          | None => None
          end
      end
  end.

(** [String.prototype.includes]. *)
Definition includes (s sub : string) : bool :=
  match find_first sub s with Some _ => true | None => false end.

(** [String.prototype.split] with a string separator.  The scan keeps
    the piece read so far in [acc]; after a separator is recognised at
    the current position the next [skip] code units (the rest of the
    separator) are passed over, so occurrences are found left to right
    and never overlap. *)
Fixpoint split_go (sep : string) (skip : nat) (acc s : string) : list string :=
  match s with
  | EmptyString => [acc]
  | String c s' =>
      match skip with
      | S k => split_go sep k acc s'
      | O =>
          match strip_prefix sep s with
          | Some _ => acc :: split_go sep (String.length sep - 1) EmptyString s'
          | None => split_go sep 0 (acc +:+ String c EmptyString) s'
          end
      end
  end.

Fixpoint chars (s : string) : list string :=
  match s with
  | EmptyString => []
  | String c s' => String c EmptyString :: chars s'
  end.

Definition split (s sep : string) : list string :=
  match sep with
  | EmptyString => chars s
  | _ => split_go sep 0 EmptyString s
  end.

(** [Array.prototype.join]. *)
Fixpoint join (sep : string) (l : list string) : string :=
  match l with
  | [] => EmptyString
  | [x] => x
  | x :: rest => x +:+ sep +:+ join sep rest
  end.

(** The replacement-text expansion that [String.prototype.replace]
    performs when the pattern is a string (no capture groups): [$$] is a
    dollar sign, [$&] the matched text, [$`] the text before the match
    and [$'] the text after it; every other character, a lone [$]
    included, stands for itself. *)
Fixpoint get_substitution (matched before after repl : string) : string :=
  match repl with
  | EmptyString => EmptyString
  | String c r =>
      if Ascii.eqb c "$" then
        match r with
        | EmptyString => String c EmptyString
        | String d r' =>
            if Ascii.eqb d "$" then String "$" (get_substitution matched before after r')
            else if Ascii.eqb d "&" then matched +:+ get_substitution matched before after r'
            else if Ascii.eqb d "`" then before +:+ get_substitution matched before after r'
            else if Ascii.eqb d "'" then after +:+ get_substitution matched before after r'
            else String c (get_substitution matched before after r)
        end
      else String c (get_substitution matched before after r)
  end.

(** [String.prototype.replace] with a string pattern: only the first
    occurrence is replaced. *)
Definition replace (s search repl : string) : string :=
  match find_first search s with
  | Some (before, after) =>
      before +:+ get_substitution search before after repl +:+ after
  | None => s
  end.

(** [String.prototype.substring (0, n)]. *)
Fixpoint take (n : nat) (s : string) : string :=
  match n, s with
  | S k, String c s' => String c (take k s')
  | _, _ => EmptyString
  end.

(** Relative index of [Array.prototype.slice]: a negative index counts
    from the end, and everything is clamped to the array. *)
Definition rel_index (len i : Z) : Z :=
  if (i <? 0)%Z then Z.max (len + i) 0 else Z.min i len.

(** [Array.prototype.slice (start, end)]. *)
Definition slice {A} (l : list A) (start stop : Z) : list A :=
  let len := Z.of_nat (length l) in
  let k := rel_index len start in
  let fin := rel_index len stop in
  firstn (Z.to_nat (fin - k)) (skipn (Z.to_nat k) l).

(** [Array.prototype.slice (start)]. *)
Definition slice_from {A} (l : list A) (start : Z) : list A :=
  slice l start (Z.of_nat (length l)).

(** Number-to-string conversion of an integer, as string concatenation
    performs it. *)
Definition number_to_string (z : Z) : string :=
  NilZero.string_of_int (Z.to_int z).

(** Interpolation of a possibly undefined string in a template literal. *)
Definition interpolate (o : option string) : string :=
  match o with Some s => s | None => "undefined" end.

(** Truthiness of a possibly absent string: [undefined], [null] and the
    empty string are falsy. *)
Definition truthy (o : option string) : bool :=
  match o with
  | Some (String _ _) => true
  | _ => false
  end.

End JS.

(** ** Exceptions and effects

    A JavaScript function that reads and writes a store and may throw is
    a function from the store to an outcome and the store it leaves. *)

Record JsError := mkError {
  message : option string;   (* [err.message] *)
  stderr : option string     (* [err.stderr], present on [execSync] failures *)
}.

Definition Error (msg : string) : JsError :=
  {| message := Some msg; stderr := None |}.

Inductive Outcome (A : Type) : Type :=
| Ret (a : A)
| Throw (e : JsError).
Arguments Ret {A} a.
Arguments Throw {A} e.

Definition M (S A : Type) : Type := S -> Outcome A * S.

Definition ret {S A} (a : A) : M S A := fun s => (Ret a, s).

Definition throw {S A} (e : JsError) : M S A := fun s => (Throw e, s).

Definition bind {S A B} (c : M S A) (k : A -> M S B) : M S B :=
  fun s =>
    match c s with
    | (Ret a, s') => k a s'
    | (Throw e, s') => (Throw e, s')
    end.

(** [try { c } catch (err) { h err }]: the handler runs in the store as
    the failed computation left it. *)
Definition try_catch {S A} (c : M S A) (h : JsError -> M S A) : M S A :=
  fun s =>
    match c s with
    | (Ret a, s') => (Ret a, s')
    | (Throw e, s') => h e s'
    end.

Definition modify {S} (f : S -> S) : M S unit := fun s => (Ret tt, f s).

Definition gets {S A} (f : S -> A) : M S A := fun s => (Ret (f s), s).

Notation "'do' x <- c ;; k" := (bind c (fun x => k))
  (at level 10, x name, c at level 99, k at level 200).
Notation "'run' c ;; k" := (bind c (fun _ => k))
  (at level 10, c at level 99, k at level 200).

(** ** The coder agent: file fetching and the patch engine
    (JavaScript installed by [apply-surgical-edits.py]) *)

Module Coder.

(** A line feed, the JavaScript string ['\n']. *)
Definition nl : string := String (ascii_of_nat 10) EmptyString.

(** Structured log lines: [log.info (text, {fields})] and the like. *)
Inductive LogVal :=
| LStr (s : string)
| LNum (n : Z).

Record LogEntry := mkLog {
  level : string;
  text : string;
  fields : list (string * LogVal)
}.

(** The working checkout: file contents by path, the directories that
    exist, and the log written so far. *)
Record Disk := mkDisk {
  contents : gmap string string;
  dirs : gset string;
  logs : list LogEntry
}.

(** A search/replace patch as parsed from the generator's JSON: either
    field may be missing. *)
Record Patch := mkPatch {
  search : option string;
  replace : option string
}.

(** The [patches] field of a file edit: missing, present but not an
    array, or an array of patches. *)
Inductive PatchesField :=
| PatchesAbsent
| PatchesNotArray
| PatchesArray (l : list Patch).

Record FileEdit := mkEdit {
  path : string;
  action : string;
  content : option string;
  patches : PatchesField
}.

Definition log (lvl txt : string) (fs : list (string * LogVal)) : M Disk unit :=
  modify (fun d => mkDisk (contents d) (dirs d) (logs d ++ [mkLog lvl txt fs])).

Definition existsSync (p : string) : M Disk bool :=
  gets (fun d => bool_decide (is_Some (contents d !! p)) || bool_decide (p ∈ dirs d)).

(** [fs.readFileSync (p, 'utf8')]: fails when [p] is not a file. *)
Definition readFileSync (p : string) : M Disk string :=
  fun d =>
    match contents d !! p with
    | Some c => (Ret c, d)
    | None => (Throw (Error ("ENOENT: no such file or directory, open " +:+ p)), d)
    end.

(** [fs.writeFileSync (p, data)]: creates or overwrites the file; data
    that is [undefined] is rejected with a [TypeError]. *)
Definition writeFileSync (p : string) (data : option string) : M Disk unit :=
  match data with
  | Some c => modify (fun d => mkDisk (<[p := c]> (contents d)) (dirs d) (logs d))
  | None => throw (Error "The data argument must be of type string or an instance of Buffer, TypedArray, or DataView. Received undefined")
  end.

Section Paths.

(** Node's [path.join] and [path.dirname]. *)
Variable path_join : string -> string -> string.
Variable path_dirname : string -> string.

(** [fs.mkdirSync (p, { recursive: true })]: creates [p] and every
    missing ancestor. *)
Fixpoint mkdir_chain (fuel : nat) (p : string) (ds : gset string) : gset string :=
  match fuel with
  | O => ds
  | S f =>
      if bool_decide (p ∈ ds) then ds
      else mkdir_chain f (path_dirname p) ({[p]} ∪ ds)
  end.

Definition mkdirSync_recursive (p : string) : M Disk unit :=
  modify (fun d =>
    mkDisk (contents d) (mkdir_chain (S (String.length p)) p (dirs d)) (logs d)).

(** function fetchExistingFileContent(repoDir, filePath, maxLines = 300) *)
Definition fetchExistingFileContent (repoDir filePath : string)
    (maxLines : option Z) : M Disk (option string) :=
  let maxLines := default 300%Z maxLines in
  let fullPath := path_join repoDir filePath in
  do present <- existsSync fullPath ;;
  if negb present then ret None
  else
    do content <- readFileSync fullPath ;;
    let lines := JS.split content nl in
    if (maxLines <? Z.of_nat (length lines))%Z then
      let headLines := JS.slice lines 0 (maxLines / 2) in
      let tailLines := JS.slice_from lines (- (maxLines / 2)) in
      ret (Some (JS.join nl headLines
                 +:+ (nl +:+ nl +:+ "... [")
                 +:+ JS.number_to_string (Z.of_nat (length lines) - maxLines)
                 +:+ (" lines truncated] ..." +:+ nl +:+ nl)
                 +:+ JS.join nl tailLines))
    else ret (Some content).

(** One turn of [for (const patch of file.patches)]: the loop variables
    are the in-memory [fileContent] and the counter [patchesApplied]. *)
Definition apply_patch (file : FileEdit) (st : string * Z) (patch : Patch)
    : M Disk (string * Z) :=
  let '(fileContent, patchesApplied) := st in
  match search patch, replace patch with
  | Some (String _ _ as srch), Some repl =>
      if negb (JS.includes fileContent srch) then
        run log "warn" "Patch search text not found"
              [("path", LStr (path file));
               ("searchPreview", LStr (JS.take 50 srch +:+ "..."))] ;;
        ret st
      else
        let occurrences := (Z.of_nat (length (JS.split fileContent srch)) - 1)%Z in
        run (if (1 <? occurrences)%Z then
               log "warn" "Patch search text not unique"
                 [("path", LStr (path file)); ("occurrences", LNum occurrences)]
             else ret tt) ;;
        ret (JS.replace fileContent srch repl, (patchesApplied + 1)%Z)
  | _, _ =>
      run log "warn" "Invalid patch format" [("path", LStr (path file))] ;;
      ret st
  end.

Fixpoint apply_patches (file : FileEdit) (ps : list Patch) (st : string * Z)
    : M Disk (string * Z) :=
  match ps with
  | [] => ret st
  | patch :: rest =>
      do st' <- apply_patch file st patch ;;
      apply_patches file rest st'
  end.

(** if (!fs.existsSync(fileDir)) fs.mkdirSync(fileDir, { recursive: true }) *)
Definition ensure_dir (fileDir : string) : M Disk unit :=
  do dirPresent <- existsSync fileDir ;;
  if negb dirPresent then mkdirSync_recursive fileDir else ret tt.

(** One turn of [for (const file of files)]; [written] is the array
    built so far. *)
Definition write_one (repoDir : string) (written : list string) (file : FileEdit)
    : M Disk (list string) :=
  let filePath := path_join repoDir (path file) in
  let fileDir := path_dirname filePath in
  run ensure_dir fileDir ;;
  match String.eqb (action file) "modify", patches file with
  | true, PatchesArray ps =>
      do present <- existsSync filePath ;;
      if negb present then
        run log "error" "Cannot modify non-existent file" [("path", LStr (path file))] ;;
        ret written
      else
        do fileContent <- readFileSync filePath ;;
        do res <- apply_patches file ps (fileContent, 0%Z) ;;
        let '(fileContent', patchesApplied) := res in
        if (0 <? patchesApplied)%Z then
          run writeFileSync filePath (Some fileContent') ;;
          run log "info" "Applied patches to file"
                [("path", LStr (path file));
                 ("patchesApplied", LNum patchesApplied);
                 ("totalPatches", LNum (Z.of_nat (length ps)))] ;;
          ret (written ++ [path file])
        else
          run log "error" "No patches applied to file" [("path", LStr (path file))] ;;
          ret written
  | _, _ =>
      run writeFileSync filePath (content file) ;;
      run log "info" "Wrote file"
            [("path", LStr (path file));
             ("bytes", LNum (Z.of_nat (String.length (default EmptyString (content file)))))] ;;
      ret (written ++ [path file])
  end.

Fixpoint writeFiles_loop (repoDir : string) (files : list FileEdit)
    (written : list string) : M Disk (list string) :=
  match files with
  | [] => ret written
  | file :: rest =>
      do written' <- write_one repoDir written file ;;
      writeFiles_loop repoDir rest written'
  end.

(** function writeFiles(repoDir, files) *)
Definition writeFiles (repoDir : string) (files : list FileEdit)
    : M Disk (list string) :=
  writeFiles_loop repoDir files [].

End Paths.

(** The loop variables after one patch and after a list of patches,
    apart from the log lines: what [apply_patch] and [apply_patches]
    return. *)
Definition patch_step (st : string * Z) (patch : Patch) : string * Z :=
  let '(fileContent, patchesApplied) := st in
  match search patch, replace patch with
  | Some (String _ _ as srch), Some repl =>
      if JS.includes fileContent srch
      then (JS.replace fileContent srch repl, (patchesApplied + 1)%Z)
      else st
  | _, _ => st
  end.

Definition patched (ps : list Patch) (st : string * Z) : string * Z :=
  fold_left patch_step ps st.

(** No line feed occurs in [s]. *)
Fixpoint no_newline (s : string) : bool :=
  match s with
  | EmptyString => true
  | String c s' => negb (Ascii.eqb (ascii_of_nat 10) c) && no_newline s'
  end.

(** The elision marker for [n] lines, without the blank lines around it. *)
Definition marker_line (n : Z) : string :=
  "... [" +:+ JS.number_to_string n +:+ " lines truncated] ...".

(** [sub] occurs in [s] at offset [n]. *)
Fixpoint occurs_at (sub s : string) (n : nat) : bool :=
  match n with
  | O => match JS.strip_prefix sub s with Some _ => true | None => false end
  | S k => match s with
           | EmptyString => false
           | String _ s' => occurs_at sub s' k
           end
  end.

(** The search text of a patch is usable and absent from [c]. *)
Definition search_absent (c : string) (p : Patch) : Prop :=
  match search p with
  | Some srch => JS.includes c srch = false
  | None => True
  end.

(** No dollar sign occurs in [s]. *)
Fixpoint no_dollar (s : string) : bool :=
  match s with
  | EmptyString => true
  | String c s' => negb (Ascii.eqb c "$") && no_dollar s'
  end.

(** An edit that takes the create branch of [writeFiles]. *)
Definition takes_create_branch (file : FileEdit) : Prop :=
  action file <> "modify" \/ patches file = PatchesAbsent
  \/ patches file = PatchesNotArray.

End Coder.

(** ** The engine: review claim, state transitions, sentinel review and
    merge (JavaScript installed by [apply-sentinel-polling.py]) *)

Module Engine.

(** A row of the [tickets] table. *)
Record Ticket := mkTicket {
  id : string;
  state : string;
  assignee_id : option string;
  assignee_type : option string;
  vm_id : option Z;
  pr_url : option string;
  branch_name : option string;
  repo_url : option string;
  project_id : option string;
  design_session : option string;
  acceptance_criteria : string;
  verification_status : option string;
  updated_at : Z;
  last_heartbeat : option Z;
  merged_at : option Z
}.

(** The object literal passed along with a notification or an event. *)
Inductive Payload :=
| NoPayload                       (* {} *)
| Phase (p : string)              (* { phase } *)
| PrUrl (u : string)              (* { prUrl } *)
| Reason (r : option string).     (* { reason } *)

Record Event := mkEvent {
  ev_ticket : string;
  ev_type : string;
  from_state : string;
  to_state : string;
  ev_payload : Payload
}.

Record Notification := mkNotification {
  nt_ticket : string;
  nt_state : string;
  nt_payload : Payload
}.

(** The argument object and the reply of the external verifier. *)
Record VerifyArgs := mkVerifyArgs {
  ticketId : string;
  branchName : option string;
  repoUrl : option string;
  attempt : Z;
  acceptanceCriteria : string;
  phases : list string
}.

Record VerifyResult := mkVerifyResult {
  status : string;
  feedback_for_agent : option (list string);
  serialized : string             (* [JSON.stringify] of the reply *)
}.

(** Everything the engine code reads or writes: the tables, the event
    log, the observers' notifications, the trace log, the calls made to
    the verifier and to the shell, the verifier's behaviour, the clock
    behind [NOW()], and the fate of the external calls still to come
    ([Some e]: the next call fails with [e]). *)
Record World := mkWorld {
  tickets : gmap string Ticket;
  projects : gmap string (option string);
  hitl_sessions : gmap string (option string);
  events : list Event;
  notifications : list Notification;
  logs : list (string * string);
  verify_calls : list VerifyArgs;
  shell_calls : list string;
  verifier : VerifyArgs -> VerifyResult;
  now : Z;
  faults : list (option JsError)
}.

Definition set_tickets (f : gmap string Ticket -> gmap string Ticket) (w : World) : World :=
  mkWorld (f (tickets w)) (projects w) (hitl_sessions w) (events w) (notifications w)
    (logs w) (verify_calls w) (shell_calls w) (verifier w) (now w) (faults w).

Definition add_event (e : Event) (w : World) : World :=
  mkWorld (tickets w) (projects w) (hitl_sessions w) (events w ++ [e]) (notifications w)
    (logs w) (verify_calls w) (shell_calls w) (verifier w) (now w) (faults w).

Definition add_notification (n : Notification) (w : World) : World :=
  mkWorld (tickets w) (projects w) (hitl_sessions w) (events w) (notifications w ++ [n])
    (logs w) (verify_calls w) (shell_calls w) (verifier w) (now w) (faults w).

Definition add_log (l : string * string) (w : World) : World :=
  mkWorld (tickets w) (projects w) (hitl_sessions w) (events w) (notifications w)
    (logs w ++ [l]) (verify_calls w) (shell_calls w) (verifier w) (now w) (faults w).

Definition add_verify_call (a : VerifyArgs) (w : World) : World :=
  mkWorld (tickets w) (projects w) (hitl_sessions w) (events w) (notifications w)
    (logs w) (verify_calls w ++ [a]) (shell_calls w) (verifier w) (now w) (faults w).

Definition add_shell_call (c : string) (w : World) : World :=
  mkWorld (tickets w) (projects w) (hitl_sessions w) (events w) (notifications w)
    (logs w) (verify_calls w) (shell_calls w ++ [c]) (verifier w) (now w) (faults w).

Definition set_now (t : Z) (w : World) : World :=
  mkWorld (tickets w) (projects w) (hitl_sessions w) (events w) (notifications w)
    (logs w) (verify_calls w) (shell_calls w) (verifier w) t (faults w).

Definition set_faults (fs : list (option JsError)) (w : World) : World :=
  mkWorld (tickets w) (projects w) (hitl_sessions w) (events w) (notifications w)
    (logs w) (verify_calls w) (shell_calls w) (verifier w) (now w) fs.

(** An external call (database, notifier, verifier, shell) either goes
    through or throws, as the schedule of faults says. *)
Definition external : M World unit :=
  fun w =>
    (match head (faults w) with
     | Some (Some e) => Throw e
     | _ => Ret tt
     end,
     set_faults (tail (faults w)) w).

(** log (level, line) *)
Definition log (lvl line : string) : M World unit :=
  modify (add_log (lvl, line)).

(** Modelled from the spec: [notifyTicketStateChange], the notification
    sink that receives (ticketId, newState, payload) on every transition. *)
Definition notifyTicketStateChange (ticketId newState : string) (p : Payload)
    : M World unit :=
  run external ;;
  modify (add_notification (mkNotification ticketId newState p)).

(** Modelled from the spec: [emitEvent], which appends one immutable
    audit record (ticket id, event type, from_state, to_state, payload)
    to the event log. *)
Definition emitEvent (ticketId type from to : string) (p : Payload) : M World unit :=
  run external ;;
  modify (add_event (mkEvent ticketId type from to p)).

(** [UPDATE tickets SET ... WHERE id = $1 AND guard RETURNING *]: a
    single statement on the row whose primary key is [ticketId]; the
    result is the list of rows it changed. *)
Definition update_ticket (ticketId : string) (guard : Ticket -> bool)
    (set : Z -> Ticket -> Ticket) : M World (list Ticket) :=
  run external ;;
  fun w =>
    match tickets w !! ticketId with
    | Some t =>
        if guard t then
          let t' := set (now w) t in
          (Ret [t'], set_tickets (insert ticketId t') w)
        else (Ret [], w)
    | None => (Ret [], w)
    end.

Definition claimed_row (now : Z) (t : Ticket) : Ticket :=
  mkTicket (id t) "reviewing" (assignee_id t) (assignee_type t) (Some (-1)%Z)
    (pr_url t) (branch_name t) (repo_url t) (project_id t) (design_session t)
    (acceptance_criteria t) (verification_status t) now (Some now) (merged_at t).

Definition merged_row (now : Z) (t : Ticket) : Ticket :=
  mkTicket (id t) "merged" (assignee_id t) (assignee_type t) None
    (pr_url t) (branch_name t) (repo_url t) (project_id t) (design_session t)
    (acceptance_criteria t) (verification_status t) now (last_heartbeat t) (Some now).

Definition sentinel_failed_row (now : Z) (t : Ticket) : Ticket :=
  mkTicket (id t) "sentinel_failed" (assignee_id t) (assignee_type t) None
    (pr_url t) (branch_name t) (repo_url t) (project_id t) (design_session t)
    (acceptance_criteria t) (Some "sentinel_rejected") now (last_heartbeat t) (merged_at t).

(** WHERE ... AND state = 'in_review' AND assignee_id = 'sentinel-agent' *)
Definition claim_guard (t : Ticket) : bool :=
  String.eqb (state t) "in_review"
  && bool_decide (assignee_id t = Some "sentinel-agent").

(** async atomicClaimReviewTicket(ticketId) *)
Definition atomicClaimReviewTicket (ticketId : string) : M World (option Ticket) :=
  do rows <- update_ticket ticketId claim_guard claimed_row ;;
  run (match head rows with
       | Some _ =>
           run notifyTicketStateChange ticketId "reviewing" (Phase "sentinel") ;;
           emitEvent ticketId "sentinel_started" "in_review" "reviewing" NoPayload
       | None => ret tt
       end) ;;
  ret (head rows).

(** async setMerged(ticketId, prUrl) *)
Definition setMerged (ticketId prUrl : string) : M World unit :=
  run update_ticket ticketId (fun _ => true) merged_row ;;
  run notifyTicketStateChange ticketId "merged" (PrUrl prUrl) ;;
  run emitEvent ticketId "merged" "reviewing" "merged" (PrUrl prUrl) ;;
  log "INFO" ("[STATE] Ticket " +:+ ticketId +:+ " -> merged").

(** async setSentinelFailed(ticketId, reason) *)
Definition setSentinelFailed (ticketId : string) (reason : option string)
    : M World unit :=
  run update_ticket ticketId (fun _ => true) sentinel_failed_row ;;
  run notifyTicketStateChange ticketId "sentinel_failed" (Reason reason) ;;
  run emitEvent ticketId "sentinel_failed" "reviewing" "sentinel_failed" (Reason reason) ;;
  log "WARN" ("[STATE] Ticket " +:+ ticketId +:+ " -> sentinel_failed: "
              +:+ JS.interpolate reason).

(** Modelled from the spec: [getProject], a point lookup of the owning
    project by id; the model keeps the project's [repo_url] only. *)
Definition getProject (projectId : string) : M World (option (option string)) :=
  run external ;;
  gets (fun w => projects w !! projectId).

(** SELECT repo_url FROM hitl_sessions WHERE id = $1 *)
Definition select_session_repo_url (sessionId : string)
    : M World (list (option string)) :=
  run external ;;
  gets (fun w => match hitl_sessions w !! sessionId with
                 | Some r => [r]
                 | None => []
                 end).

(** async _getRepoUrlForTicket(ticket) *)
Definition _getRepoUrlForTicket (ticket : Ticket) : M World (option string) :=
  if JS.truthy (repo_url ticket) then ret (repo_url ticket)
  else
    do fromProject <-
      (if JS.truthy (project_id ticket) then
         do project <- getProject (default EmptyString (project_id ticket)) ;;
         ret (match project with
              | Some r => if JS.truthy r then r else None
              | None => None
              end)
       else ret None) ;;
    match fromProject with
    | Some r => ret (Some r)
    | None =>
        do fromSession <-
          (if JS.truthy (design_session ticket) then
             do rows <- select_session_repo_url (default EmptyString (design_session ticket)) ;;
             ret (match head rows with
                  | Some r => if JS.truthy r then r else None
                  | None => None
                  end)
           else ret None) ;;
        match fromSession with
        | Some r => ret (Some r)
        | None => ret None
        end
    end.

(** Modelled from the spec: the external verifier call, which receives
    ticket id, branch, repo URL, attempt number, acceptance criteria and
    phase selector and answers with a status and feedback strings. *)
Definition verify (args : VerifyArgs) : M World VerifyResult :=
  run modify (add_verify_call args) ;;
  run external ;;
  gets (fun w => verifier w args).

(** [execSync (cmd, { env, stdio, timeout: 60000 })]: the command is
    launched; a non-zero exit or a timeout throws. *)
Definition execSync (cmd : string) : M World unit :=
  run modify (add_shell_call cmd) ;;
  external.

(** The regular expression
    [/github\.com\/([^\/]+)\/([^\/]+)\/pull\/(\d+)/] *)

Definition not_slash (c : ascii) : bool := negb (Ascii.eqb c "/").

Definition is_digit (c : ascii) : bool :=
  (48 <=? nat_of_ascii c)%nat && (nat_of_ascii c <=? 57)%nat.

(** The longest prefix whose characters satisfy [p], and what follows. *)
Fixpoint span (p : ascii -> bool) (s : string) : string * string :=
  match s with
  | EmptyString => (EmptyString, EmptyString)
  | String c s' =>
      if p c then let '(a, b) := span p s' in (String c a, b)
      else (EmptyString, s)
  end.

(** A match that starts at the first character.  A group [[^\/]+] that
    must be followed by a slash can only stop where the slashes start,
    and the final [\d+] is greedy, so each group is the longest run. *)
Definition pr_url_match_here (s : string) : option (string * string * string) :=
  match JS.strip_prefix "github.com/" s with
  | None => None
  | Some r1 =>
      let '(owner, r2) := span not_slash r1 in
      match owner, JS.strip_prefix "/" r2 with
      | String _ _, Some r3 =>
          let '(repo, r4) := span not_slash r3 in
          match repo, JS.strip_prefix "/pull/" r4 with
          | String _ _, Some r5 =>
              let '(prNumber, _) := span is_digit r5 in
              match prNumber with
              | String _ _ => Some (owner, repo, prNumber)
              | EmptyString => None
              end
          | _, _ => None
          end
      | _, _ => None
      end
  end.

(** [prUrl.match (regex)]: the leftmost match, as its three groups. *)
Fixpoint pr_url_match (s : string) : option (string * string * string) :=
  match pr_url_match_here s with
  | Some m => Some m
  | None =>
      match s with
      | EmptyString => None
      | String _ s' => pr_url_match s'
      end
  end.

(** err.message?.includes(text) *)
Definition text_includes (o : option string) (text : string) : bool :=
  match o with
  | Some s => JS.includes s text
  | None => false
  end.

(** async mergePR(ticketId, prUrl, branchName) *)
Definition mergePR (ticketId prUrl : string) (branchName : option string)
    : M World unit :=
  match pr_url_match prUrl with
  | None => throw (Error ("Invalid PR URL: " +:+ prUrl))
  | Some (owner, repo, prNumber) =>
      let fullRepo := owner +:+ "/" +:+ repo in
      run log "INFO" ("[MERGE] Merging PR #" +:+ prNumber +:+ " in " +:+ fullRepo) ;;
      let mergeCmd := "gh pr merge " +:+ prNumber +:+ " --repo " +:+ fullRepo
                      +:+ " --squash --delete-branch" in
      try_catch
        (run execSync mergeCmd ;;
         setMerged ticketId prUrl)
        (fun err =>
           if text_includes (message err) "already been merged"
              || text_includes (stderr err) "already been merged"
           then
             run log "INFO" ("[MERGE] PR #" +:+ prNumber +:+ " was already merged") ;;
             setMerged ticketId prUrl
           else throw err)
  end.

(** The inner [try { await this.mergePR(...) } catch (mergeErr) { ... }]
    of [executeSentinelReview]. *)
Definition merge_or_fail (ticketId prUrl : string) (branchName : option string)
    : M World unit :=
  try_catch (mergePR ticketId prUrl branchName)
    (fun mergeErr =>
       run log "ERROR" ("[SENTINEL] Merge failed for " +:+ ticketId +:+ ": "
                        +:+ JS.interpolate (message mergeErr)) ;;
       setSentinelFailed ticketId
         (Some ("Merge failed: " +:+ JS.interpolate (message mergeErr)))).

(** The body of the [try] block of [executeSentinelReview]. *)
Definition review_body (ticket : Ticket) (ticketId : string) : M World unit :=
  do claimed <- atomicClaimReviewTicket ticketId ;;
  match claimed with
  | None => log "WARN" ("[SENTINEL] Could not claim ticket " +:+ ticketId)
  | Some _ =>
      let prUrl := pr_url ticket in
      let branchName := branch_name ticket in
      do repoUrl <-
        (if JS.truthy (repo_url ticket) then ret (repo_url ticket)
         else _getRepoUrlForTicket ticket) ;;
      match prUrl with
      | Some (String _ _ as prUrl) =>
          do verifyResult <-
            verify (mkVerifyArgs ticketId branchName repoUrl 1
                      (acceptance_criteria ticket) ["sentinel"]) ;;
          run log "INFO" ("[SENTINEL] Review result for " +:+ ticketId +:+ ": "
                          +:+ status verifyResult) ;;
          if String.eqb (status verifyResult) "passed" then
            run log "INFO" ("[SENTINEL] Approved! Merging PR for " +:+ ticketId) ;;
            merge_or_fail ticketId prUrl branchName
          else
            let joined := match feedback_for_agent verifyResult with
                          | Some l => Some (JS.join ", " l)
                          | None => None
                          end in
            let feedback := if JS.truthy joined then default EmptyString joined
                            else "No feedback" in
            run log "WARN" ("[SENTINEL] Review failed for " +:+ ticketId +:+ ": "
                            +:+ feedback) ;;
            setSentinelFailed ticketId (Some (serialized verifyResult))
      | _ =>
          run log "ERROR" ("[SENTINEL] No PR URL for ticket " +:+ ticketId) ;;
          setSentinelFailed ticketId (Some "No PR URL found")
      end
  end.

(** async executeSentinelReview(ticket) *)
Definition executeSentinelReview (ticket : Ticket) : M World unit :=
  let ticketId := id ticket in
  run log "INFO" ("[SENTINEL] Starting review for " +:+ ticketId) ;;
  try_catch (review_body ticket ticketId)
    (fun err =>
       run log "ERROR" ("[SENTINEL] Error reviewing " +:+ ticketId +:+ ": "
                        +:+ JS.interpolate (message err)) ;;
       setSentinelFailed ticketId (message err)).

(** The world in which the [try] block of [executeSentinelReview]
    starts: the first trace line is written. *)
Definition review_start (ticket : Ticket) (w : World) : World :=
  add_log ("INFO", "[SENTINEL] Starting review for " +:+ id ticket) w.

(** No external call still to come is fated to fail. *)
Definition calm (fs : list (option JsError)) : Prop :=
  Forall (fun f => f = None) fs.

(** Claim attempts on one ticket, one after the other, at the given
    clock readings: the outcome of each attempt and the final world.
    The UPDATE of an attempt is a single statement, so attempts by
    concurrent cycles take effect in some such order. *)
Fixpoint claim_attempts (ticketId : string) (times : list Z) (w : World)
    : list (Outcome (option Ticket)) * World :=
  match times with
  | [] => ([], w)
  | t :: rest =>
      let '(r, w1) := atomicClaimReviewTicket ticketId (set_now t w) in
      let '(rs, w2) := claim_attempts ticketId rest w1 in
      (r :: rs, w2)
  end.

(** An attempt that claimed the ticket. *)
Definition succeeded (r : Outcome (option Ticket)) : bool :=
  match r with
  | Ret (Some _) => true
  | _ => false
  end.

(** All characters of [s] satisfy [p]. *)
Fixpoint all_chars (p : ascii -> bool) (s : string) : bool :=
  match s with
  | EmptyString => true
  | String c s' => p c && all_chars p s'
  end.

(** The pattern of the specification, host/owner/repo/pull/number
    anywhere in the URL, with any host: the shape a PR URL has in the
    specification's words, to be compared with [pr_url_match]. *)
Definition spec_pr_url_shape (url : string) : Prop :=
  exists before host owner repo number after,
    url = before +:+ host +:+ "/" +:+ owner +:+ "/" +:+ repo +:+ "/pull/"
          +:+ number +:+ after
    /\ host <> EmptyString
    /\ owner <> EmptyString /\ all_chars not_slash owner = true
    /\ repo <> EmptyString /\ all_chars not_slash repo = true
    /\ number <> EmptyString /\ all_chars is_digit number = true.

End Engine.

(** ** The engine: listing the tickets that wait for review *)

Module Dispatch.
Import Engine.

(** WHERE state = 'in_review' AND assignee_id = 'sentinel-agent'
      AND assignee_type = 'agent' AND vm_id IS NULL *)
Definition review_candidate (t : Ticket) : bool :=
  String.eqb (state t) "in_review"
  && bool_decide (assignee_id t = Some "sentinel-agent")
  && bool_decide (assignee_type t = Some "agent")
  && bool_decide (vm_id t = None).

(** ORDER BY updated_at ASC *)
Definition older_first (a b : Ticket) : Prop := (updated_at a <= updated_at b)%Z.

#[global] Instance older_first_dec a b : Decision (older_first a b).
Proof. unfold older_first. apply _. Defined.

(** The rows that pass the WHERE clause, oldest update first. *)
Definition candidates (w : World) : list Ticket :=
  merge_sort older_first
    (filter (fun t => review_candidate t = true)
       (map snd (map_to_list (tickets w)))).

(** async getReviewTickets(limit = 5).  Rows with the same [updated_at]
    come in an order the database is free to choose; the model takes
    the one a stable sort of the table's enumeration gives.  A negative
    LIMIT is rejected by the database. *)
Definition getReviewTickets (limit : option Z) : M World (list Ticket) :=
  let limit := default 5%Z limit in
  run external ;;
  if (limit <? 0)%Z then throw (Error "LIMIT must not be negative")
  else
    gets (fun w => take (Z.to_nat limit) (candidates w)).

(** The fields of a row that no transition of the review pipeline
    writes. *)
Definition fixed_fields (t : Ticket) :=
  (id t, assignee_id t, assignee_type t, pr_url t, branch_name t, repo_url t,
   project_id t, design_session t, acceptance_criteria t).

(** The three row updates of the review pipeline. *)
Definition row_update (set : Z -> Ticket -> Ticket) : Prop :=
  set = claimed_row \/ set = merged_row \/ set = sentinel_failed_row.

(** The arguments of the verifier call of a review. *)
Definition sentinel_args (ticket : Ticket) (repoUrl : option string) : VerifyArgs :=
  mkVerifyArgs (id ticket) (branch_name ticket) repoUrl 1
    (acceptance_criteria ticket) ["sentinel"].

(** What code that only reads leaves alone: the records of [w] are
    those of [w0]. *)
Definition same_records (w0 w : World) : Prop :=
  tickets w = tickets w0
  /\ events w = events w0
  /\ notifications w = notifications w0
  /\ verify_calls w = verify_calls w0
  /\ shell_calls w = shell_calls w0.

(** The table is keyed by the primary key: the row stored under [k] has
    id [k]. *)
Definition well_keyed (w : World) : Prop :=
  forall k t, tickets w !! k = Some t -> id t = k.

End Dispatch.

(** ** The coder agent: assembling the context of a generation call
    (the fragments that [complete-surgical-integration.py] puts into
    [processTicket] and [apply-surgical-edits.py] into [buildPrompt]) *)

Module Context.
Import Coder.

(** The parsed [rag_context]: either list may be missing. *)
Record RagLists := mkRag {
  files_to_create : option (list string);
  files_to_modify : option (list string)
}.

(** [ticket.rag_context]: missing, serialized text, or an object. *)
Inductive RagContext :=
| RagAbsent
| RagText (s : string)
| RagObject (ctx : RagLists).

(** if (ticket.rag_context) *)
Definition rag_present (rag : RagContext) : bool :=
  match rag with
  | RagAbsent => false
  | RagText s => JS.truthy (Some s)
  | RagObject _ => true
  end.

(** A double quote. *)
Definition dq : string := String (ascii_of_nat 34) EmptyString.

(** One line of the log, appended. *)
Definition note (lvl txt : string) (fs : list (string * LogVal)) (d : Disk) : Disk :=
  snd (log lvl txt fs d).

Section Assembler.

Variable path_join : string -> string -> string.

(** [JSON.parse] followed by the first property access: an error for
    text that is no JSON or that denotes [null]. *)
Variable JSON_parse : string -> Outcome RagLists.

(** The members that every object inherits from [Object.prototype]
    ([constructor], [toString], [__proto__], ...), by name, as string
    concatenation renders them.  They are functions and objects: all
    truthy. *)
Variable inherited : string -> option string.

(** existingFiles[k] = v for a string [v]: an own property, except
    under the name [__proto__], whose setter ignores a string. *)
Definition set_property (o : gmap string string) (k v : string) : gmap string string :=
  if String.eqb k "__proto__" then o else <[k := v]> o.

(** existingFiles[k] in a string concatenation: the own property, or
    else the inherited member. *)
Definition get_property (o : gmap string string) (k : string) : option string :=
  match o !! k with
  | Some v => Some v
  | None => inherited k
  end.

(** if (existingFiles[k]) *)
Definition has_property (o : gmap string string) (k : string) : bool :=
  match o !! k with
  | Some v => JS.truthy (Some v)
  | None => match inherited k with Some _ => true | None => false end
  end.

(** typeof ticket.rag_context === 'string'
      ? JSON.parse(ticket.rag_context) : ticket.rag_context *)
Definition read_rag (rag : RagContext) : Outcome RagLists :=
  match rag with
  | RagText s => JSON_parse s
  | RagObject ctx => Ret ctx
  | RagAbsent => Ret (mkRag None None)
  end.

(** for (const filePath of filesToModify) { ... } of [processTicket]:
    [existingFiles] is the object filled so far; it keeps what was put
    into it when a later turn throws. *)
Fixpoint fetch_each (repoDir : string) (filesToModify : list string)
    (existingFiles : gmap string string) (d : Disk)
    : Outcome unit * gmap string string * Disk :=
  match filesToModify with
  | [] => (Ret tt, existingFiles, d)
  | filePath :: rest =>
      match fetchExistingFileContent path_join repoDir filePath None d with
      | (Ret fileContent, d1) =>
          if JS.truthy fileContent then
            let text := default EmptyString fileContent in
            fetch_each repoDir rest (set_property existingFiles filePath text)
              (note "info" "Fetched existing file for modification"
                 [("path", LStr filePath);
                  ("lines", LNum (Z.of_nat (length (JS.split text nl))))] d1)
          else
            fetch_each repoDir rest existingFiles
              (note "warn" "File to modify not found" [("path", LStr filePath)] d1)
      | (Throw e, d1) => (Throw e, existingFiles, d1)
      end
  end.

(** The fragment of [processTicket] that fills [existingFiles]. *)
Definition collect_existing_files (repoDir : string) (rag : RagContext) (d : Disk)
    : gmap string string * Disk :=
  if rag_present rag then
    match read_rag rag with
    | Ret ctx =>
        let filesToModify := default [] (files_to_modify ctx) in
        match fetch_each repoDir filesToModify ∅ d with
        | (Ret _, existingFiles, d1) => (existingFiles, d1)
        | (Throw e, existingFiles, d1) =>
            (existingFiles,
             note "warn" "Failed to fetch existing files"
               [("error", LStr (JS.interpolate (message e)))] d1)
        end
    | Throw e =>
        (∅, note "warn" "Failed to fetch existing files"
              [("error", LStr (JS.interpolate (message e)))] d)
    end
  else (∅, d).

(** filesToModify.map(f => '- ' + f).join('\n') *)
Definition bullet_list (files : list string) : string :=
  JS.join nl (map (fun f => "- " +:+ f) files).

(** One turn of the loop over [filesToModify] in [buildPrompt]. *)
Definition content_block (existingFiles : gmap string string) (section fp : string)
    : string :=
  if has_property existingFiles fp then
    section +:+ ("<file path=" +:+ dq) +:+ fp +:+ (dq +:+ ">" +:+ nl)
    +:+ JS.interpolate (get_property existingFiles fp)
    +:+ (nl +:+ "</file>" +:+ nl +:+ nl)
  else section.

(** The fragment of [buildPrompt(ticket, existingFiles)] that computes
    [filesSection] and [hasModifications]; [fileHints] is computed
    earlier in [buildPrompt]. *)
Definition files_section (rag : RagContext) (fileHints : list string)
    (existingFiles : gmap string string) (d : Disk) : string * bool * Disk :=
  let '(filesToCreate, filesToModify, d1) :=
    if rag_present rag then
      match read_rag rag with
      | Ret ctx =>
          (default [] (files_to_create ctx), default [] (files_to_modify ctx), d)
      | Throw e =>
          ([], [], note "warn" "Failed to parse rag_context"
                     [("error", LStr (JS.interpolate (message e)))] d)
      end
    else ([], [], d) in
  let filesToCreate :=
    if (length filesToCreate =? 0)%nat && (length filesToModify =? 0)%nat
    then fileHints else filesToCreate in
  let filesSection := EmptyString in
  let filesSection :=
    if (0 <? length filesToCreate)%nat then
      filesSection +:+ ("**Files to CREATE (new files):**" +:+ nl)
      +:+ bullet_list filesToCreate +:+ (nl +:+ nl)
    else filesSection in
  let filesSection :=
    if (0 <? length filesToModify)%nat then
      fold_left (content_block existingFiles) filesToModify
        (filesSection
         +:+ ("**Files to MODIFY (existing files - use surgical patches):**" +:+ nl)
         +:+ bullet_list filesToModify +:+ (nl +:+ nl)
         +:+ ("**Current content of files to modify:**" +:+ nl +:+ nl))
    else filesSection in
  let filesSection :=
    if negb (JS.truthy (Some filesSection)) then
      if (0 <? length fileHints)%nat then JS.join nl fileHints
      else "Determine appropriate file structure"
    else filesSection in
  (filesSection, (0 <? length filesToModify)%nat, d1).

End Assembler.

End Context.

(** ** Sample inputs

    A plain instance of Node's path functions (enough for paths without
    dots or doubled slashes) and a small checkout, used where a property
    is run on a concrete input. *)

Module Sample.

Definition join (a b : string) : string := a +:+ "/" +:+ b.

(** The part of [s] before its last slash, if it has one. *)
Fixpoint before_last_slash (s : string) : option string :=
  match s with
  | EmptyString => None
  | String c s' =>
      match before_last_slash s' with
      | Some r => Some (String c r)
      | None => if Ascii.eqb c "/" then Some EmptyString else None
      end
  end.

Definition dirname (p : string) : string :=
  match before_last_slash p with
  | Some EmptyString => "/"
  | Some r => r
  | None => "."
  end.

(** A checkout that holds one file. *)
Definition one_file (p c : string) : Coder.Disk :=
  Coder.mkDisk {[ p := c ]} {[ dirname p ]} [].

(** A modify edit of [p] with the patches [ps]. *)
Definition modify_edit (p : string) (ps : list Coder.Patch) : Coder.FileEdit :=
  Coder.mkEdit p "modify" None (Coder.PatchesArray ps).

Definition patch (s r : string) : Coder.Patch :=
  Coder.mkPatch (Some s) (Some r).

(** A file of [n] lines, "line 1" to "line n", with no line feed after
    the last one. *)
Definition numbered_lines (n : nat) : list string :=
  map (fun i => "line " +:+ JS.number_to_string (Z.of_nat i)) (seq 1 n).

Definition numbered_file (n : nat) : string :=
  JS.join Coder.nl (numbered_lines n).

(** The ticket of the specification's end-to-end scenario, waiting for
    review. *)
Definition ticket1 : Engine.Ticket :=
  Engine.mkTicket "T1" "in_review" (Some "sentinel-agent") (Some "agent") None
    (Some "https://github.com/acme/widgets/pull/42") (Some "swarm/T1")
    (Some "https://github.com/acme/widgets") None None "[]" None 100%Z None None.

(** The same ticket after it was merged. *)
Definition ticket1_merged : Engine.Ticket :=
  Engine.merged_row 200%Z ticket1.

Definition passed : Engine.VerifyResult :=
  Engine.mkVerifyResult "passed" None "{}".

(** A world that holds the one ticket [t], with a verifier that answers
    [verdict], the clock at 1000 and the fates [fs] of the external
    calls to come. *)
Definition world (t : Engine.Ticket) (verdict : Engine.VerifyResult)
    (fs : list (option JsError)) : Engine.World :=
  Engine.mkWorld {[ Engine.id t := t ]} ∅ ∅ [] [] [] [] []
    (fun _ => verdict) 1000%Z fs.

(** A second ticket waiting for review, updated earlier than the first,
    and a third one that is already under review. *)
Definition ticket2 : Engine.Ticket :=
  Engine.mkTicket "T2" "in_review" (Some "sentinel-agent") (Some "agent") None
    None (Some "swarm/T2") None None None "[]" None 50%Z None None.

Definition ticket3 : Engine.Ticket :=
  Engine.claimed_row 70%Z
    (Engine.mkTicket "T3" "in_review" (Some "sentinel-agent") (Some "agent") None
       None None None None None "[]" None 60%Z None None).

(** A world that holds the three tickets. *)
Definition world3 (fs : list (option JsError)) : Engine.World :=
  Engine.mkWorld
    (<["T1" := ticket1]> (<["T2" := ticket2]> {[ "T3" := ticket3 ]}))
    ∅ ∅ [] [] [] [] [] (fun _ => passed) 1000%Z fs.

(** A ticket whose PR lives on another host, and one whose repository
    URL has to be looked up in its project. *)
Definition ticket_foreign : Engine.Ticket :=
  Engine.mkTicket "T4" "in_review" (Some "sentinel-agent") (Some "agent") None
    (Some "https://gitlab.com/acme/widgets/pull/42") (Some "swarm/T4")
    (Some "https://gitlab.com/acme/widgets") None None "[]" None 100%Z None None.

Definition ticket_in_project : Engine.Ticket :=
  Engine.mkTicket "T5" "in_review" (Some "sentinel-agent") (Some "agent") None
    None None None (Some "P1") (Some "S1") "[]" None 100%Z None None.

(** A world with one project and one design session, each with a
    repository URL. *)
Definition world_with_project (fs : list (option JsError)) : Engine.World :=
  Engine.mkWorld {[ "T5" := ticket_in_project ]}
    {[ "P1" := Some "https://github.com/acme/project" ]}
    {[ "S1" := Some "https://github.com/acme/session" ]}
    [] [] [] [] [] (fun _ => passed) 1000%Z fs.

Definition rejected : Engine.VerifyResult :=
  Engine.mkVerifyResult "failed" (Some ["missing test"])
    "{status:failed,feedback_for_agent:[missing test]}".

(** Failures of the external calls. *)
Definition already_merged : JsError :=
  mkError (Some "Command failed: gh pr merge 42 --repo acme/widgets --squash --delete-branch")
          (Some "GraphQL: Pull request acme/widgets#42 has already been merged").

Definition verifier_down : JsError := Error "verifier unreachable".

Definition database_down : JsError := Error "connection terminated".

End Sample.

(** ** Invariants of effectful code

    [preserves I c]: whatever [c] does and however it ends, a store that
    satisfies [I] before satisfies it after. *)

Definition preserves {S A} (I : S -> Prop) (c : M S A) : Prop :=
  forall s, I s -> I (snd (c s)).

(** [yields c P]: whenever [c] returns a value, the value satisfies [P]. *)
Definition yields {S A} (c : M S A) (P : A -> Prop) : Prop :=
  forall s a s', c s = (Ret a, s') -> P a.

(** Two checkouts that hold the same files and directories (their logs
    may differ). *)
Definition same_files (d d' : Coder.Disk) : Prop :=
  Coder.contents d' = Coder.contents d /\ Coder.dirs d' = Coder.dirs d.

(** No path of [targets] names a directory of the checkout [d]: what
    exists there is a file. *)
Definition targets_are_files (path_join : string -> string -> string)
    (repoDir : string) (targets : list string) (d : Coder.Disk) : Prop :=
  forall q, q ∈ targets ->
    Coder.contents d !! path_join repoDir q = None ->
    path_join repoDir q ∉ Coder.dirs d.

(** The block that shows the current text [c] of the file [p] in the
    prompt. *)
Definition file_block (p c : string) : string :=
  ("<file path=" +:+ Context.dq) +:+ p +:+ (Context.dq +:+ ">" +:+ Coder.nl)
  +:+ c +:+ (Coder.nl +:+ "</file>" +:+ Coder.nl +:+ Coder.nl).

(** The line of the log that reports a modify target as missing. *)
Definition not_found_line (p : string) : Coder.LogEntry :=
  Coder.mkLog "warn" "File to modify not found" [("path", Coder.LStr p)].

(** The members of [Object.prototype] in Node.js, as string
    concatenation renders them. *)
Definition native (name : string) : string :=
  "function " +:+ name +:+ "() { [native code] }".

Definition object_prototype (k : string) : option string :=
  if String.eqb k "__proto__" then Some "[object Object]"
  else if String.eqb k "constructor" then Some (native "Object")
  else if bool_decide (k ∈ ["__defineGetter__"; "__defineSetter__"; "hasOwnProperty";
                            "__lookupGetter__"; "__lookupSetter__"; "isPrototypeOf";
                            "propertyIsEnumerable"; "toString"; "valueOf";
                            "toLocaleString"])
  then Some (native k)
  else None.

(** * Properties of the coder agent's file fetching and patch engine *)

(** ** Strings *)

Lemma string_cons_app x (a b : string) : String x a +:+ b = String x (a +:+ b).
Proof. reflexivity. Qed.

Lemma string_nil_app (b : string) : EmptyString +:+ b = b.
Proof. reflexivity. Qed.

Lemma string_app_assoc (a b c : string) : (a +:+ b) +:+ c = a +:+ (b +:+ c).
Proof.
  induction a as [|x a IH]; [reflexivity|].
  now rewrite !string_cons_app, IH.
Qed.

Lemma string_app_nil_r (a : string) : a +:+ EmptyString = a.
Proof.
  induction a as [|x a IH]; [reflexivity|].
  now rewrite string_cons_app, IH.
Qed.

Lemma strip_prefix_sound p : forall s r, JS.strip_prefix p s = Some r -> s = p +:+ r.
Proof.
  induction p as [|a p IH]; intros s r H; simpl in *.
  - now inversion H.
  - destruct s as [|b s]; [discriminate|].
    destruct (Ascii.eqb_spec a b) as [->|]; [|discriminate].
    now rewrite string_cons_app, (IH _ _ H).
Qed.

Lemma strip_prefix_app p r : JS.strip_prefix p (p +:+ r) = Some r.
Proof.
  induction p as [|a p IH]; [reflexivity|].
  rewrite string_cons_app. simpl. now rewrite Ascii.eqb_refl.
Qed.

(** [find_first] splits the string around an occurrence of the text. *)
Lemma find_first_sound sub : forall s before after,
  JS.find_first sub s = Some (before, after) -> s = before +:+ sub +:+ after.
Proof.
  induction s as [|c s IH]; intros before after H; simpl in H.
  - destruct (JS.strip_prefix sub EmptyString) eqn:E; [|discriminate].
    inversion H; subst. rewrite string_nil_app. exact (strip_prefix_sound _ _ _ E).
  - destruct (JS.strip_prefix sub (String c s)) eqn:E.
    + inversion H; subst. rewrite string_nil_app. exact (strip_prefix_sound _ _ _ E).
    + destruct (JS.find_first sub s) as [[b a]|] eqn:F; [|discriminate].
      inversion H; subst. now rewrite string_cons_app, <- (IH _ _ eq_refl).
Qed.

(** ... and that occurrence is the first one: no earlier offset carries
    the text. *)
Lemma find_first_leftmost sub : forall s before after,
  JS.find_first sub s = Some (before, after) ->
  forall n, (n < String.length before)%nat -> Coder.occurs_at sub s n = false.
Proof.
  induction s as [|c s IH]; intros before after H n Hn; simpl in H.
  - destruct (JS.strip_prefix sub EmptyString); [|discriminate].
    inversion H; subst. simpl in Hn. lia.
  - destruct (JS.strip_prefix sub (String c s)) eqn:E.
    + inversion H; subst. simpl in Hn. lia.
    + destruct (JS.find_first sub s) as [[b a]|] eqn:F; [|discriminate].
      inversion H; subst. destruct n as [|n]; simpl.
      * now rewrite E.
      * apply (IH _ _ eq_refl). simpl in Hn. lia.
Qed.

(** ** The patch loop *)

Section PatchLoop.
Import Coder.

Lemma disk_eta d : mkDisk (contents d) (dirs d) (logs d) = d.
Proof. now destruct d. Qed.

(** A patch never throws and touches nothing but the log; its value is
    [patch_step]. *)
Lemma apply_patch_value file st p d :
  exists lg, apply_patch file st p d
             = (Ret (patch_step st p), mkDisk (contents d) (dirs d) (logs d ++ lg)).
Proof.
  destruct st as [fc n]. unfold apply_patch, patch_step.
  destruct (search p) as [[|c s]|]; destruct (replace p) as [r|];
    try (eexists; reflexivity).
  destruct (JS.includes fc (String c s)); simpl.
  - unfold bind.
    match goal with |- context [if ?b then log _ _ _ else _] => destruct b end.
    + eexists; reflexivity.
    + exists []. unfold ret. now rewrite app_nil_r, disk_eta.
  - eexists; reflexivity.
Qed.

Lemma apply_patches_value file ps : forall st d,
  exists lg, apply_patches file ps st d
             = (Ret (patched ps st), mkDisk (contents d) (dirs d) (logs d ++ lg)).
Proof.
  induction ps as [|p ps IH]; intros st d; simpl.
  - exists []. unfold ret. now rewrite app_nil_r, disk_eta.
  - unfold bind. destruct (apply_patch_value file st p d) as [lg1 ->].
    destruct (IH (patch_step st p) (mkDisk (contents d) (dirs d) (logs d ++ lg1)))
      as [lg2 ->].
    simpl. exists (lg1 ++ lg2). now rewrite List.app_assoc.
Qed.

(** The counter never decreases, and a patch whose search text is
    missing from the content leaves both loop variables alone. *)
Lemma patch_step_absent c n p : search_absent c p -> patch_step (c, n) p = (c, n).
Proof.
  unfold search_absent, patch_step.
  destruct (search p) as [[|a s]|]; destruct (replace p); intros H;
    try reflexivity.
  now rewrite H.
Qed.

Lemma patched_all_absent ps : forall c n,
  Forall (search_absent c) ps -> patched ps (c, n) = (c, n).
Proof.
  induction ps as [|p ps IH]; intros c n H; [reflexivity|].
  inversion H; subst. unfold patched in *. cbn [fold_left].
  rewrite patch_step_absent by assumption. now apply IH.
Qed.

Lemma patched_app ps1 ps2 st : patched (ps1 ++ ps2) st = patched ps2 (patched ps1 st).
Proof. unfold patched. apply fold_left_app. Qed.

End PatchLoop.

(** ** Writing files *)

Section WriteFiles.
Import Coder.
Variable path_join : string -> string -> string.
Variable path_dirname : string -> string.

Abbreviation write_one := (write_one path_join path_dirname).
Abbreviation writeFiles := (writeFiles path_join path_dirname).

(** Making sure the directory exists changes the directories only. *)
Lemma ensure_dir_spec fileDir d :
  exists ds, ensure_dir path_dirname fileDir d
             = (Ret tt, mkDisk (contents d) ds (logs d)).
Proof.
  unfold ensure_dir, bind, existsSync, gets.
  match goal with |- context [negb ?b] => destruct b end; cbn [negb].
  - exists (dirs d). unfold ret. now rewrite disk_eta.
  - eexists. reflexivity.
Qed.

Lemma existsSync_file p c d :
  contents d !! p = Some c -> existsSync p d = (Ret true, d).
Proof.
  intros H. unfold existsSync, gets. rewrite H.
  rewrite bool_decide_eq_true_2 by eauto. reflexivity.
Qed.

Lemma existsSync_missing p d :
  contents d !! p = None -> p ∉ dirs d -> existsSync p d = (Ret false, d).
Proof.
  intros H Hd. unfold existsSync, gets. rewrite H.
  rewrite bool_decide_eq_false_2 by (intros [? ?]; discriminate).
  rewrite bool_decide_eq_false_2 by assumption. reflexivity.
Qed.


(** The modify branch on a file that does not exist: nothing is written. *)
Lemma write_one_modify_missing repoDir written file ps d :
  action file = "modify" ->
  patches file = PatchesArray ps ->
  contents d !! path_join repoDir (path file) = None ->
  path_join repoDir (path file)
    ∉ dirs (snd (ensure_dir path_dirname (path_dirname (path_join repoDir (path file))) d)) ->
  exists ds,
    write_one repoDir written file d =
      (Ret written,
       mkDisk (contents d) ds
         (logs d ++
          [mkLog "error" "Cannot modify non-existent file" [("path", LStr (path file))]])).
Proof.
  intros Hact Hpat Hc Hnd.
  destruct (ensure_dir_spec (path_dirname (path_join repoDir (path file))) d)
    as [ds Hd].
  rewrite Hd in Hnd. cbn [snd dirs] in Hnd.
  unfold Coder.write_one, bind. rewrite Hd, Hact, Hpat.
  change (String.eqb "modify" "modify") with true. cbv beta iota.
  rewrite existsSync_missing by assumption. cbn [negb].
  exists ds. reflexivity.
Qed.


End WriteFiles.

(** ** The claims about the patch engine *)

Section PatchEngineClaims.
Import Coder.
Variable path_join : string -> string -> string.
Variable path_dirname : string -> string.

Abbreviation writeFiles := (writeFiles path_join path_dirname).




(** Patches compose in list order: the second list starts from the loop
    variables and the log as the first list left them. *)
Lemma apply_patches_app file ps1 : forall ps2 st d,
  apply_patches file (ps1 ++ ps2) st d
  = (do st' <- apply_patches file ps1 st ;; apply_patches file ps2 st') d.
Proof.
  induction ps1 as [|p ps1 IH]; intros ps2 st d; [reflexivity|].
  cbn [apply_patches app]. unfold bind.
  destruct (apply_patch_value file st p d) as [lg ->].
  rewrite IH. reflexivity.
Qed.

(** The counter only grows, by at most one per patch, and the content
    changes only when it grows. *)
Lemma patch_step_count st p :
  (snd st <= snd (patch_step st p) <= snd st + 1)%Z
  /\ (snd (patch_step st p) = snd st -> fst (patch_step st p) = fst st).
Proof.
  destruct st as [c n]. unfold patch_step.
  destruct (search p) as [[|a s]|]; destruct (replace p) as [r|];
    cbn [fst snd]; try (split; [lia|reflexivity]).
  destruct (JS.includes c (String a s)); cbn [fst snd]; split; (lia || reflexivity).
Qed.

Lemma patched_count ps : forall st,
  (snd st <= snd (patched ps st) <= snd st + Z.of_nat (length ps))%Z
  /\ (snd (patched ps st) = snd st -> fst (patched ps st) = fst st).
Proof.
  induction ps as [|p ps IH]; intros st.
  - cbn. split; [lia|reflexivity].
  - unfold patched in *. cbn [fold_left length].
    destruct (IH (patch_step st p)) as [Hb He].
    destruct (patch_step_count st p) as [Hb1 He1].
    split; [lia|]. intros E. rewrite He by lia. apply He1. lia.
Qed.


End PatchEngineClaims.





(** ** Lines: splitting at line feeds and joining back *)

Section Lines.
Import Coder.

Lemma split_go_nl_cons acc c s :
  JS.split_go nl 0 acc (String c s)
  = if Ascii.eqb (ascii_of_nat 10) c
    then acc :: JS.split_go nl 0 EmptyString s
    else JS.split_go nl 0 (acc +:+ String c EmptyString) s.
Proof.
  cbn [JS.split_go JS.strip_prefix nl].
  destruct (Ascii.eqb (ascii_of_nat 10) c); reflexivity.
Qed.

Lemma no_newline_app a b : no_newline (a +:+ b) = no_newline a && no_newline b.
Proof.
  induction a as [|c a IH]; [reflexivity|].
  rewrite string_cons_app. cbn [no_newline]. rewrite IH. now rewrite andb_assoc.
Qed.

(** A stretch without line feeds is read into the current piece. *)
Lemma split_go_nl_skip a : forall acc b,
  no_newline a = true ->
  JS.split_go nl 0 acc (a +:+ b) = JS.split_go nl 0 (acc +:+ a) b.
Proof.
  induction a as [|c a IH]; intros acc b H.
  - now rewrite string_nil_app, string_app_nil_r.
  - cbn [no_newline] in H. apply andb_true_iff in H as [Hc Ha].
    rewrite string_cons_app, split_go_nl_cons.
    destruct (Ascii.eqb (ascii_of_nat 10) c); [discriminate|].
    rewrite IH by assumption. now rewrite string_app_assoc.
Qed.

(** A line feed closes the current piece. *)
Lemma split_go_nl_break acc b :
  JS.split_go nl 0 acc (nl +:+ b) = acc :: JS.split_go nl 0 EmptyString b.
Proof. reflexivity. Qed.

(** The pieces that [split] returns hold no line feed. *)
Lemma split_go_nl_pieces s : forall acc,
  no_newline acc = true ->
  Forall (fun l => no_newline l = true) (JS.split_go nl 0 acc s).
Proof.
  induction s as [|c s IH]; intros acc H.
  - repeat constructor. exact H.
  - rewrite split_go_nl_cons.
    destruct (Ascii.eqb (ascii_of_nat 10) c) eqn:E.
    + constructor; [exact H | now apply IH].
    + apply IH. rewrite no_newline_app, H. cbn [no_newline]. now rewrite E.
Qed.

Lemma split_nl_pieces s : Forall (fun l => no_newline l = true) (JS.split s nl).
Proof. apply split_go_nl_pieces. reflexivity. Qed.

Lemma join_cons2 sep x y l : JS.join sep (x :: y :: l) = x +:+ sep +:+ JS.join sep (y :: l).
Proof. reflexivity. Qed.

Lemma join_app sep a : forall b,
  a <> [] -> b <> [] ->
  JS.join sep (a ++ b) = JS.join sep a +:+ sep +:+ JS.join sep b.
Proof.
  induction a as [|x a IH]; intros b Ha Hb; [contradiction|].
  destruct a as [|y a].
  - destruct b as [|z b]; [contradiction|]. reflexivity.
  - change ((x :: y :: a) ++ b) with (x :: y :: (a ++ b)).
    rewrite !join_cons2.
    change (y :: a ++ b) with ((y :: a) ++ b).
    rewrite IH by (assumption || discriminate).
    now rewrite !string_app_assoc.
Qed.

(** Splitting a joined list of line-feed-free pieces gives the list back. *)
Lemma split_go_join l : forall x acc,
  Forall (fun l => no_newline l = true) (x :: l) ->
  JS.split_go nl 0 acc (JS.join nl (x :: l)) = (acc +:+ x) :: l.
Proof.
  induction l as [|y l IH]; intros x acc H; inversion H as [|? ? Hx Hl]; subst.
  - cbn [JS.join]. rewrite <- (string_app_nil_r x) at 1.
    now rewrite split_go_nl_skip.
  - rewrite join_cons2, split_go_nl_skip, split_go_nl_break by assumption.
    now rewrite IH.
Qed.

Lemma split_join l :
  l <> [] -> Forall (fun l => no_newline l = true) l ->
  JS.split (JS.join nl l) nl = l.
Proof.
  destruct l as [|x l]; [contradiction|]. intros _ H.
  unfold JS.split. cbn [nl]. fold nl. now rewrite split_go_join.
Qed.

Lemma no_newline_uint d : no_newline (NilEmpty.string_of_uint d) = true.
Proof. induction d; cbn [NilEmpty.string_of_uint no_newline]; auto. Qed.

Lemma no_newline_number z : no_newline (JS.number_to_string z) = true.
Proof.
  unfold JS.number_to_string, NilZero.string_of_int, NilZero.string_of_uint.
  destruct (Z.to_int z) as [d|d]; destruct d;
    cbn [no_newline]; try reflexivity;
    try (change (NilEmpty.string_of_uint ?x) with (NilEmpty.string_of_uint x));
    apply (no_newline_uint (_ d)) || (cbn; apply (no_newline_uint (_ d))).
Qed.

End Lines.

(** ** Slices *)

Lemma slice_head {A} (l : list A) (h : nat) :
  (h <= length l)%nat -> JS.slice l 0 (Z.of_nat h) = firstn h l.
Proof.
  intros H. unfold JS.slice, JS.rel_index.
  change (0 <? 0)%Z with false. cbv iota.
  destruct (Z.ltb_spec (Z.of_nat h) 0); [lia|].
  rewrite (Z.min_l 0) by lia. rewrite Z.min_l by lia.
  rewrite Z.sub_0_r, Nat2Z.id. reflexivity.
Qed.

Lemma slice_tail {A} (l : list A) (h : nat) :
  (1 <= h <= length l)%nat ->
  JS.slice_from l (- Z.of_nat h) = skipn (length l - h) l.
Proof.
  intros H. unfold JS.slice_from, JS.slice, JS.rel_index.
  destruct (Z.ltb_spec (- Z.of_nat h) 0); [|lia].
  destruct (Z.ltb_spec (Z.of_nat (length l)) 0); [lia|].
  rewrite Z.max_l by lia. rewrite Z.min_l by lia.
  replace (Z.to_nat (Z.of_nat (length l) + - Z.of_nat h)) with (length l - h)%nat by lia.
  apply firstn_all2. rewrite length_skipn. lia.
Qed.

(** A list is its first [h] elements, a middle part, and its last [h]
    elements. *)
Lemma head_middle_tail {A} (l : list A) (h : nat) :
  (2 * h <= length l)%nat ->
  l = firstn h l ++ skipn h (firstn (length l - h) l) ++ skipn (length l - h) l
  /\ length (skipn h (firstn (length l - h) l)) = (length l - 2 * h)%nat.
Proof.
  intros H. split.
  - rewrite <- (firstn_skipn (length l - h) l) at 1.
    rewrite <- (firstn_skipn h (firstn (length l - h) l)) at 1.
    rewrite firstn_firstn, Nat.min_l by lia. now rewrite <- List.app_assoc.
  - rewrite length_skipn, length_firstn. lia.
Qed.

(** ** The claim about truncation *)

Section Truncation.
Import Coder.
Variable path_join : string -> string -> string.
Variable path_dirname : string -> string.

Abbreviation fetchExistingFileContent := (fetchExistingFileContent path_join).

(** What [fetchExistingFileContent] returns for a file that exists. *)
Lemma fetch_existing repoDir filePath maxLines content d :
  contents d !! path_join repoDir filePath = Some content ->
  fetchExistingFileContent repoDir filePath maxLines d =
    (Ret (Some
       (let m := default 300%Z maxLines in
        let lines := JS.split content nl in
        if (m <? Z.of_nat (length lines))%Z then
          JS.join nl (JS.slice lines 0 (m / 2))
          +:+ (nl +:+ nl +:+ "... [")
          +:+ JS.number_to_string (Z.of_nat (length lines) - m)
          +:+ (" lines truncated] ..." +:+ nl +:+ nl)
          +:+ JS.join nl (JS.slice_from lines (- (m / 2)))
        else content)), d).
Proof.
  intros Hc. unfold Coder.fetchExistingFileContent, bind.
  rewrite (existsSync_file _ content) by exact Hc. cbn [negb].
  unfold readFileSync. rewrite Hc. cbv zeta.
  destruct (_ <? _)%Z; reflexivity.
Qed.

(** The truncated text is the kept lines and the marker, joined by line
    feeds. *)
Lemma truncated_text_is_join (hd tl : list string) (k : Z) :
  hd <> [] -> tl <> [] ->
  JS.join nl hd +:+ (nl +:+ nl +:+ "... [") +:+ JS.number_to_string k
    +:+ (" lines truncated] ..." +:+ nl +:+ nl) +:+ JS.join nl tl
  = JS.join nl (hd ++ [EmptyString; marker_line k; EmptyString] ++ tl).
Proof.
  intros Hh Ht.
  rewrite join_app by (assumption || discriminate).
  change ([EmptyString; marker_line k; EmptyString] ++ tl)
    with ([EmptyString; marker_line k; EmptyString] ++ tl)%list.
  rewrite (join_app nl [EmptyString; marker_line k; EmptyString] tl)
    by (assumption || discriminate).
  unfold marker_line. cbn [JS.join].
  rewrite !string_app_assoc, !string_nil_app. reflexivity.
Qed.

(** C3, as the code has it.  With an even budget of [2 * half] lines
    (the default 300 is one) and a file of more lines than that, the
    result is the first [half] lines, a blank line, one marker line that
    states the number of lines left out, a blank line, and the last
    [half] lines; a 1000-line file under the default budget keeps its
    first 150 and last 150 lines around a marker that states 700; and a
    file of at most [budget] lines comes back unmodified. *)
Theorem truncation_keeps_head_and_tail repoDir filePath content d :
  contents d !! path_join repoDir filePath = Some content ->
  let lines := JS.split content nl in
  let n := length lines in
  (forall half : nat,
      (1 <= half)%nat -> (2 * half < n)%nat ->
      exists middle out,
        lines = firstn half lines ++ middle ++ skipn (n - half) lines
        /\ Z.of_nat (length middle) = (Z.of_nat n - 2 * Z.of_nat half)%Z
        /\ fetchExistingFileContent repoDir filePath (Some (2 * Z.of_nat half)%Z) d
           = (Ret (Some out), d)
        /\ JS.split out nl
           = firstn half lines
             ++ [EmptyString; marker_line (Z.of_nat (length middle)); EmptyString]
             ++ skipn (n - half) lines)
  /\ (n = 1000%nat ->
      exists out,
        fetchExistingFileContent repoDir filePath None d = (Ret (Some out), d)
        /\ JS.split out nl
           = firstn 150 lines
             ++ [EmptyString; "... [700 lines truncated] ..."; EmptyString]
             ++ skipn 850 lines)
  /\ (forall budget : option Z,
      (Z.of_nat n <= default 300 budget)%Z ->
      fetchExistingFileContent repoDir filePath budget d = (Ret (Some content), d)).
Proof.
  intros Hc lines n.
  assert (Hhalf : forall half : nat,
      (1 <= half)%nat -> (2 * half < n)%nat ->
      exists middle out,
        lines = firstn half lines ++ middle ++ skipn (n - half) lines
        /\ Z.of_nat (length middle) = (Z.of_nat n - 2 * Z.of_nat half)%Z
        /\ fetchExistingFileContent repoDir filePath (Some (2 * Z.of_nat half)%Z) d
           = (Ret (Some out), d)
        /\ JS.split out nl
           = firstn half lines
             ++ [EmptyString; marker_line (Z.of_nat (length middle)); EmptyString]
             ++ skipn (n - half) lines).
  { intros half H1 H2.
    destruct (head_middle_tail lines half) as [Hsplit Hlen]; [fold n; lia|].
    fold n in Hsplit, Hlen.
    exists (skipn half (firstn (n - half) lines)). eexists.
    split; [exact Hsplit|]. split; [lia|].
    rewrite (fetch_existing _ _ _ content) by exact Hc.
    cbv zeta.
    change (default 300%Z (Some (2 * Z.of_nat half)%Z)) with (2 * Z.of_nat half)%Z.
    fold lines. fold n.
    destruct (Z.ltb_spec (2 * Z.of_nat half) (Z.of_nat n)); [|lia].
    split; [reflexivity|].
    replace (2 * Z.of_nat half / 2)%Z with (Z.of_nat half)
      by (rewrite Z.mul_comm, Z.div_mul; lia).
    rewrite slice_head by (fold n; lia).
    rewrite slice_tail by (fold n; lia). fold n.
    rewrite truncated_text_is_join.
    - rewrite split_join.
      + rewrite Hlen.
        replace (Z.of_nat (n - 2 * half)) with (Z.of_nat n - 2 * Z.of_nat half)%Z by lia.
        reflexivity.
      + destruct (firstn half lines); discriminate.
      + pose proof (split_nl_pieces content) as Hp. fold lines in Hp.
        apply Forall_app. split; [now apply Forall_take|].
        constructor; [reflexivity|]. constructor.
        * unfold marker_line.
          rewrite !no_newline_app, no_newline_number. reflexivity.
        * constructor; [reflexivity|]. now apply Forall_drop.
    - intros E. apply (f_equal (@length _)) in E.
      rewrite length_firstn in E. change (length lines) with n in E.
      cbn [length] in E. lia.
    - intros E. apply (f_equal (@length _)) in E.
      rewrite length_skipn in E. change (length lines) with n in E.
      cbn [length] in E. lia. }
  split; [exact Hhalf|]. split.
  - intros Hn. destruct (Hhalf 150%nat) as (middle & out & _ & Hm & Hf & Hs); [lia|lia|].
    exists out. split; [exact Hf|].
    rewrite Hs. replace (Z.of_nat (length middle)) with 700%Z by lia.
    rewrite Hn. reflexivity.
  - intros budget Hle. rewrite (fetch_existing _ _ _ content) by exact Hc.
    cbv zeta. fold lines. fold n.
    destruct (Z.ltb_spec (default 300%Z budget) (Z.of_nat n)); [lia|reflexivity].
Qed.

End Truncation.

(** C3 run on a file of 1000 numbered lines under the default budget. *)
Lemma truncation_witness :
  let content := Sample.numbered_file 1000 in
  let d := Sample.one_file "/repo/big.txt" content in
  let lines := JS.split content Coder.nl in
  length lines = 1000%nat
  /\ exists out,
      Coder.fetchExistingFileContent Sample.join "/repo" "big.txt" None d
      = (Ret (Some out), d)
      /\ JS.split out Coder.nl
         = firstn 150 lines
           ++ [EmptyString; "... [700 lines truncated] ..."; EmptyString]
           ++ skipn 850 lines.
Proof.
  intros content d lines.
  assert (Hn : length lines = 1000%nat) by (vm_compute; reflexivity).
  split; [exact Hn|].
  apply (truncation_keeps_head_and_tail Sample.join "/repo" "big.txt" content d);
    [vm_compute; reflexivity | exact Hn].
Defined.

(** C3 as worded fails on that file: the marker of the 1000-line file
    under the 300-line budget states 700 lines (1000 - 300, the number
    of lines left out), and "850 lines" occurs nowhere in the result. *)
Lemma truncation_marker_counterexample :
  let content := Sample.numbered_file 1000 in
  let d := Sample.one_file "/repo/big.txt" content in
  length (JS.split content Coder.nl) = 1000%nat
  /\ exists out,
      Coder.fetchExistingFileContent Sample.join "/repo" "big.txt" None d
      = (Ret (Some out), d)
      /\ nth 151 (JS.split out Coder.nl) EmptyString = "... [700 lines truncated] ..."
      /\ length (JS.split out Coder.nl) = 303%nat
      /\ JS.includes out "850 lines" = false.
Proof.
  intros content d. split; [vm_compute; reflexivity|].
  eexists. split; [vm_compute; reflexivity|].
  split; [vm_compute; reflexivity|].
  split; vm_compute; reflexivity.
Qed.

(** ** The ambiguity warning *)

Section Ambiguity.
Import Coder.

(** A usable patch whose search text is found is always applied: the
    content becomes the text before the first occurrence, the expanded
    replacement, and the text after it, and the counter goes up by one. *)
Lemma apply_patch_found file c n srch repl d before after :
  srch <> EmptyString ->
  JS.find_first srch c = Some (before, after) ->
  exists lg,
    apply_patch file (c, n) (mkPatch (Some srch) (Some repl)) d
    = (Ret (before +:+ JS.get_substitution srch before after repl +:+ after,
            (n + 1)%Z),
       mkDisk (contents d) (dirs d) (logs d ++ lg))
    /\ c = before +:+ srch +:+ after
    /\ (forall k, (k < String.length before)%nat -> occurs_at srch c k = false).
Proof.
  intros Hne Hf.
  destruct (apply_patch_value file (c, n) (mkPatch (Some srch) (Some repl)) d)
    as [lg Hlg].
  exists lg. split; [|split].
  - rewrite Hlg. unfold patch_step. cbn [search replace].
    destruct srch as [|a s]; [contradiction|].
    unfold JS.includes, JS.replace. rewrite Hf. reflexivity.
  - now apply find_first_sound.
  - now apply (find_first_leftmost srch c before after).
Qed.

(** C6 on the code.  The search text "aa" occurs twice in "aaa", at
    offsets 0 and 1, but the occurrences overlap, [split] counts one,
    and the patch is applied with no warning logged.  With occurrences
    that do not overlap the warning is logged, and the text put in place
    of the first one is the replacement with its [$] patterns expanded:
    "$&y" replaces "x" by "xy". *)
Theorem ambiguity_warning_on_code file d :
  (occurs_at "aa" "aaa" 0 = true
   /\ occurs_at "aa" "aaa" 1 = true
   /\ apply_patch file ("aaa", 0%Z) (Sample.patch "aa" "b") d
      = (Ret ("ba", 1%Z), d))
  /\ apply_patch file ("x x", 0%Z) (Sample.patch "x" "$&y") d
     = (Ret ("xy x", 1%Z),
        mkDisk (contents d) (dirs d)
          (logs d ++ [mkLog "warn" "Patch search text not unique"
                        [("path", LStr (path file)); ("occurrences", LNum 2)]])).
Proof. repeat split. Qed.

End Ambiguity.

(** [String.prototype.split], [replace] and [slice] on small inputs. *)
Example split_examples :
  JS.split "a,b,," "," = ["a"; "b"; ""; ""]
  /\ JS.split "xabyabab" "ab" = ["x"; "y"; ""; ""]
  /\ JS.split "aaa" "aa" = [""; "a"]
  /\ JS.split "" "x" = [""].
Proof. repeat split. Qed.

Example replace_examples :
  JS.replace "a-b-c" "-" "+" = "a+b-c"
  /\ JS.replace "abc" "b" "[$&|$`|$'|$$|$1|$]" = "a[b|a|c|$|$1|$]c"
  /\ JS.replace "abc" "z" "y" = "abc".
Proof. repeat split. Qed.

Example slice_examples :
  JS.slice [1;2;3;4;5] 0 2 = [1;2]
  /\ JS.slice_from [1;2;3;4;5] (-2) = [4;5]
  /\ JS.slice_from [1;2;3;4;5] 0 = [1;2;3;4;5]
  /\ JS.slice [1;2;3;4;5] 0 (-1) = [1;2;3;4].
Proof. repeat split. Qed.

(** * Properties of the engine's review and merge code *)

Section EngineBasics.
Import Engine.

Lemma bind_ret {S A B} (c : M S A) (k : A -> M S B) s a s' :
  c s = (Ret a, s') -> bind c k s = k a s'.
Proof. intros H. unfold bind. now rewrite H. Qed.

Lemma bind_throw {S A B} (c : M S A) (k : A -> M S B) s e s' :
  c s = (Throw e, s') -> bind c k s = (Throw e, s').
Proof. intros H. unfold bind. now rewrite H. Qed.

Lemma calm_drop k fs : calm fs -> calm (drop k fs).
Proof. apply Forall_drop. Qed.

Lemma calm_cons_inv f fs : calm (f :: fs) -> f = None /\ calm fs.
Proof. intros H. inversion H; subst. now split. Qed.

(** An external call in a calm world goes through and uses up one entry
    of the schedule. *)
Lemma external_calm w :
  calm (faults w) -> external w = (Ret tt, set_faults (drop 1 (faults w)) w).
Proof.
  intros H. unfold external.
  destruct (faults w) as [|f fs]; [reflexivity|].
  apply calm_cons_inv in H as [-> _]. reflexivity.
Qed.

(** An external call fated to fail throws its error. *)
Lemma external_fault w e fs :
  faults w = Some e :: fs -> external w = (Throw e, set_faults fs w).
Proof. intros H. unfold external. now rewrite H. Qed.

Lemma alter_present (f : Ticket -> Ticket) tid (m : gmap string Ticket) t :
  m !! tid = Some t -> <[tid := f t]> m = alter f tid m.
Proof.
  intros H. apply map_eq. intros k. rewrite lookup_alter, lookup_insert.
  destruct (decide (tid = k)) as [->|]; [|reflexivity]. now rewrite H.
Qed.

Lemma alter_absent (f : Ticket -> Ticket) tid (m : gmap string Ticket) :
  m !! tid = None -> m = alter f tid m.
Proof.
  intros H. apply map_eq. intros k. rewrite lookup_alter.
  destruct (decide (tid = k)) as [->|]; [|reflexivity]. now rewrite H.
Qed.

(** The UPDATE in a calm world. *)
Lemma update_ticket_calm tid guard set w :
  calm (faults w) ->
  update_ticket tid guard set w =
    match tickets w !! tid with
    | Some t =>
        if guard t
        then (Ret [set (now w) t],
              set_tickets (insert tid (set (now w) t)) (set_faults (drop 1 (faults w)) w))
        else (Ret [], set_faults (drop 1 (faults w)) w)
    | None => (Ret [], set_faults (drop 1 (faults w)) w)
    end.
Proof.
  intros H. unfold update_ticket.
  rewrite (bind_ret _ _ _ _ _ (external_calm w H)). reflexivity.
Qed.

End EngineBasics.

(** ** The state transitions *)

Section Transitions.
Import Engine.

Ltac world_simpl :=
  cbn [tickets projects hitl_sessions events notifications logs verify_calls
       shell_calls verifier now faults set_tickets add_event add_notification
       add_log add_verify_call add_shell_call set_now set_faults].

Ltac calm_tac :=
  world_simpl; repeat apply calm_drop; assumption.

Lemma notify_calm w tid st p :
  calm (faults w) ->
  notifyTicketStateChange tid st p w
  = (Ret tt, add_notification (mkNotification tid st p)
               (set_faults (drop 1 (faults w)) w)).
Proof.
  intros H. unfold notifyTicketStateChange.
  now rewrite (bind_ret _ _ _ _ _ (external_calm w H)).
Qed.

Lemma emitEvent_calm w tid type from to p :
  calm (faults w) ->
  emitEvent tid type from to p w
  = (Ret tt, add_event (mkEvent tid type from to p)
               (set_faults (drop 1 (faults w)) w)).
Proof.
  intros H. unfold emitEvent.
  now rewrite (bind_ret _ _ _ _ _ (external_calm w H)).
Qed.

(** An unconditional transition in a calm world: the row is rewritten
    whatever it held, then the notification, the event and the trace
    line follow. *)
Lemma transition_calm w tid set st type from p lvl line :
  calm (faults w) ->
  (run update_ticket tid (fun _ => true) set ;;
   run notifyTicketStateChange tid st p ;;
   run emitEvent tid type from st p ;;
   log lvl line) w
  = (Ret tt,
     mkWorld (alter (set (now w)) tid (tickets w)) (projects w) (hitl_sessions w)
       (events w ++ [mkEvent tid type from st p])
       (notifications w ++ [mkNotification tid st p])
       (logs w ++ [(lvl, line)])
       (verify_calls w) (shell_calls w) (verifier w) (now w)
       (drop 3 (faults w))).
Proof.
  intros H. destruct w as [tk pj hs ev nt lg vc sc vf nw fs]. cbn [faults] in H.
  assert (Hu : exists rows,
    update_ticket tid (fun _ => true) set (mkWorld tk pj hs ev nt lg vc sc vf nw fs)
    = (Ret rows, mkWorld (alter (set nw) tid tk) pj hs ev nt lg vc sc vf nw (drop 1 fs))).
  { rewrite update_ticket_calm by exact H. world_simpl.
    destruct (tk !! tid) as [t|] eqn:E.
    - eexists. unfold set_tickets. world_simpl.
      now rewrite (alter_present _ _ _ _ E).
    - eexists. unfold set_faults. world_simpl.
      now rewrite <- (alter_absent _ _ _ E). }
  destruct Hu as [rows Hu].
  rewrite (bind_ret _ _ _ _ _ Hu).
  erewrite bind_ret by (apply notify_calm; calm_tac).
  erewrite bind_ret by (apply emitEvent_calm; calm_tac).
  unfold log, modify. world_simpl. rewrite !drop_drop. reflexivity.
Qed.

Lemma setMerged_calm w tid prUrl :
  calm (faults w) ->
  setMerged tid prUrl w
  = (Ret tt,
     mkWorld (alter (merged_row (now w)) tid (tickets w)) (projects w) (hitl_sessions w)
       (events w ++ [mkEvent tid "merged" "reviewing" "merged" (PrUrl prUrl)])
       (notifications w ++ [mkNotification tid "merged" (PrUrl prUrl)])
       (logs w ++ [("INFO", "[STATE] Ticket " +:+ tid +:+ " -> merged")])
       (verify_calls w) (shell_calls w) (verifier w) (now w)
       (drop 3 (faults w))).
Proof. intros H. unfold setMerged. now apply transition_calm. Qed.

Lemma setSentinelFailed_calm w tid reason :
  calm (faults w) ->
  setSentinelFailed tid reason w
  = (Ret tt,
     mkWorld (alter (sentinel_failed_row (now w)) tid (tickets w))
       (projects w) (hitl_sessions w)
       (events w ++ [mkEvent tid "sentinel_failed" "reviewing" "sentinel_failed"
                       (Reason reason)])
       (notifications w ++ [mkNotification tid "sentinel_failed" (Reason reason)])
       (logs w ++ [("WARN", "[STATE] Ticket " +:+ tid +:+ " -> sentinel_failed: "
                            +:+ JS.interpolate reason)])
       (verify_calls w) (shell_calls w) (verifier w) (now w)
       (drop 3 (faults w))).
Proof. intros H. unfold setSentinelFailed. now apply transition_calm. Qed.

(** C10 (unconditional transitions).  [setMerged] and
    [setSentinelFailed] rewrite the row of the given id whatever state
    it is in -- no condition on the current state, a terminal one
    included -- and the event each appends carries from_state
    'reviewing' whatever the row's state was. *)
Theorem transitions_are_unconditional w tid t prUrl reason :
  calm (faults w) ->
  tickets w !! tid = Some t ->
  (exists w',
      setMerged tid prUrl w = (Ret tt, w')
      /\ tickets w' !! tid = Some (merged_row (now w) t)
      /\ state (merged_row (now w) t) = "merged"
      /\ events w'
         = events w ++ [mkEvent tid "merged" "reviewing" "merged" (PrUrl prUrl)])
  /\ (exists w',
      setSentinelFailed tid reason w = (Ret tt, w')
      /\ tickets w' !! tid = Some (sentinel_failed_row (now w) t)
      /\ state (sentinel_failed_row (now w) t) = "sentinel_failed"
      /\ events w'
         = events w ++ [mkEvent tid "sentinel_failed" "reviewing" "sentinel_failed"
                          (Reason reason)]).
Proof.
  intros H Ht. split.
  - rewrite setMerged_calm by exact H. eexists. split; [reflexivity|].
    world_simpl. rewrite lookup_alter_eq, Ht. repeat split.
  - rewrite setSentinelFailed_calm by exact H. eexists. split; [reflexivity|].
    world_simpl. rewrite lookup_alter_eq, Ht. repeat split.
Qed.

End Transitions.

(** C10 run on a ticket that is already merged: [setSentinelFailed]
    moves it to sentinel_failed, and the event says it came from
    'reviewing'. *)
Lemma transitions_are_unconditional_witness :
  let w := Sample.world Sample.ticket1_merged Sample.passed [] in
  Engine.state Sample.ticket1_merged = "merged"
  /\ exists w',
      Engine.setSentinelFailed "T1" (Some "late failure") w = (Ret tt, w')
      /\ Engine.state <$> Engine.tickets w' !! "T1" = Some "sentinel_failed"
      /\ Engine.from_state <$> last (Engine.events w') = Some "reviewing".
Proof.
  intros w. split; [reflexivity|].
  destruct (transitions_are_unconditional w "T1" Sample.ticket1_merged
              "https://github.com/acme/widgets/pull/42" (Some "late failure"))
    as [_ (w' & Hrun & Htk & _ & Hev)].
  - constructor.
  - reflexivity.
  - exists w'. split; [exact Hrun|]. rewrite Htk, Hev. split; [reflexivity|].
    rewrite last_snoc. reflexivity.
Defined.

(** ** Claiming a ticket for review *)

Section Claim.
Import Engine.

Ltac world_simpl :=
  cbn [tickets projects hitl_sessions events notifications logs verify_calls
       shell_calls verifier now faults set_tickets add_event add_notification
       add_log add_verify_call add_shell_call set_now set_faults].

Ltac calm_tac :=
  world_simpl; repeat apply calm_drop; assumption.

Lemma claim_guard_iff t :
  claim_guard t = true
  <-> state t = "in_review" /\ assignee_id t = Some "sentinel-agent".
Proof.
  unfold claim_guard. rewrite andb_true_iff, String.eqb_eq, bool_decide_eq_true.
  reflexivity.
Qed.

(** A claimed row no longer passes the guard. *)
Lemma claimed_row_not_claimable nw t : claim_guard (claimed_row nw t) = false.
Proof. reflexivity. Qed.

(** The claim of a ticket that passes the guard, in a calm world. *)
Lemma claim_calm_success w tid t :
  calm (faults w) ->
  tickets w !! tid = Some t ->
  claim_guard t = true ->
  atomicClaimReviewTicket tid w
  = (Ret (Some (claimed_row (now w) t)),
     mkWorld (<[tid := claimed_row (now w) t]> (tickets w)) (projects w)
       (hitl_sessions w)
       (events w ++ [mkEvent tid "sentinel_started" "in_review" "reviewing" NoPayload])
       (notifications w ++ [mkNotification tid "reviewing" (Phase "sentinel")])
       (logs w) (verify_calls w) (shell_calls w) (verifier w) (now w)
       (drop 3 (faults w))).
Proof.
  intros H Ht Hg. unfold atomicClaimReviewTicket.
  erewrite bind_ret by (rewrite update_ticket_calm, Ht, Hg by exact H; reflexivity).
  cbn [head].
  erewrite bind_ret.
  2:{ erewrite bind_ret by (apply notify_calm; calm_tac).
      apply emitEvent_calm. calm_tac. }
  unfold ret. destruct w. world_simpl. rewrite !drop_drop. reflexivity.
Qed.

(** The claim of a ticket that is missing or fails the guard: nothing
    but the schedule of external calls moves. *)
Lemma claim_calm_noop w tid :
  calm (faults w) ->
  (forall t, tickets w !! tid = Some t -> claim_guard t = false) ->
  atomicClaimReviewTicket tid w = (Ret None, set_faults (drop 1 (faults w)) w).
Proof.
  intros H Hg. unfold atomicClaimReviewTicket.
  erewrite bind_ret.
  2:{ rewrite update_ticket_calm by exact H.
      destruct (tickets w !! tid) as [t|] eqn:E; [rewrite (Hg t eq_refl)|];
        reflexivity. }
  reflexivity.
Qed.

(** Attempts on a ticket that cannot be claimed all come back empty. *)
Lemma claim_attempts_noop tid times : forall w,
  calm (faults w) ->
  (forall t, tickets w !! tid = Some t -> claim_guard t = false) ->
  exists w',
    claim_attempts tid times w = (repeat (Ret None) (length times), w')
    /\ tickets w' = tickets w
    /\ events w' = events w
    /\ notifications w' = notifications w.
Proof.
  induction times as [|t0 rest IH]; intros w H Hg.
  - exists w. repeat split.
  - cbn [claim_attempts length repeat].
    rewrite (claim_calm_noop (set_now t0 w) tid) by (assumption || calm_tac).
    destruct (IH (set_faults (drop 1 (faults (set_now t0 w))) (set_now t0 w)))
      as (w' & -> & Htk & Hev & Hnt); [calm_tac | exact Hg |].
    exists w'. repeat split; assumption.
Qed.

(** C1 (claim exclusivity).  In a world whose external calls go
    through: a ticket in state 'in_review' that is assigned to
    'sentinel-agent' is claimed -- the row gets state 'reviewing', vm_id
    -1, heartbeat and updated_at set to the clock, and the updated row
    is returned; a ticket that is missing or fails the guard, an already
    claimed one included, yields null and the table, the event log and
    the notifications stay as they were; and of any non-empty sequence
    of attempts on a claimable ticket the first succeeds and every later
    one yields null, so exactly one succeeds. *)
Theorem claim_is_exclusive w tid t :
  calm (faults w) ->
  tickets w !! tid = Some t ->
  (state t = "in_review" /\ assignee_id t = Some "sentinel-agent" ->
     (exists w',
        atomicClaimReviewTicket tid w = (Ret (Some (claimed_row (now w) t)), w')
        /\ tickets w' = <[tid := claimed_row (now w) t]> (tickets w)
        /\ state (claimed_row (now w) t) = "reviewing"
        /\ vm_id (claimed_row (now w) t) = Some (-1)%Z
        /\ last_heartbeat (claimed_row (now w) t) = Some (now w)
        /\ updated_at (claimed_row (now w) t) = now w)
     /\ (forall t0 rest,
          exists w',
            claim_attempts tid (t0 :: rest) w
            = (Ret (Some (claimed_row t0 t)) :: repeat (Ret None) (length rest), w')
            /\ length (filter (fun r => succeeded r = true)
                         (fst (claim_attempts tid (t0 :: rest) w))) = 1%nat
            /\ tickets w' = <[tid := claimed_row t0 t]> (tickets w)))
  /\ (~ (state t = "in_review" /\ assignee_id t = Some "sentinel-agent") ->
      exists w',
        atomicClaimReviewTicket tid w = (Ret None, w')
        /\ tickets w' = tickets w
        /\ events w' = events w
        /\ notifications w' = notifications w)
  /\ (state t = "reviewing" ->
      exists w',
        atomicClaimReviewTicket tid w = (Ret None, w')
        /\ tickets w' = tickets w
        /\ events w' = events w
        /\ notifications w' = notifications w).
Proof.
  intros H Ht.
  assert (Hno : claim_guard t = false ->
      exists w',
        atomicClaimReviewTicket tid w = (Ret None, w')
        /\ tickets w' = tickets w
        /\ events w' = events w
        /\ notifications w' = notifications w).
  { intros Hg. rewrite claim_calm_noop; [|exact H|].
    - eexists. repeat split.
    - intros t' Ht'. rewrite Ht in Ht'. now inversion Ht'; subst. }
  split; [|split].
  - intros Hg. apply claim_guard_iff in Hg. split.
    + rewrite (claim_calm_success w tid t) by assumption.
      eexists. repeat split.
    + intros t0 rest. cbn [claim_attempts].
      rewrite (claim_calm_success (set_now t0 w) tid t) by (assumption || calm_tac).
      world_simpl.
      match goal with |- context [claim_attempts tid rest ?w1] =>
        destruct (claim_attempts_noop tid rest w1) as (w' & Hrun & Htk & _)
      end.
      * calm_tac.
      * world_simpl. intros t' Ht'. rewrite lookup_insert_eq in Ht'.
        inversion Ht'; subst. reflexivity.
      * rewrite Hrun. exists w'. split; [reflexivity|]. split; [|exact Htk].
        cbn [fst filter succeeded]. destruct (decide (true = true)) as [_|n]; [|congruence].
        cbn [length]. f_equal.
        clear. induction (length rest) as [|k IH]; [reflexivity|].
        cbn [repeat filter succeeded].
        destruct (decide (false = true)) as [E|_]; [discriminate|exact IH].
  - intros Hg. apply Hno. destruct (claim_guard t) eqn:E; [|reflexivity].
    apply claim_guard_iff in E. contradiction.
  - intros Hs. apply Hno. unfold claim_guard. rewrite Hs. reflexivity.
Qed.

End Claim.

(** C1 run on the scenario's ticket: three attempts, one success. *)
Lemma claim_is_exclusive_witness :
  let w := Sample.world Sample.ticket1 Sample.passed [] in
  exists w',
    Engine.claim_attempts "T1" [1001; 1002; 1003]%Z w
    = ([Ret (Some (Engine.claimed_row 1001 Sample.ticket1)); Ret None; Ret None], w')
    /\ Engine.tickets w' = <["T1" := Engine.claimed_row 1001 Sample.ticket1]> (Engine.tickets w).
Proof.
  intros w.
  destruct (claim_is_exclusive w "T1" Sample.ticket1) as [Hyes _].
  - constructor.
  - reflexivity.
  - destruct Hyes as [_ Hseq]; [split; reflexivity|].
    destruct (Hseq 1001%Z [1002; 1003]%Z) as (w' & Hrun & _ & Htk).
    exists w'. split; assumption.
Defined.

(** ** Merging a pull request *)

Section Merge.
Import Engine.

Ltac world_simpl :=
  cbn [tickets projects hitl_sessions events notifications logs verify_calls
       shell_calls verifier now faults set_tickets add_event add_notification
       add_log add_verify_call add_shell_call set_now set_faults].

Ltac calm_tac :=
  world_simpl; repeat apply calm_drop; assumption.

Lemma span_sound p s : forall a b,
  span p s = (a, b) -> s = a +:+ b /\ all_chars p a = true.
Proof.
  induction s as [|c s IH]; intros a b H; cbn [span] in H.
  - inversion H; subst. now split.
  - destruct (p c) eqn:E.
    + destruct (span p s) as [a' b'] eqn:Es. inversion H; subst.
      destruct (IH _ _ eq_refl) as [-> Ha]. split; [reflexivity|].
      cbn [all_chars]. now rewrite E, Ha.
    + inversion H; subst. now split.
Qed.

(** A match at the first character has the shape of the expression. *)
Lemma pr_url_match_here_shape s owner repo number :
  pr_url_match_here s = Some (owner, repo, number) ->
  exists after,
    s = "github.com" +:+ "/" +:+ owner +:+ "/" +:+ repo +:+ "/pull/" +:+ number +:+ after
    /\ owner <> EmptyString /\ all_chars not_slash owner = true
    /\ repo <> EmptyString /\ all_chars not_slash repo = true
    /\ number <> EmptyString /\ all_chars is_digit number = true.
Proof.
  unfold pr_url_match_here. intros H.
  destruct (JS.strip_prefix "github.com/" s) as [r1|] eqn:E1; [|discriminate].
  destruct (span not_slash r1) as [o r2] eqn:S1.
  destruct o as [|oc o]; [discriminate|].
  destruct (JS.strip_prefix "/" r2) as [r3|] eqn:E2; [|discriminate].
  destruct (span not_slash r3) as [r r4] eqn:S2.
  destruct r as [|rc r]; [discriminate|].
  destruct (JS.strip_prefix "/pull/" r4) as [r5|] eqn:E3; [|discriminate].
  destruct (span is_digit r5) as [n r6] eqn:S3.
  destruct n as [|nc n]; [discriminate|].
  inversion H; subst.
  apply strip_prefix_sound in E1, E2, E3.
  apply span_sound in S1 as [-> Ho], S2 as [-> Hr], S3 as [-> Hn].
  exists r6. subst.
  split; [reflexivity|repeat split; (discriminate || assumption)].
Qed.

Lemma pr_url_match_suffix s : forall m,
  pr_url_match s = Some m ->
  exists before suffix, s = before +:+ suffix /\ pr_url_match_here suffix = Some m.
Proof.
  induction s as [|c s IH]; intros m H; cbn [pr_url_match] in H.
  - destruct (pr_url_match_here EmptyString) eqn:E; [|discriminate].
    inversion H; subst. now exists EmptyString, EmptyString.
  - destruct (pr_url_match_here (String c s)) eqn:E.
    + inversion H; subst. now exists EmptyString, (String c s).
    + destruct (IH _ H) as (before & suffix & -> & Hm).
      now exists (String c before), suffix.
Qed.

(** Whatever the expression of the code accepts has the shape that the
    specification describes, with github.com as the host. *)
Lemma pr_url_match_has_spec_shape url m :
  pr_url_match url = Some m -> spec_pr_url_shape url.
Proof.
  intros H. destruct m as [[owner repo] number].
  destruct (pr_url_match_suffix _ _ H) as (before & suffix & -> & Hm).
  destruct (pr_url_match_here_shape _ _ _ _ Hm) as (after & -> & Hrest).
  exists before, "github.com", owner, repo, number, after.
  split; [reflexivity|]. split; [discriminate|exact Hrest].
Qed.

(** C7 (malformed PR URL).  A URL that the expression of [mergePR] does
    not match -- in particular any URL without a
    host/owner/repo/pull/number part -- makes [mergePR] throw 'Invalid
    PR URL' at once: the world is left exactly as it was, so no merge
    command was launched, no retry made and no row touched. *)
Theorem invalid_pr_url_fails_fast w tid prUrl branchName :
  pr_url_match prUrl = None \/ ~ spec_pr_url_shape prUrl ->
  mergePR tid prUrl branchName w
  = (Throw (Error ("Invalid PR URL: " +:+ prUrl)), w)
  /\ shell_calls (snd (mergePR tid prUrl branchName w)) = shell_calls w
  /\ tickets (snd (mergePR tid prUrl branchName w)) = tickets w.
Proof.
  intros H.
  assert (Hm : pr_url_match prUrl = None).
  { destruct H as [H|H]; [exact H|].
    destruct (pr_url_match prUrl) as [m|] eqn:E; [|reflexivity].
    exfalso. apply H. now apply (pr_url_match_has_spec_shape _ m). }
  unfold mergePR. rewrite Hm. repeat split.
Qed.

(** What [mergePR] does when the merge command fails with [e] and every
    later external call goes through. *)
Lemma mergePR_command_fails w tid prUrl branchName owner repo number e fs :
  pr_url_match prUrl = Some (owner, repo, number) ->
  faults w = Some e :: fs ->
  calm fs ->
  mergePR tid prUrl branchName w =
    let cmd := "gh pr merge " +:+ number +:+ " --repo " +:+ (owner +:+ "/" +:+ repo)
               +:+ " --squash --delete-branch" in
    let line := ("INFO", "[MERGE] Merging PR #" +:+ number +:+ " in "
                         +:+ (owner +:+ "/" +:+ repo)) in
    if text_includes (message e) "already been merged"
       || text_includes (stderr e) "already been merged"
    then
      (Ret tt,
       mkWorld (alter (merged_row (now w)) tid (tickets w)) (projects w) (hitl_sessions w)
         (events w ++ [mkEvent tid "merged" "reviewing" "merged" (PrUrl prUrl)])
         (notifications w ++ [mkNotification tid "merged" (PrUrl prUrl)])
         (((logs w ++ [line])
           ++ [("INFO", "[MERGE] PR #" +:+ number +:+ " was already merged")])
           ++ [("INFO", "[STATE] Ticket " +:+ tid +:+ " -> merged")])
         (verify_calls w) (shell_calls w ++ [cmd]) (verifier w) (now w)
         (drop 3 fs))
    else
      (Throw e,
       mkWorld (tickets w) (projects w) (hitl_sessions w) (events w) (notifications w)
         (logs w ++ [line]) (verify_calls w) (shell_calls w ++ [cmd]) (verifier w)
         (now w) fs).
Proof.
  intros Hm Hf Hc. unfold mergePR. rewrite Hm.
  destruct w as [tk pj hs ev nt lg vc sc vf nw fs0]. cbn [faults] in Hf. subst fs0.
  unfold try_catch, execSync, log, modify, bind, external.
  world_simpl. cbn [head tail]. cbv beta iota zeta.
  destruct (text_includes (message e) "already been merged"
            || text_includes (stderr e) "already been merged"); [|reflexivity].
  rewrite setMerged_calm by calm_tac. reflexivity.
Qed.

(** C2 (idempotent merge).  When the URL is a PR URL and the merge
    command fails with a text that says the PR has already been merged,
    in the error's message or in its captured error stream, [mergePR]
    returns normally and the ticket's row is in state 'merged' with the
    slot marker cleared, [merged_at] stamped and a 'merged' event
    appended; a second such call ends the same way. *)
Theorem already_merged_is_success w tid t prUrl branchName m e fs :
  pr_url_match prUrl = Some m ->
  tickets w !! tid = Some t ->
  faults w = Some e :: fs ->
  calm fs ->
  text_includes (message e) "already been merged" = true
  \/ text_includes (stderr e) "already been merged" = true ->
  exists w',
    mergePR tid prUrl branchName w = (Ret tt, w')
    /\ tickets w' !! tid = Some (merged_row (now w) t)
    /\ state (merged_row (now w) t) = "merged"
    /\ vm_id (merged_row (now w) t) = None
    /\ merged_at (merged_row (now w) t) = Some (now w)
    /\ events w' = events w ++ [mkEvent tid "merged" "reviewing" "merged" (PrUrl prUrl)]
    /\ (forall e2 fs2,
          calm fs2 ->
          text_includes (message e2) "already been merged" = true
          \/ text_includes (stderr e2) "already been merged" = true ->
          exists w'',
            mergePR tid prUrl branchName (set_faults (Some e2 :: fs2) w') = (Ret tt, w'')
            /\ state <$> tickets w'' !! tid = Some "merged").
Proof.
  intros Hm Ht Hf Hc He. destruct m as [[owner repo] number].
  assert (Hb : forall x : JsError,
            text_includes (message x) "already been merged" = true
            \/ text_includes (stderr x) "already been merged" = true ->
            text_includes (message x) "already been merged"
            || text_includes (stderr x) "already been merged" = true).
  { intros x [->| ->]; [reflexivity|apply orb_true_r]. }
  rewrite (mergePR_command_fails w tid prUrl branchName owner repo number e fs Hm Hf Hc).
  cbv zeta. rewrite (Hb e He). eexists. split; [reflexivity|].
  world_simpl. rewrite lookup_alter_eq, Ht. repeat split.
  intros e2 fs2 Hc2 He2.
  erewrite (mergePR_command_fails _ tid prUrl branchName owner repo number e2 fs2 Hm)
    by (reflexivity || assumption).
  cbv zeta. rewrite (Hb e2 He2). eexists. split; [reflexivity|].
  world_simpl. rewrite !lookup_alter_eq, Ht. reflexivity.
Qed.

End Merge.

(** C7 run on a URL of another shape. *)
Lemma invalid_pr_url_witness :
  let w := Sample.world Sample.ticket1 Sample.passed [] in
  Engine.pr_url_match "https://example.org/acme/widgets/issues/42" = None
  /\ Engine.mergePR "T1" "https://example.org/acme/widgets/issues/42" None w
     = (Throw (Error "Invalid PR URL: https://example.org/acme/widgets/issues/42"), w).
Proof.
  intros w. split; [reflexivity|].
  apply (invalid_pr_url_fails_fast w "T1"
           "https://example.org/acme/widgets/issues/42" None).
  left. reflexivity.
Defined.

(** C2 run on the scenario's ticket, claimed and under review, with a
    merge command that reports the PR as already merged on its error
    stream. *)
Lemma already_merged_witness :
  let t := Engine.claimed_row 900 Sample.ticket1 in
  let w := Sample.world t Sample.passed [Some Sample.already_merged] in
  Engine.pr_url_match "https://github.com/acme/widgets/pull/42"
  = Some ("acme", "widgets", "42")
  /\ exists w',
      Engine.mergePR "T1" "https://github.com/acme/widgets/pull/42" (Some "swarm/T1") w
      = (Ret tt, w')
      /\ Engine.state <$> Engine.tickets w' !! "T1" = Some "merged".
Proof.
  intros t w. split; [reflexivity|].
  destruct (already_merged_is_success w "T1" t
              "https://github.com/acme/widgets/pull/42" (Some "swarm/T1")
              ("acme", "widgets", "42") Sample.already_merged [])
    as (w' & Hrun & Htk & _); try reflexivity.
  - constructor.
  - right. reflexivity.
  - exists w'. split; [exact Hrun|]. rewrite Htk. reflexivity.
Defined.

(** ** The sentinel review *)

Section Review.
Import Engine.

Ltac world_simpl :=
  cbn [tickets projects hitl_sessions events notifications logs verify_calls
       shell_calls verifier now faults set_tickets add_event add_notification
       add_log add_verify_call add_shell_call set_now set_faults].

Ltac calm_tac :=
  world_simpl; repeat apply calm_drop; assumption.

Lemma executeSentinelReview_unfold ticket w :
  executeSentinelReview ticket w
  = match review_body ticket (id ticket) (review_start ticket w) with
    | (Ret a, w1) => (Ret a, w1)
    | (Throw err, w1) =>
        setSentinelFailed (id ticket) (message err)
          (add_log ("ERROR", "[SENTINEL] Error reviewing " +:+ id ticket +:+ ": "
                             +:+ JS.interpolate (message err)) w1)
    end.
Proof.
  unfold executeSentinelReview, review_start.
  erewrite bind_ret by reflexivity. unfold try_catch.
  destruct (review_body _ _ _) as [[a|err] w1]; [reflexivity|].
  erewrite bind_ret by reflexivity. reflexivity.
Qed.

(** C8, as the code has it.  An error that escapes the [try] block of
    [executeSentinelReview] -- from the claim, the repo-URL lookup, the
    verifier or the bookkeeping -- is caught at the top level, which
    calls [setSentinelFailed] with the error's message: when that
    recording goes through, the row is in state 'sentinel_failed', the
    event carries the message, and the operation returns normally; when
    the recording itself fails at its first call, that failure reaches
    the caller and the row is left as it was.  An error of [mergePR] is
    caught one level further in and recorded with the reason 'Merge
    failed: ' followed by its message. *)
Theorem review_errors_are_recorded :
  (forall ticket w err w1,
      review_body ticket (id ticket) (review_start ticket w) = (Throw err, w1) ->
      (calm (faults w1) ->
       exists w2,
         executeSentinelReview ticket w = (Ret tt, w2)
         /\ tickets w2 = alter (sentinel_failed_row (now w1)) (id ticket) (tickets w1)
         /\ events w2
            = events w1 ++ [mkEvent (id ticket) "sentinel_failed" "reviewing"
                              "sentinel_failed" (Reason (message err))])
      /\ (forall e2 fs,
            faults w1 = Some e2 :: fs ->
            exists w2,
              executeSentinelReview ticket w = (Throw e2, w2)
              /\ tickets w2 = tickets w1
              /\ events w2 = events w1))
  /\ (forall tid prUrl branchName w0 mergeErr w1,
      mergePR tid prUrl branchName w0 = (Throw mergeErr, w1) ->
      calm (faults w1) ->
      exists w2,
        merge_or_fail tid prUrl branchName w0 = (Ret tt, w2)
        /\ tickets w2 = alter (sentinel_failed_row (now w1)) tid (tickets w1)
        /\ events w2
           = events w1 ++ [mkEvent tid "sentinel_failed" "reviewing" "sentinel_failed"
                             (Reason (Some ("Merge failed: "
                                            +:+ JS.interpolate (message mergeErr))))]).
Proof.
  split.
  - intros ticket w err w1 Hbody. split.
    + intros Hc. rewrite executeSentinelReview_unfold, Hbody.
      rewrite setSentinelFailed_calm by calm_tac.
      eexists. split; [reflexivity|]. split; reflexivity.
    + intros e2 fs Hf. rewrite executeSentinelReview_unfold, Hbody.
      unfold setSentinelFailed, update_ticket.
      erewrite bind_throw.
      2:{ erewrite bind_throw; [reflexivity|].
          apply external_fault. world_simpl. exact Hf. }
      eexists. split; [reflexivity|]. split; reflexivity.
  - intros tid prUrl branchName w0 mergeErr w1 Hm Hc.
    unfold merge_or_fail, try_catch. rewrite Hm.
    erewrite bind_ret by reflexivity.
    rewrite setSentinelFailed_calm by calm_tac.
    eexists. split; [reflexivity|]. split; reflexivity.
Qed.

(** When a ticket was in the table, the recording leaves it in state
    'sentinel_failed'. *)
Lemma recorded_state (tk : gmap string Ticket) tid nw t :
  tk !! tid = Some t ->
  state <$> alter (sentinel_failed_row nw) tid tk !! tid = Some "sentinel_failed".
Proof. intros H. now rewrite lookup_alter_eq, H. Qed.

End Review.

(** C8 as worded fails: the claim succeeds, the verifier call throws,
    and the UPDATE of the recording in the catch handler throws as well.
    The second error reaches the caller and the ticket stays in
    'reviewing'. *)
Lemma review_failure_can_propagate :
  let w := Sample.world Sample.ticket1 Sample.passed
             [None; None; None; Some Sample.verifier_down; Some Sample.database_down] in
  exists w',
    Engine.executeSentinelReview Sample.ticket1 w = (Throw Sample.database_down, w')
    /\ Engine.state <$> Engine.tickets w' !! "T1" = Some "reviewing"
    /\ Engine.ev_type <$> Engine.events w' = ["sentinel_started"].
Proof.
  intros w. eexists. split; [vm_compute; reflexivity|].
  split; vm_compute; reflexivity.
Qed.

(** C8 run on the same scenario with a database that stays up: the
    verifier's failure is recorded and the operation returns. *)
Lemma review_errors_are_recorded_witness :
  let w := Sample.world Sample.ticket1 Sample.passed
             [None; None; None; Some Sample.verifier_down] in
  exists w2,
    Engine.executeSentinelReview Sample.ticket1 w = (Ret tt, w2)
    /\ Engine.state <$> Engine.tickets w2 !! "T1" = Some "sentinel_failed"
    /\ last (Engine.events w2)
       = Some (Engine.mkEvent "T1" "sentinel_failed" "reviewing" "sentinel_failed"
                 (Engine.Reason (Some "verifier unreachable"))).
Proof.
  intros w.
  assert (Hb : exists w1,
             Engine.review_body Sample.ticket1 "T1" (Engine.review_start Sample.ticket1 w)
             = (Throw Sample.verifier_down, w1)
             /\ Engine.calm (Engine.faults w1)
             /\ Engine.state <$> Engine.tickets w1 !! "T1" = Some "reviewing").
  { eexists. split; [vm_compute; reflexivity|].
    split; [vm_compute; constructor | vm_compute; reflexivity]. }
  destruct Hb as (w1 & Hbody & Hcalm & Ht).
  destruct (proj1 review_errors_are_recorded Sample.ticket1 w Sample.verifier_down w1 Hbody)
    as [Hrec _].
  destruct Hrec as (w2 & Hrun & Htk & Hev); [exact Hcalm|].
  exists w2. split; [exact Hrun|]. rewrite Htk, Hev, last_snoc. split; [|reflexivity].
  destruct (Engine.tickets w1 !! "T1") as [t|] eqn:E; [|discriminate].
  now apply (recorded_state _ _ _ t).
Defined.

(** ** The scenarios of the specification, run on the model *)

(** Ticket T1 in review, verifier answers 'passed', merge command
    succeeds: the ticket ends merged, with one 'sentinel_started' and
    one 'merged' event in that order, and one merge command launched. *)
Example scenario_pass :
  let w := Sample.world Sample.ticket1 Sample.passed [] in
  exists w',
    Engine.executeSentinelReview Sample.ticket1 w = (Ret tt, w')
    /\ Engine.state <$> Engine.tickets w' !! "T1" = Some "merged"
    /\ Engine.merged_at <$> Engine.tickets w' !! "T1" = Some (Some 1000%Z)
    /\ Engine.ev_type <$> Engine.events w' = ["sentinel_started"; "merged"]
    /\ Engine.shell_calls w'
       = ["gh pr merge 42 --repo acme/widgets --squash --delete-branch"].
Proof.
  intros w. eexists. split; [vm_compute; reflexivity|].
  repeat split; vm_compute; reflexivity.
Qed.

(** The same ticket with a verifier that answers 'failed': the ticket
    ends in 'sentinel_failed', the reason is the serialized reply, and
    no merge command is launched. *)
Example scenario_fail :
  let verdict := Engine.mkVerifyResult "failed" (Some ["missing test"])
                   "{status:failed,feedback_for_agent:[missing test]}" in
  let w := Sample.world Sample.ticket1 verdict [] in
  exists w',
    Engine.executeSentinelReview Sample.ticket1 w = (Ret tt, w')
    /\ Engine.state <$> Engine.tickets w' !! "T1" = Some "sentinel_failed"
    /\ last (Engine.events w')
       = Some (Engine.mkEvent "T1" "sentinel_failed" "reviewing" "sentinel_failed"
                 (Engine.Reason (Some "{status:failed,feedback_for_agent:[missing test]}")))
    /\ Engine.shell_calls w' = [].
Proof.
  intros verdict w. eexists. split; [vm_compute; reflexivity|].
  repeat split; vm_compute; reflexivity.
Qed.

(** A merge command that fails for another reason: the inner handler
    records 'Merge failed: ' and the message. *)
Example scenario_merge_error :
  let w := Sample.world Sample.ticket1 Sample.passed
             [None; None; None; None; Some (Error "Command failed: gh pr merge")] in
  exists w',
    Engine.executeSentinelReview Sample.ticket1 w = (Ret tt, w')
    /\ Engine.state <$> Engine.tickets w' !! "T1" = Some "sentinel_failed"
    /\ last (Engine.events w')
       = Some (Engine.mkEvent "T1" "sentinel_failed" "reviewing" "sentinel_failed"
                 (Engine.Reason (Some "Merge failed: Command failed: gh pr merge"))).
Proof.
  intros w. eexists. split; [vm_compute; reflexivity|].
  repeat split; vm_compute; reflexivity.
Qed.

(** The expression of [mergePR] on a few URLs. *)
Example pr_url_examples :
  Engine.pr_url_match "https://github.com/acme/widgets/pull/42"
  = Some ("acme", "widgets", "42")
  /\ Engine.pr_url_match "github.com/a/b/pull/7/files" = Some ("a", "b", "7")
  /\ Engine.pr_url_match "https://gitlab.com/acme/widgets/pull/42" = None
  /\ Engine.pr_url_match "https://github.com/acme/widgets/pull/" = None
  /\ Engine.pr_url_match "https://github.com/acme/widgets/issues/42" = None.
Proof. repeat split. Qed.

(** * Further properties of the engine *)

(** ** Rules for invariants and returned values *)

Section Effects.
Context {S : Type}.

Lemma preserves_ret {A} (I : S -> Prop) (a : A) : preserves I (ret a).
Proof. intros s H. exact H. Qed.

Lemma preserves_throw {A} (I : S -> Prop) e : preserves I (@throw S A e).
Proof. intros s H. exact H. Qed.

Lemma preserves_gets {A} (I : S -> Prop) (f : S -> A) : preserves I (gets f).
Proof. intros s H. exact H. Qed.

Lemma preserves_modify (I : S -> Prop) (f : S -> S) :
  (forall s, I s -> I (f s)) -> preserves I (modify f).
Proof. intros Hf s H. now apply Hf. Qed.

Lemma preserves_bind {A B} (I : S -> Prop) (c : M S A) (k : A -> M S B) :
  preserves I c -> (forall a, preserves I (k a)) -> preserves I (bind c k).
Proof.
  intros Hc Hk s H. unfold bind. specialize (Hc s H).
  destruct (c s) as [[a|e] s1]; cbn [snd] in *; [now apply Hk|exact Hc].
Qed.

Lemma preserves_try_catch {A} (I : S -> Prop) (c : M S A) (h : JsError -> M S A) :
  preserves I c -> (forall e, preserves I (h e)) -> preserves I (try_catch c h).
Proof.
  intros Hc Hh s H. unfold try_catch. specialize (Hc s H).
  destruct (c s) as [[a|e] s1]; cbn [snd] in *; [exact Hc|now apply Hh].
Qed.


Lemma yields_throw {A} (P : A -> Prop) e : yields (@throw S A e) P.
Proof. intros s b s' E. discriminate. Qed.

Lemma yields_bind {A B} (P : B -> Prop) (c : M S A) (k : A -> M S B) :
  (forall a, yields (k a) P) -> yields (bind c k) P.
Proof.
  intros Hk s b s' E. unfold bind in E.
  destruct (c s) as [[a|e] s1]; [exact (Hk a _ _ _ E)|discriminate].
Qed.

Lemma yields_try_catch {A} (P : A -> Prop) (c : M S A) (h : JsError -> M S A) :
  yields c P -> (forall e, yields (h e) P) -> yields (try_catch c h) P.
Proof.
  intros Hc Hh s b s' E. unfold try_catch in E.
  destruct (c s) as [[a|e] s1] eqn:Ec.
  - inversion E; subst. exact (Hc _ _ _ Ec).
  - exact (Hh e _ _ _ E).
Qed.

End Effects.

(** ** Listing the review candidates *)

Section Listing.
Import Engine Dispatch.

#[local] Instance older_first_total : Total older_first.
Proof. intros a b. unfold older_first. lia. Qed.

#[local] Instance older_first_trans : Transitive older_first.
Proof. intros a b c. unfold older_first. lia. Qed.

Lemma getReviewTickets_returns limit w rows w' :
  getReviewTickets limit w = (Ret rows, w') ->
  rows = take (Z.to_nat (default 5%Z limit)) (candidates w)
  /\ (0 <= default 5 limit)%Z
  /\ w' = set_faults (tail (faults w)) w.
Proof.
  unfold getReviewTickets, bind, external. cbv zeta.
  destruct (head (faults w)) as [[e|]|]; try discriminate;
    (destruct (Z.ltb_spec (default 5%Z limit) 0); [discriminate|]);
    unfold gets; intros Hr; inversion Hr; subst; repeat split; assumption.
Qed.

Lemma candidates_spec w t :
  t ∈ candidates w <->
  (exists k, tickets w !! k = Some t) /\ review_candidate t = true.
Proof.
  unfold candidates. rewrite merge_sort_Permutation.
  rewrite list_elem_of_filter, list_elem_of_fmap. split.
  - intros [Hc ([k t'] & -> & Hin)]. apply elem_of_map_to_list in Hin. eauto.
  - intros [[k Hk] Hc]. split; [exact Hc|].
    exists (k, t). split; [reflexivity|]. now apply elem_of_map_to_list.
Qed.

(** Listing reads only: however the call ends, the table, the event
    log, the notifications and the records of verifier and shell calls
    are as they were, also when no row is listed.  And every listed row
    is a row of the table that is in state 'in_review', assigned to the
    agent 'sentinel-agent', with no slot bound. *)
Theorem listed_rows_are_candidates limit w :
  same_records w (snd (getReviewTickets limit w))
  /\ forall rows w' t,
       getReviewTickets limit w = (Ret rows, w') ->
       t ∈ rows ->
       (exists k, tickets w !! k = Some t)
       /\ state t = "in_review"
       /\ assignee_id t = Some "sentinel-agent"
       /\ assignee_type t = Some "agent"
       /\ vm_id t = None.
Proof.
  split.
  - unfold getReviewTickets, bind, external, throw, gets. cbv zeta.
    destruct (head (faults w)) as [[e|]|];
      try (destruct (_ <? _)%Z); repeat split.
  - intros rows w' t H Hin. apply getReviewTickets_returns in H as (-> & _ & ->).
    apply elem_of_take in Hin as (i & Hi & _).
    apply list_elem_of_lookup_2, candidates_spec in Hi as [Hk Hc].
    unfold review_candidate in Hc.
    rewrite !andb_true_iff, String.eqb_eq, !bool_decide_eq_true in Hc.
    destruct Hc as [[[? ?] ?] ?]. repeat split; assumption.
Qed.

(** At most [limit] rows are listed, oldest update first. *)
Theorem listing_is_bounded_and_ordered limit w rows w' :
  getReviewTickets limit w = (Ret rows, w') ->
  (Z.of_nat (length rows) <= default 5 limit)%Z
  /\ StronglySorted (fun a b => (updated_at a <= updated_at b)%Z) rows.
Proof.
  intros H. apply getReviewTickets_returns in H as (-> & Hpos & _). split.
  - rewrite length_take. lia.
  - pose proof (StronglySorted_merge_sort older_first
      (filter (fun t => review_candidate t = true)
         (map snd (map_to_list (tickets w))))) as Hs.
    fold (candidates w) in Hs.
    rewrite <- (take_drop (Z.to_nat (default 5%Z limit)) (candidates w)) in Hs.
    now apply StronglySorted_app_1_l in Hs.
Qed.

(** No candidate is passed over for a younger one: the candidates are
    the listed rows and a rest, every row of the rest was updated no
    earlier than every listed row, and the rest is empty when fewer
    rows than the limit are listed. *)
Theorem listing_is_fair limit w rows w' :
  getReviewTickets limit w = (Ret rows, w') ->
  exists rest,
    rows ++ rest
    ≡ₚ filter (fun t => review_candidate t = true) (map snd (map_to_list (tickets w)))
    /\ (forall r c, r ∈ rows -> c ∈ rest -> (updated_at r <= updated_at c)%Z)
    /\ ((Z.of_nat (length rows) < default 5 limit)%Z -> rest = []).
Proof.
  intros H. apply getReviewTickets_returns in H as (-> & Hpos & _).
  exists (drop (Z.to_nat (default 5%Z limit)) (candidates w)).
  split; [|split].
  - rewrite take_drop. apply merge_sort_Permutation.
  - intros r c Hr Hc.
    pose proof (StronglySorted_merge_sort older_first
      (filter (fun t => review_candidate t = true)
         (map snd (map_to_list (tickets w))))) as Hs.
    fold (candidates w) in Hs.
    rewrite <- (take_drop (Z.to_nat (default 5%Z limit)) (candidates w)) in Hs.
    exact (StronglySorted_app_1_elem_of _ _ _ _ _ Hs Hr Hc).
  - intros Hlt. apply drop_ge. rewrite length_take in Hlt. lia.
Qed.

End Listing.

Section ListingAndClaim.
Import Engine Dispatch.

Lemma listed_is_candidate limit w rows w' t :
  getReviewTickets limit w = (Ret rows, w') ->
  t ∈ rows ->
  (exists k, tickets w !! k = Some t) /\ review_candidate t = true.
Proof.
  intros H Hin. apply getReviewTickets_returns in H as (-> & _ & ->).
  apply elem_of_take in Hin as (i & Hi & _).
  now apply list_elem_of_lookup_2, candidates_spec in Hi.
Qed.

Lemma candidate_is_claimable t : review_candidate t = true -> claim_guard t = true.
Proof.
  unfold review_candidate, claim_guard. rewrite !andb_true_iff. tauto.
Qed.

(** Listing and claiming fit together: in a table keyed by id, a listed
    row is claimed by the next attempt on its id when the external calls
    go through, and once claimed it is listed no more. *)
Theorem listed_row_can_be_claimed_once limit w rows w' t :
  well_keyed w ->
  getReviewTickets limit w = (Ret rows, w') ->
  calm (faults w') ->
  t ∈ rows ->
  exists w'',
    atomicClaimReviewTicket (id t) w' = (Ret (Some (claimed_row (now w') t)), w'')
    /\ (forall limit2 rows2 w3 r,
          getReviewTickets limit2 w'' = (Ret rows2, w3) ->
          r ∈ rows2 -> id r <> id t).
Proof.
  intros Hk Hl Hc Hin.
  destruct (listed_is_candidate _ _ _ _ _ Hl Hin) as [[k Ht] Hcand].
  pose proof (Hk _ _ Ht) as Hid. subst k.
  apply getReviewTickets_returns in Hl as (_ & _ & Hw').
  assert (Ht' : tickets w' !! id t = Some t) by (now subst w').
  rewrite (claim_calm_success w' (id t) t Hc Ht' (candidate_is_claimable _ Hcand)).
  eexists. split; [reflexivity|].
  intros limit2 rows2 w3 r Hl2 Hr Heq.
  destruct (listed_is_candidate _ _ _ _ _ Hl2 Hr) as [[k Hrk] Hrc].
  cbn [tickets] in Hrk.
  destruct (decide (k = id t)) as [->|Hne].
  - rewrite lookup_insert_eq in Hrk. inversion Hrk; subst r. discriminate.
  - rewrite lookup_insert_ne in Hrk by congruence.
    subst w'. cbn [tickets set_faults] in Hrk.
    apply Hk in Hrk. congruence.
Qed.

End ListingAndClaim.

(** The listing run on the three-ticket table: the two waiting tickets
    are listed, the older update first, and the one under review is not. *)
Lemma listed_rows_are_candidates_witness :
  (exists k, Engine.tickets (Sample.world3 []) !! k = Some Sample.ticket2)
  /\ Engine.state Sample.ticket2 = "in_review"
  /\ Engine.assignee_id Sample.ticket2 = Some "sentinel-agent"
  /\ Engine.assignee_type Sample.ticket2 = Some "agent"
  /\ Engine.vm_id Sample.ticket2 = None.
Proof.
  apply (proj2 (listed_rows_are_candidates None (Sample.world3 []))
           [Sample.ticket2; Sample.ticket1] (Engine.set_faults [] (Sample.world3 []))
           Sample.ticket2).
  - vm_compute. reflexivity.
  - apply list_elem_of_here.
Defined.

Lemma listing_is_bounded_and_ordered_witness :
  (Z.of_nat (length [Sample.ticket2; Sample.ticket1]) <= 5)%Z
  /\ StronglySorted (fun a b => (Engine.updated_at a <= Engine.updated_at b)%Z)
       [Sample.ticket2; Sample.ticket1].
Proof.
  apply (listing_is_bounded_and_ordered None (Sample.world3 [])
           [Sample.ticket2; Sample.ticket1] (Engine.set_faults [] (Sample.world3 []))).
  vm_compute. reflexivity.
Defined.

Lemma listing_is_fair_witness :
  exists rest,
    [Sample.ticket2; Sample.ticket1] ++ rest
    ≡ₚ filter (fun t => Dispatch.review_candidate t = true)
         (map snd (map_to_list (Engine.tickets (Sample.world3 []))))
    /\ (forall r c, r ∈ [Sample.ticket2; Sample.ticket1] -> c ∈ rest ->
          (Engine.updated_at r <= Engine.updated_at c)%Z)
    /\ ((Z.of_nat (length [Sample.ticket2; Sample.ticket1]) < 5)%Z -> rest = []).
Proof.
  apply (listing_is_fair None (Sample.world3 [])
           [Sample.ticket2; Sample.ticket1] (Engine.set_faults [] (Sample.world3 []))).
  vm_compute. reflexivity.
Defined.

Lemma sample_world3_well_keyed : Dispatch.well_keyed (Sample.world3 []).
Proof.
  intros k t H. unfold Sample.world3 in H. cbn [Engine.tickets] in H.
  destruct (decide (k = "T1")) as [->|n1].
  { rewrite lookup_insert_eq in H. now inversion H. }
  rewrite lookup_insert_ne in H by congruence.
  destruct (decide (k = "T2")) as [->|n2].
  { rewrite lookup_insert_eq in H. now inversion H. }
  rewrite lookup_insert_ne in H by congruence.
  destruct (decide (k = "T3")) as [->|n3].
  { rewrite lookup_singleton_eq in H. now inversion H. }
  rewrite lookup_singleton_ne in H by congruence. discriminate.
Defined.

Lemma listed_row_can_be_claimed_once_witness :
  exists w'',
    Engine.atomicClaimReviewTicket "T2" (Engine.set_faults [] (Sample.world3 []))
    = (Ret (Some (Engine.claimed_row 1000 Sample.ticket2)), w'')
    /\ (forall limit2 rows2 w3 r,
          Dispatch.getReviewTickets limit2 w'' = (Ret rows2, w3) ->
          r ∈ rows2 -> Engine.id r <> "T2").
Proof.
  apply (listed_row_can_be_claimed_once None (Sample.world3 [])
           [Sample.ticket2; Sample.ticket1] (Engine.set_faults [] (Sample.world3 []))
           Sample.ticket2).
  - exact sample_world3_well_keyed.
  - vm_compute. reflexivity.
  - constructor.
  - apply list_elem_of_here.
Defined.

(** ** Resolving the repository URL *)

Section RepoUrl.
Import Engine Dispatch.

Ltac world_simpl :=
  cbn [tickets projects hitl_sessions events notifications logs verify_calls
       shell_calls verifier now faults set_tickets add_event add_notification
       add_log add_verify_call add_shell_call set_now set_faults].

Lemma truthy_cases (o : option string) :
  o = None \/ JS.truthy o = true \/ o = Some EmptyString.
Proof. destruct o as [[|c s]|]; auto. Qed.





(** The order of precedence when the lookups go through: the ticket's
    own URL wins and no lookup is made; otherwise the project's URL
    wins and the design session is not consulted; the session's URL is
    used only when the project gives none. *)
Theorem repo_url_precedence ticket w :
  calm (faults w) ->
  (JS.truthy (repo_url ticket) = true ->
     _getRepoUrlForTicket ticket w = (Ret (repo_url ticket), w))
  /\ (forall pid c u,
        JS.truthy (repo_url ticket) = false ->
        project_id ticket = Some pid -> pid <> EmptyString ->
        projects w !! pid = Some (Some (String c u)) ->
        _getRepoUrlForTicket ticket w
        = (Ret (Some (String c u)), set_faults (drop 1 (faults w)) w))
  /\ (forall sid c u,
        JS.truthy (repo_url ticket) = false ->
        JS.truthy (project_id ticket) = false ->
        design_session ticket = Some sid -> sid <> EmptyString ->
        hitl_sessions w !! sid = Some (Some (String c u)) ->
        _getRepoUrlForTicket ticket w
        = (Ret (Some (String c u)), set_faults (drop 1 (faults w)) w))
  /\ (JS.truthy (repo_url ticket) = false ->
      JS.truthy (project_id ticket) = false ->
      JS.truthy (design_session ticket) = false ->
      _getRepoUrlForTicket ticket w = (Ret None, w)).
Proof.
  intros Hc. unfold _getRepoUrlForTicket. repeat split.
  - intros ->. reflexivity.
  - intros pid c u -> Hp Hne Hl. rewrite Hp.
    destruct pid as [|a pid]; [contradiction|]. cbn [JS.truthy].
    change (default EmptyString (Some (String a pid))) with (String a pid).
    unfold getProject.
    erewrite bind_ret.
    2:{ erewrite bind_ret.
        2:{ erewrite bind_ret by (apply external_calm; exact Hc).
            unfold gets. cbv beta. world_simpl. rewrite Hl. reflexivity. }
        reflexivity. }
    reflexivity.
  - intros sid c u -> -> Hs Hne Hl. rewrite Hs.
    destruct sid as [|a sid]; [contradiction|]. cbn [JS.truthy].
    change (default EmptyString (Some (String a sid))) with (String a sid).
    unfold select_session_repo_url.
    erewrite bind_ret by reflexivity. cbv iota.
    erewrite bind_ret.
    2:{ erewrite bind_ret.
        2:{ erewrite bind_ret by (apply external_calm; exact Hc).
            unfold gets. cbv beta. world_simpl. rewrite Hl. reflexivity. }
        reflexivity. }
    reflexivity.
  - intros -> -> ->. reflexivity.
Qed.

End RepoUrl.

(** ** The paths of a review when the external calls go through *)

Section ReviewPaths.
Import Engine Dispatch.

Ltac world_simpl :=
  cbn [tickets projects hitl_sessions events notifications logs verify_calls
       shell_calls verifier now faults set_tickets add_event add_notification
       add_log add_verify_call add_shell_call set_now set_faults review_start].

Ltac calm_tac :=
  world_simpl; repeat apply calm_drop; assumption.

Lemma verify_calm args w :
  calm (faults w) ->
  verify args w
  = (Ret (verifier w args), set_faults (drop 1 (faults w)) (add_verify_call args w)).
Proof.
  intros H. unfold verify.
  erewrite bind_ret by reflexivity.
  erewrite bind_ret by (apply external_calm; calm_tac).
  reflexivity.
Qed.

Lemma execSync_calm cmd w :
  calm (faults w) ->
  execSync cmd w = (Ret tt, set_faults (drop 1 (faults w)) (add_shell_call cmd w)).
Proof.
  intros H. unfold execSync.
  erewrite bind_ret by reflexivity.
  now rewrite external_calm by calm_tac.
Qed.

Lemma set_faults_drop0 w : set_faults (drop 0 (faults w)) w = w.
Proof. now destruct w. Qed.

Lemma set_faults_drop2 w :
  set_faults (drop 1 (faults (set_faults (drop 1 (faults w)) w)))
    (set_faults (drop 1 (faults w)) w)
  = set_faults (drop 2 (faults w)) w.
Proof. destruct w. world_simpl. unfold set_faults. world_simpl. now rewrite drop_drop. Qed.

(** With lookups that go through, resolving the repository URL returns
    and uses up at most two entries of the schedule. *)
Lemma repo_url_lookup_calm ticket w :
  calm (faults w) ->
  exists r k, _getRepoUrlForTicket ticket w = (Ret r, set_faults (drop k (faults w)) w).
Proof.
  intros Hc. unfold _getRepoUrlForTicket.
  destruct (JS.truthy (repo_url ticket)).
  { exists (repo_url ticket), 0%nat. now rewrite set_faults_drop0. }
  assert (Hp : forall pid w0, calm (faults w0) ->
            getProject pid w0
            = (Ret (projects w0 !! pid), set_faults (drop 1 (faults w0)) w0)).
  { intros pid w0 H0. unfold getProject.
    erewrite bind_ret by (apply external_calm; exact H0). reflexivity. }
  assert (Hs : forall sid w0, calm (faults w0) ->
            select_session_repo_url sid w0
            = (Ret (match hitl_sessions w0 !! sid with Some r => [r] | None => [] end),
               set_faults (drop 1 (faults w0)) w0)).
  { intros sid w0 H0. unfold select_session_repo_url.
    erewrite bind_ret by (apply external_calm; exact H0). reflexivity. }
  destruct (JS.truthy (project_id ticket)).
  - erewrite bind_ret by (erewrite bind_ret by (apply Hp; exact Hc); reflexivity).
    match goal with |- context [match ?x with Some r => ret (Some r) | None => _ end] =>
      destruct x as [r|] end.
    + exists (Some r), 1%nat. reflexivity.
    + destruct (JS.truthy (design_session ticket)).
      * erewrite bind_ret
          by (erewrite bind_ret by (apply Hs; calm_tac); reflexivity).
        rewrite set_faults_drop2.
        match goal with |- context [match ?x with Some r => ret (Some r) | None => _ end] =>
          destruct x as [r|] end; eexists; exists 2%nat; reflexivity.
      * erewrite bind_ret by reflexivity. exists None, 1%nat. reflexivity.
  - erewrite bind_ret by reflexivity. cbv iota.
    destruct (JS.truthy (design_session ticket)).
    + erewrite bind_ret
        by (erewrite bind_ret by (apply Hs; exact Hc); reflexivity).
      match goal with |- context [match ?x with Some r => ret (Some r) | None => _ end] =>
        destruct x as [r|] end; eexists; exists 1%nat; reflexivity.
    + erewrite bind_ret by reflexivity. exists None, 0%nat.
      now rewrite set_faults_drop0.
Qed.

(** The step [ticket.repo_url || await this._getRepoUrlForTicket(ticket)]. *)
Lemma resolve_calm ticket w :
  calm (faults w) ->
  exists r k,
    (if JS.truthy (repo_url ticket) then ret (repo_url ticket)
     else _getRepoUrlForTicket ticket) w
    = (Ret r, set_faults (drop k (faults w)) w).
Proof.
  intros Hc. destruct (JS.truthy (repo_url ticket)).
  - exists (repo_url ticket), 0%nat. now rewrite set_faults_drop0.
  - now apply repo_url_lookup_calm.
Qed.

(** A lost race is silent: when the row is missing or fails the guard of
    the claim, the review returns without a verifier call, a merge
    command, an event, a notification or a change to the table. *)
Theorem lost_race_is_a_no_op ticket w :
  calm (faults w) ->
  (forall t, tickets w !! id ticket = Some t -> claim_guard t = false) ->
  exists w',
    executeSentinelReview ticket w = (Ret tt, w')
    /\ same_records w w'.
Proof.
  intros Hc Hg. rewrite executeSentinelReview_unfold. unfold review_body.
  erewrite bind_ret by (apply claim_calm_noop; [calm_tac | exact Hg]).
  eexists. split; [reflexivity|]. repeat split.
Qed.

(** A claimed ticket without a PR URL is failed at once with the reason
    'No PR URL found'; the verifier is not called and no merge command
    is launched. *)
Theorem missing_pr_url_fails_the_ticket ticket w t0 :
  calm (faults w) ->
  tickets w !! id ticket = Some t0 ->
  claim_guard t0 = true ->
  JS.truthy (pr_url ticket) = false ->
  exists w',
    executeSentinelReview ticket w = (Ret tt, w')
    /\ tickets w' !! id ticket
       = Some (sentinel_failed_row (now w) (claimed_row (now w) t0))
    /\ events w'
       = events w
         ++ [mkEvent (id ticket) "sentinel_started" "in_review" "reviewing" NoPayload;
             mkEvent (id ticket) "sentinel_failed" "reviewing" "sentinel_failed"
               (Reason (Some "No PR URL found"))]
    /\ verify_calls w' = verify_calls w
    /\ shell_calls w' = shell_calls w.
Proof.
  intros Hc Ht Hg Hp. rewrite executeSentinelReview_unfold. unfold review_body.
  erewrite bind_ret
    by (apply (claim_calm_success _ _ t0); [calm_tac | exact Ht | exact Hg]).
  cbv iota zeta.
  match goal with |- context [bind ?c _ ?w1] =>
    destruct (resolve_calm ticket w1) as (r & k & Hr); [calm_tac|] end.
  erewrite bind_ret by exact Hr.
  assert (Hfail : forall W, calm (faults W) ->
    (run log "ERROR" ("[SENTINEL] No PR URL for ticket " +:+ id ticket) ;;
     setSentinelFailed (id ticket) (Some "No PR URL found")) W
    = setSentinelFailed (id ticket) (Some "No PR URL found")
        (add_log ("ERROR", "[SENTINEL] No PR URL for ticket " +:+ id ticket) W)).
  { intros W _. now erewrite bind_ret by reflexivity. }
  destruct (pr_url ticket) as [[|c u]|]; try discriminate;
    rewrite Hfail by calm_tac;
    rewrite setSentinelFailed_calm by calm_tac;
    (eexists; split; [reflexivity|]); world_simpl;
    rewrite lookup_alter_eq, lookup_insert_eq, <- List.app_assoc;
    repeat split.
Qed.

(** [mergePR] when the command and the store calls go through. *)
Lemma mergePR_calm w tid prUrl branchName owner repo number :
  pr_url_match prUrl = Some (owner, repo, number) ->
  calm (faults w) ->
  mergePR tid prUrl branchName w
  = (Ret tt,
     mkWorld (alter (merged_row (now w)) tid (tickets w)) (projects w) (hitl_sessions w)
       (events w ++ [mkEvent tid "merged" "reviewing" "merged" (PrUrl prUrl)])
       (notifications w ++ [mkNotification tid "merged" (PrUrl prUrl)])
       ((logs w ++ [("INFO", "[MERGE] Merging PR #" +:+ number +:+ " in "
                             +:+ (owner +:+ "/" +:+ repo))])
        ++ [("INFO", "[STATE] Ticket " +:+ tid +:+ " -> merged")])
       (verify_calls w)
       (shell_calls w ++ ["gh pr merge " +:+ number +:+ " --repo "
                          +:+ (owner +:+ "/" +:+ repo) +:+ " --squash --delete-branch"])
       (verifier w) (now w) (drop 4 (faults w))).
Proof.
  intros Hm Hc. unfold mergePR. rewrite Hm.
  erewrite bind_ret by reflexivity. cbv zeta. unfold try_catch.
  erewrite bind_ret by (apply execSync_calm; calm_tac).
  rewrite setMerged_calm by calm_tac.
  world_simpl. rewrite drop_drop. reflexivity.
Qed.

(** The review up to the verdict: the ticket is claimed, the repository
    URL resolved and the verifier called once. *)
Lemma review_reaches_verdict ticket w t0 c u :
  calm (faults w) ->
  tickets w !! id ticket = Some t0 ->
  claim_guard t0 = true ->
  pr_url ticket = Some (String c u) ->
  exists r w1,
    executeSentinelReview ticket w
    = match
        (let verdict := verifier w (sentinel_args ticket r) in
         if String.eqb (status verdict) "passed" then
           merge_or_fail (id ticket) (String c u) (branch_name ticket)
             (add_log ("INFO", "[SENTINEL] Approved! Merging PR for " +:+ id ticket) w1)
         else
           setSentinelFailed (id ticket) (Some (serialized verdict))
             (add_log ("WARN", "[SENTINEL] Review failed for " +:+ id ticket +:+ ": "
                               +:+ (let joined :=
                                      match feedback_for_agent verdict with
                                      | Some l => Some (JS.join ", " l)
                                      | None => None
                                      end in
                                    if JS.truthy joined then default EmptyString joined
                                    else "No feedback")) w1))
      with
      | (Ret a, w2) => (Ret a, w2)
      | (Throw err, w2) =>
          setSentinelFailed (id ticket) (message err)
            (add_log ("ERROR", "[SENTINEL] Error reviewing " +:+ id ticket +:+ ": "
                               +:+ JS.interpolate (message err)) w2)
      end
    /\ calm (faults w1)
    /\ tickets w1 = <[id ticket := claimed_row (now w) t0]> (tickets w)
    /\ events w1
       = events w
         ++ [mkEvent (id ticket) "sentinel_started" "in_review" "reviewing" NoPayload]
    /\ verify_calls w1 = verify_calls w ++ [sentinel_args ticket r]
    /\ shell_calls w1 = shell_calls w
    /\ now w1 = now w.
Proof.
  intros Hc Ht Hg Hp. rewrite executeSentinelReview_unfold. unfold review_body.
  erewrite bind_ret
    by (apply (claim_calm_success _ _ t0); [calm_tac | exact Ht | exact Hg]).
  cbv iota zeta.
  match goal with |- context [bind ?c _ ?w1] =>
    destruct (resolve_calm ticket w1) as (r & k & Hr); [calm_tac|] end.
  erewrite bind_ret by exact Hr. rewrite Hp.
  erewrite bind_ret by (apply verify_calm; calm_tac).
  erewrite bind_ret by reflexivity.
  world_simpl. fold (sentinel_args ticket r).
  exists r. eexists. split.
  - destruct (String.eqb (status (verifier w (sentinel_args ticket r))) "passed").
    + erewrite bind_ret by reflexivity. reflexivity.
    + erewrite bind_ret by reflexivity. reflexivity.
  - world_simpl. repeat split. calm_tac.
Qed.

(** A verdict other than 'passed' never merges: the verifier is called
    once, for the sentinel phase only and with attempt 1, no merge
    command is launched, and the ticket is failed with the serialized
    verdict as the reason. *)
Theorem rejected_review_never_merges ticket w t0 c u :
  calm (faults w) ->
  tickets w !! id ticket = Some t0 ->
  claim_guard t0 = true ->
  pr_url ticket = Some (String c u) ->
  (forall args, ticketId args = id ticket -> status (verifier w args) <> "passed") ->
  exists r w',
    executeSentinelReview ticket w = (Ret tt, w')
    /\ verify_calls w'
       = verify_calls w
         ++ [mkVerifyArgs (id ticket) (branch_name ticket) r 1
               (acceptance_criteria ticket) ["sentinel"]]
    /\ shell_calls w' = shell_calls w
    /\ tickets w' !! id ticket
       = Some (sentinel_failed_row (now w) (claimed_row (now w) t0))
    /\ events w'
       = events w
         ++ [mkEvent (id ticket) "sentinel_started" "in_review" "reviewing" NoPayload;
             mkEvent (id ticket) "sentinel_failed" "reviewing" "sentinel_failed"
               (Reason (Some (serialized (verifier w (sentinel_args ticket r)))))].
Proof.
  intros Hc Ht Hg Hp Hv.
  destruct (review_reaches_verdict ticket w t0 c u Hc Ht Hg Hp)
    as (r & w1 & Hrun & Hc1 & Htk & Hev & Hvc & Hsc & Hnow).
  exists r. rewrite Hrun. cbv zeta.
  destruct (String.eqb_spec (status (verifier w (sentinel_args ticket r))) "passed")
    as [E|_]; [now apply Hv in E|].
  rewrite setSentinelFailed_calm by calm_tac.
  eexists. split; [reflexivity|]. world_simpl.
  rewrite Htk, Hev, Hvc, Hsc, Hnow, lookup_alter_eq, lookup_insert_eq, <- List.app_assoc.
  repeat split.
Qed.

(** An approved review with a PR URL of github.com merges: one merge
    command for the owner, repository and number of the URL, with
    squash and branch deletion, and the ticket ends in 'merged' with a
    'sentinel_started' and a 'merged' event in that order. *)
Theorem approved_review_merges ticket w t0 c u owner repo number :
  calm (faults w) ->
  tickets w !! id ticket = Some t0 ->
  claim_guard t0 = true ->
  pr_url ticket = Some (String c u) ->
  pr_url_match (String c u) = Some (owner, repo, number) ->
  (forall args, ticketId args = id ticket -> status (verifier w args) = "passed") ->
  exists w',
    executeSentinelReview ticket w = (Ret tt, w')
    /\ shell_calls w'
       = shell_calls w
         ++ ["gh pr merge " +:+ number +:+ " --repo " +:+ (owner +:+ "/" +:+ repo)
             +:+ " --squash --delete-branch"]
    /\ tickets w' !! id ticket = Some (merged_row (now w) (claimed_row (now w) t0))
    /\ events w'
       = events w
         ++ [mkEvent (id ticket) "sentinel_started" "in_review" "reviewing" NoPayload;
             mkEvent (id ticket) "merged" "reviewing" "merged" (PrUrl (String c u))].
Proof.
  intros Hc Ht Hg Hp Hm Hv.
  destruct (review_reaches_verdict ticket w t0 c u Hc Ht Hg Hp)
    as (r & w1 & Hrun & Hc1 & Htk & Hev & Hvc & Hsc & Hnow).
  rewrite Hrun. cbv zeta. rewrite (Hv (sentinel_args ticket r) eq_refl).
  change (String.eqb "passed" "passed") with true. cbv iota.
  unfold merge_or_fail, try_catch.
  rewrite (mergePR_calm _ _ _ _ owner repo number Hm) by calm_tac.
  eexists. split; [reflexivity|]. world_simpl.
  rewrite Htk, Hev, Hsc, Hnow, lookup_alter_eq, lookup_insert_eq, <- List.app_assoc.
  repeat split.
Qed.

(** An approved review whose PR URL is not one of github.com launches
    no command and fails the ticket with the reason 'Merge failed:
    Invalid PR URL: ' and the URL. *)
Theorem approved_review_with_foreign_url_fails ticket w t0 c u :
  calm (faults w) ->
  tickets w !! id ticket = Some t0 ->
  claim_guard t0 = true ->
  pr_url ticket = Some (String c u) ->
  pr_url_match (String c u) = None ->
  (forall args, ticketId args = id ticket -> status (verifier w args) = "passed") ->
  exists w',
    executeSentinelReview ticket w = (Ret tt, w')
    /\ shell_calls w' = shell_calls w
    /\ tickets w' !! id ticket
       = Some (sentinel_failed_row (now w) (claimed_row (now w) t0))
    /\ last (events w')
       = Some (mkEvent (id ticket) "sentinel_failed" "reviewing" "sentinel_failed"
                 (Reason (Some ("Merge failed: Invalid PR URL: " +:+ String c u)))).
Proof.
  intros Hc Ht Hg Hp Hm Hv.
  destruct (review_reaches_verdict ticket w t0 c u Hc Ht Hg Hp)
    as (r & w1 & Hrun & Hc1 & Htk & Hev & Hvc & Hsc & Hnow).
  rewrite Hrun. cbv zeta. rewrite (Hv (sentinel_args ticket r) eq_refl).
  change (String.eqb "passed" "passed") with true. cbv iota.
  unfold merge_or_fail, try_catch, mergePR. rewrite Hm. unfold throw.
  erewrite bind_ret by reflexivity.
  rewrite setSentinelFailed_calm by calm_tac.
  eexists. split; [reflexivity|]. world_simpl.
  rewrite Htk, Hsc, Hnow, lookup_alter_eq, lookup_insert_eq, last_snoc.
  repeat split.
Qed.

End ReviewPaths.

(** ** What a review never does, whatever fails *)

Section ReviewInvariants.
Import Engine Dispatch.

Ltac world_simpl :=
  cbn [tickets projects hitl_sessions events notifications logs verify_calls
       shell_calls verifier now faults set_tickets add_event add_notification
       add_log add_verify_call add_shell_call set_now set_faults review_start].

Variable I : World -> Prop.
Variable tid : string.
Hypothesis I_external : forall fs w, I w -> I (set_faults fs w).
Hypothesis I_log : forall l w, I w -> I (add_log l w).
Hypothesis I_notification : forall n w, I w -> I (add_notification n w).
Hypothesis I_event : forall e w, ev_ticket e = tid -> I w -> I (add_event e w).
Hypothesis I_verify_call : forall a w, I w -> I (add_verify_call a w).
Hypothesis I_shell_call : forall c w, I w -> I (add_shell_call c w).
Hypothesis I_update : forall set t w,
  row_update set -> tickets w !! tid = Some t ->
  I w -> I (set_tickets (insert tid (set (now w) t)) w).

Lemma external_keeps : preserves I external.
Proof. intros w H. unfold external. cbn [snd]. now apply I_external. Qed.

Lemma log_keeps lvl line : preserves I (log lvl line).
Proof. apply preserves_modify. intros. now apply I_log. Qed.

Lemma notify_keeps st p : preserves I (notifyTicketStateChange tid st p).
Proof.
  apply preserves_bind; [apply external_keeps|intros _].
  apply preserves_modify. intros. now apply I_notification.
Qed.

Lemma emitEvent_keeps type from to p : preserves I (emitEvent tid type from to p).
Proof.
  apply preserves_bind; [apply external_keeps|intros _].
  apply preserves_modify. intros. now apply I_event.
Qed.

Lemma update_ticket_keeps guard set :
  row_update set -> preserves I (update_ticket tid guard set).
Proof.
  intros Hs. apply preserves_bind; [apply external_keeps|intros _].
  intros w H. destruct (tickets w !! tid) as [t|] eqn:E; [|exact H].
  destruct (guard t); [|exact H]. cbn [snd].
  now apply I_update.
Qed.

Lemma claim_keeps : preserves I (atomicClaimReviewTicket tid).
Proof.
  apply preserves_bind; [apply update_ticket_keeps; now left|intros rows].
  apply preserves_bind; [|intros; apply preserves_ret].
  destruct (head rows); [|apply preserves_ret].
  apply preserves_bind; [apply notify_keeps|intros _; apply emitEvent_keeps].
Qed.

Lemma setMerged_keeps prUrl : preserves I (setMerged tid prUrl).
Proof.
  apply preserves_bind; [apply update_ticket_keeps; right; now left|intros _].
  apply preserves_bind; [apply notify_keeps|intros _].
  apply preserves_bind; [apply emitEvent_keeps|intros _; apply log_keeps].
Qed.

Lemma setSentinelFailed_keeps reason : preserves I (setSentinelFailed tid reason).
Proof.
  apply preserves_bind; [apply update_ticket_keeps; right; now right|intros _].
  apply preserves_bind; [apply notify_keeps|intros _].
  apply preserves_bind; [apply emitEvent_keeps|intros _; apply log_keeps].
Qed.

Lemma repo_url_lookup_keeps ticket : preserves I (_getRepoUrlForTicket ticket).
Proof.
  unfold _getRepoUrlForTicket, getProject, select_session_repo_url.
  destruct (JS.truthy (repo_url ticket)); [apply preserves_ret|].
  apply preserves_bind.
  - destruct (JS.truthy (project_id ticket)); [|apply preserves_ret].
    apply preserves_bind; [|intros; apply preserves_ret].
    apply preserves_bind; [apply external_keeps|intros; apply preserves_gets].
  - intros [r|]; [apply preserves_ret|].
    apply preserves_bind; [|intros [r|]; apply preserves_ret].
    destruct (JS.truthy (design_session ticket)); [|apply preserves_ret].
    apply preserves_bind; [|intros; apply preserves_ret].
    apply preserves_bind; [apply external_keeps|intros; apply preserves_gets].
Qed.

Lemma mergePR_keeps prUrl branchName : preserves I (mergePR tid prUrl branchName).
Proof.
  unfold mergePR. destruct (pr_url_match prUrl) as [[[owner repo] number]|];
    [|apply preserves_throw].
  apply preserves_bind; [apply log_keeps|intros _]. cbv zeta.
  apply preserves_try_catch.
  - apply preserves_bind; [|intros _; apply setMerged_keeps].
    apply preserves_bind; [|intros _; apply external_keeps].
    apply preserves_modify. intros. now apply I_shell_call.
  - intros err. destruct (_ || _); [|apply preserves_throw].
    apply preserves_bind; [apply log_keeps|intros _; apply setMerged_keeps].
Qed.

(** An invariant of the primitive steps on the ticket [tid] is an
    invariant of the whole review of that ticket. *)
Lemma review_keeps ticket :
  id ticket = tid -> preserves I (executeSentinelReview ticket).
Proof.
  intros Hid. unfold executeSentinelReview. rewrite Hid.
  apply preserves_bind; [apply log_keeps|intros _].
  apply preserves_try_catch.
  - unfold review_body.
    apply preserves_bind; [apply claim_keeps|intros [claimed|]]; [|apply log_keeps].
    cbv zeta. apply preserves_bind.
    + destruct (JS.truthy (repo_url ticket));
        [apply preserves_ret|apply repo_url_lookup_keeps].
    + intros repoUrl.
      assert (Hno : preserves I
                (run log "ERROR" ("[SENTINEL] No PR URL for ticket " +:+ tid) ;;
                 setSentinelFailed tid (Some "No PR URL found"))).
      { apply preserves_bind; [apply log_keeps|intros _; apply setSentinelFailed_keeps]. }
      destruct (pr_url ticket) as [[|c u]|]; try exact Hno.
      apply preserves_bind.
      * unfold verify. apply preserves_bind.
        { apply preserves_modify. intros. now apply I_verify_call. }
        intros _. apply preserves_bind; [apply external_keeps|intros; apply preserves_gets].
      * intros verdict. apply preserves_bind; [apply log_keeps|intros _].
        destruct (String.eqb (status verdict) "passed").
        { apply preserves_bind; [apply log_keeps|intros _].
          unfold merge_or_fail. apply preserves_try_catch; [apply mergePR_keeps|].
          intros mergeErr.
          apply preserves_bind; [apply log_keeps|intros _; apply setSentinelFailed_keeps]. }
        { apply preserves_bind; [apply log_keeps|intros _; apply setSentinelFailed_keeps]. }
  - intros err.
    apply preserves_bind; [apply log_keeps|intros _; apply setSentinelFailed_keeps].
Qed.

End ReviewInvariants.

Section ReviewNeverDoes.
Import Engine Dispatch.

Ltac world_simpl :=
  cbn [tickets projects hitl_sessions events notifications logs verify_calls
       shell_calls verifier now faults set_tickets add_event add_notification
       add_log add_verify_call add_shell_call set_now set_faults review_start].

(** A review touches no row but its own: however it ends and whichever
    external calls fail, every other row of the table is as before. *)
Theorem review_leaves_other_tickets_alone ticket w k :
  k <> id ticket ->
  tickets (snd (executeSentinelReview ticket w)) !! k = tickets w !! k.
Proof.
  intros Hk.
  apply (review_keeps (fun w' => tickets w' !! k = tickets w !! k) (id ticket));
    try reflexivity; try (intros; assumption).
  intros set t w0 _ _ H. world_simpl. now rewrite lookup_insert_ne by congruence.
Qed.

(** The event log only grows, and a review appends events of its own
    ticket only, whatever fails. *)
Theorem review_only_appends_own_events ticket w :
  exists l,
    events (snd (executeSentinelReview ticket w)) = events w ++ l
    /\ Forall (fun e => ev_ticket e = id ticket) l.
Proof.
  apply (review_keeps
           (fun w' => exists l, events w' = events w ++ l
                                /\ Forall (fun e => ev_ticket e = id ticket) l)
           (id ticket)); try reflexivity; try (intros; assumption).
  - intros e w0 He (l & Hl & Hf). exists (l ++ [e]). world_simpl.
    rewrite Hl, List.app_assoc. split; [reflexivity|].
    apply Forall_app. split; [exact Hf|]. now repeat constructor.
  - exists []. now rewrite app_nil_r.
Qed.

Lemma row_update_keeps_fixed_fields set nw t :
  row_update set -> fixed_fields (set nw t) = fixed_fields t.
Proof. intros [->|[->| ->]]; reflexivity. Qed.

(** A review inserts no row, deletes none, and never writes the id, the
    assignee, the PR URL, the branch, the repository, the project, the
    design session or the acceptance criteria of any row, whatever
    fails. *)
Theorem review_keeps_rows_and_fixed_fields ticket w k :
  fixed_fields <$> tickets (snd (executeSentinelReview ticket w)) !! k
  = fixed_fields <$> tickets w !! k.
Proof.
  apply (review_keeps
           (fun w' => fixed_fields <$> tickets w' !! k = fixed_fields <$> tickets w !! k)
           (id ticket)); try reflexivity; try (intros; assumption).
  intros set t w0 Hs Ht H. world_simpl.
  destruct (decide (id ticket = k)) as [<-|Hne].
  - rewrite lookup_insert_eq. rewrite Ht in H. rewrite <- H.
    cbn [fmap option_fmap option_map]. f_equal.
    now apply row_update_keeps_fixed_fields.
  - now rewrite lookup_insert_ne by exact Hne.
Qed.

End ReviewNeverDoes.

(** ** Merging: what happens around the command *)

Section MergeMore.
Import Engine Dispatch.

Ltac world_simpl :=
  cbn [tickets projects hitl_sessions events notifications logs verify_calls
       shell_calls verifier now faults set_tickets add_event add_notification
       add_log add_verify_call add_shell_call set_now set_faults review_start].

Ltac calm_tac :=
  world_simpl; repeat apply calm_drop; assumption.

(** A failure of the merge command that does not say 'already been
    merged', in its message or on its error stream, is thrown on to the
    caller as it is: one command was launched, and the table, the event
    log and the notifications are untouched. *)
Theorem other_merge_failures_propagate w tid prUrl branchName owner repo number e fs :
  pr_url_match prUrl = Some (owner, repo, number) ->
  faults w = Some e :: fs ->
  text_includes (message e) "already been merged" = false ->
  text_includes (stderr e) "already been merged" = false ->
  exists w',
    mergePR tid prUrl branchName w = (Throw e, w')
    /\ shell_calls w'
       = shell_calls w
         ++ ["gh pr merge " +:+ number +:+ " --repo " +:+ (owner +:+ "/" +:+ repo)
             +:+ " --squash --delete-branch"]
    /\ tickets w' = tickets w
    /\ events w' = events w
    /\ notifications w' = notifications w.
Proof.
  intros Hm Hf He1 He2. unfold mergePR. rewrite Hm.
  destruct w as [tk pj hs ev nt lg vc sc vf nw fs0]. cbn [faults] in Hf. subst fs0.
  unfold try_catch, execSync, log, modify, bind, external.
  world_simpl. cbn [head tail]. cbv beta iota zeta.
  rewrite He1, He2. cbn [orb].
  eexists. split; [reflexivity|]. repeat split.
Qed.

(** The merge can succeed on the host and still be recorded as a
    failure: when the command and the UPDATE to 'merged' go through but
    the notification that follows fails, the error reaches the inner
    handler of the review, which records 'sentinel_failed'.  The command
    was launched, and the row ends in 'sentinel_failed' with [merged_at]
    set. *)
Theorem merged_on_host_recorded_as_failed w tid t prUrl branchName owner repo number e fs :
  pr_url_match prUrl = Some (owner, repo, number) ->
  tickets w !! tid = Some t ->
  faults w = None :: None :: Some e :: fs ->
  calm fs ->
  text_includes (message e) "already been merged" = false ->
  text_includes (stderr e) "already been merged" = false ->
  exists w',
    merge_or_fail tid prUrl branchName w = (Ret tt, w')
    /\ shell_calls w'
       = shell_calls w
         ++ ["gh pr merge " +:+ number +:+ " --repo " +:+ (owner +:+ "/" +:+ repo)
             +:+ " --squash --delete-branch"]
    /\ tickets w' !! tid = Some (sentinel_failed_row (now w) (merged_row (now w) t))
    /\ state (sentinel_failed_row (now w) (merged_row (now w) t)) = "sentinel_failed"
    /\ merged_at (sentinel_failed_row (now w) (merged_row (now w) t)) = Some (now w)
    /\ events w'
       = events w
         ++ [mkEvent tid "sentinel_failed" "reviewing" "sentinel_failed"
               (Reason (Some ("Merge failed: " +:+ JS.interpolate (message e))))].
Proof.
  intros Hm Ht Hf Hc He1 He2.
  assert (Hmerge : exists lg,
    mergePR tid prUrl branchName w
    = (Throw e,
       mkWorld (<[tid := merged_row (now w) t]> (tickets w)) (projects w) (hitl_sessions w)
         (events w) (notifications w) lg (verify_calls w)
         (shell_calls w
          ++ ["gh pr merge " +:+ number +:+ " --repo " +:+ (owner +:+ "/" +:+ repo)
              +:+ " --squash --delete-branch"])
         (verifier w) (now w) fs)).
  { unfold mergePR. rewrite Hm.
    destruct w as [tk pj hs ev nt lg vc sc vf nw fs0].
    cbn [faults] in Hf. cbn [tickets] in Ht. subst fs0.
    unfold try_catch, execSync, setMerged, update_ticket, notifyTicketStateChange,
      log, modify, bind, external.
    world_simpl. cbn [head tail]. cbv beta iota zeta. world_simpl. rewrite Ht.
    cbv beta iota zeta. world_simpl. cbn [head tail]. rewrite He1, He2. cbn [orb].
    eexists. reflexivity. }
  destruct Hmerge as [lg Hmerge].
  unfold merge_or_fail, try_catch. rewrite Hmerge.
  erewrite bind_ret by reflexivity.
  rewrite setSentinelFailed_calm by calm_tac.
  eexists. split; [reflexivity|]. world_simpl.
  rewrite lookup_alter_eq, lookup_insert_eq. repeat split.
Qed.

(** A transition on an id that is not in the table changes no row, yet
    still notifies the observers and appends the event of a transition
    from 'reviewing'. *)
Theorem transition_on_unknown_id_still_emits w tid prUrl reason :
  calm (faults w) ->
  tickets w !! tid = None ->
  (exists w',
      setMerged tid prUrl w = (Ret tt, w')
      /\ tickets w' = tickets w
      /\ events w' = events w ++ [mkEvent tid "merged" "reviewing" "merged" (PrUrl prUrl)]
      /\ notifications w'
         = notifications w ++ [mkNotification tid "merged" (PrUrl prUrl)])
  /\ (exists w',
      setSentinelFailed tid reason w = (Ret tt, w')
      /\ tickets w' = tickets w
      /\ events w'
         = events w ++ [mkEvent tid "sentinel_failed" "reviewing" "sentinel_failed"
                          (Reason reason)]
      /\ notifications w'
         = notifications w ++ [mkNotification tid "sentinel_failed" (Reason reason)]).
Proof.
  intros Hc Ht. split.
  - rewrite setMerged_calm by exact Hc. eexists. split; [reflexivity|].
    world_simpl. rewrite <- (alter_absent _ _ _ Ht). repeat split.
  - rewrite setSentinelFailed_calm by exact Hc. eexists. split; [reflexivity|].
    world_simpl. rewrite <- (alter_absent _ _ _ Ht). repeat split.
Qed.

(** ** The PR URL expression *)

Lemma span_app p a : forall b,
  all_chars p a = true ->
  (b = EmptyString \/ exists c b', b = String c b' /\ p c = false) ->
  span p (a +:+ b) = (a, b).
Proof.
  induction a as [|x a IH]; intros b Ha Hb.
  - rewrite string_nil_app. destruct Hb as [->|(c & b' & -> & Hc)]; [reflexivity|].
    cbn [span]. now rewrite Hc.
  - cbn [all_chars] in Ha. apply andb_true_iff in Ha as [Hx Ha].
    rewrite string_cons_app. cbn [span]. rewrite Hx, (IH b Ha Hb). reflexivity.
Qed.

Lemma pr_url_match_first s m : pr_url_match_here s = Some m -> pr_url_match s = Some m.
Proof. intros H. destruct s; cbn [pr_url_match]; now rewrite H. Qed.

(** Parsing gives back what the URL was built from: an https URL of
    github.com with a slash-free owner and repository and a decimal
    number, followed by nothing or by a character that is no digit,
    yields exactly that owner, repository and number. *)
Theorem pr_url_round_trip owner repo number rest :
  owner <> EmptyString -> all_chars not_slash owner = true ->
  repo <> EmptyString -> all_chars not_slash repo = true ->
  number <> EmptyString -> all_chars is_digit number = true ->
  (rest = EmptyString \/ exists c r, rest = String c r /\ is_digit c = false) ->
  pr_url_match ("https://github.com/" +:+ owner +:+ "/" +:+ repo +:+ "/pull/"
                +:+ number +:+ rest)
  = Some (owner, repo, number).
Proof.
  intros Ho1 Ho2 Hr1 Hr2 Hn1 Hn2 Hrest.
  change (pr_url_match ("https://github.com/" +:+ owner +:+ "/" +:+ repo +:+ "/pull/"
                        +:+ number +:+ rest))
    with (pr_url_match ("github.com/" +:+ owner +:+ "/" +:+ repo +:+ "/pull/"
                        +:+ number +:+ rest)).
  apply pr_url_match_first. unfold pr_url_match_here.
  rewrite strip_prefix_app.
  rewrite (span_app not_slash owner) by (assumption || (right; eauto)).
  destruct owner as [|oc owner]; [contradiction|].
  rewrite (strip_prefix_app "/").
  rewrite (span_app not_slash repo) by (assumption || (right; eauto)).
  destruct repo as [|rc repo]; [contradiction|].
  rewrite (strip_prefix_app "/pull/").
  rewrite (span_app is_digit number) by assumption.
  destruct number as [|nc number]; [contradiction|]. reflexivity.
Qed.

End MergeMore.

(** ** The further properties run on the sample worlds *)


Lemma repo_url_precedence_witness :
  Engine._getRepoUrlForTicket Sample.ticket_in_project (Sample.world_with_project [])
  = (Ret (Some "https://github.com/acme/project"),
     Engine.set_faults (drop 1 []) (Sample.world_with_project [])).
Proof.
  destruct (repo_url_precedence Sample.ticket_in_project (Sample.world_with_project []))
    as (_ & Hproject & _).
  - constructor.
  - apply (Hproject "P1"); (reflexivity || discriminate).
Defined.

Lemma lost_race_witness :
  exists w',
    Engine.executeSentinelReview Sample.ticket3 (Sample.world3 []) = (Ret tt, w')
    /\ Dispatch.same_records (Sample.world3 []) w'.
Proof.
  apply (lost_race_is_a_no_op Sample.ticket3 (Sample.world3 [])).
  - constructor.
  - intros t H. vm_compute in H. inversion H. reflexivity.
Defined.

Lemma missing_pr_url_witness :
  exists w',
    Engine.executeSentinelReview Sample.ticket2 (Sample.world3 []) = (Ret tt, w')
    /\ Engine.state <$> Engine.tickets w' !! "T2" = Some "sentinel_failed"
    /\ Engine.verify_calls w' = [].
Proof.
  destruct (missing_pr_url_fails_the_ticket Sample.ticket2 (Sample.world3 [])
              Sample.ticket2) as (w' & Hrun & Htk & _ & Hv & _);
    try reflexivity.
  - constructor.
  - exists w'. split; [exact Hrun|]. split; [|exact Hv].
    change (Engine.id Sample.ticket2) with "T2" in Htk. rewrite Htk. reflexivity.
Defined.

Lemma rejected_review_witness :
  exists r w',
    Engine.executeSentinelReview Sample.ticket1
      (Sample.world Sample.ticket1 Sample.rejected []) = (Ret tt, w')
    /\ Engine.verify_calls w' = [Dispatch.sentinel_args Sample.ticket1 r]
    /\ Engine.shell_calls w' = [].
Proof.
  destruct (rejected_review_never_merges Sample.ticket1
              (Sample.world Sample.ticket1 Sample.rejected []) Sample.ticket1
              "h" "ttps://github.com/acme/widgets/pull/42")
    as (r & w' & Hrun & Hv & Hs & _); try reflexivity.
  - constructor.
  - intros args _. discriminate.
  - exists r, w'. split; [exact Hrun|]. split; [exact Hv|exact Hs].
Defined.

Lemma approved_review_witness :
  exists w',
    Engine.executeSentinelReview Sample.ticket1
      (Sample.world Sample.ticket1 Sample.passed []) = (Ret tt, w')
    /\ Engine.shell_calls w'
       = ["gh pr merge 42 --repo acme/widgets --squash --delete-branch"]
    /\ Engine.state <$> Engine.tickets w' !! "T1" = Some "merged".
Proof.
  destruct (approved_review_merges Sample.ticket1
              (Sample.world Sample.ticket1 Sample.passed []) Sample.ticket1
              "h" "ttps://github.com/acme/widgets/pull/42" "acme" "widgets" "42")
    as (w' & Hrun & Hs & Htk & _); try reflexivity.
  - constructor.
  - exists w'. split; [exact Hrun|]. split; [exact Hs|].
    change (Engine.id Sample.ticket1) with "T1" in Htk. rewrite Htk. reflexivity.
Defined.

Lemma approved_foreign_url_witness :
  exists w',
    Engine.executeSentinelReview Sample.ticket_foreign
      (Sample.world Sample.ticket_foreign Sample.passed []) = (Ret tt, w')
    /\ Engine.shell_calls w' = []
    /\ Engine.state <$> Engine.tickets w' !! "T4" = Some "sentinel_failed".
Proof.
  destruct (approved_review_with_foreign_url_fails Sample.ticket_foreign
              (Sample.world Sample.ticket_foreign Sample.passed []) Sample.ticket_foreign
              "h" "ttps://gitlab.com/acme/widgets/pull/42")
    as (w' & Hrun & Hs & Htk & _); try reflexivity.
  - constructor.
  - exists w'. split; [exact Hrun|]. split; [exact Hs|].
    change (Engine.id Sample.ticket_foreign) with "T4" in Htk. rewrite Htk. reflexivity.
Defined.

Lemma review_leaves_other_tickets_alone_witness :
  Engine.tickets (snd (Engine.executeSentinelReview Sample.ticket1
                         (Sample.world3 [None; Some Sample.database_down]))) !! "T2"
  = Engine.tickets (Sample.world3 [None; Some Sample.database_down]) !! "T2".
Proof.
  apply (review_leaves_other_tickets_alone Sample.ticket1
           (Sample.world3 [None; Some Sample.database_down]) "T2").
  discriminate.
Defined.

Lemma other_merge_failures_witness :
  exists w',
    Engine.mergePR "T1" "https://github.com/acme/widgets/pull/42" None
      (Sample.world Sample.ticket1 Sample.passed [Some Sample.database_down])
    = (Throw Sample.database_down, w')
    /\ Engine.tickets w'
       = Engine.tickets (Sample.world Sample.ticket1 Sample.passed
                           [Some Sample.database_down]).
Proof.
  destruct (other_merge_failures_propagate
              (Sample.world Sample.ticket1 Sample.passed [Some Sample.database_down])
              "T1" "https://github.com/acme/widgets/pull/42" None
              "acme" "widgets" "42" Sample.database_down [])
    as (w' & Hrun & _ & Htk & _); try reflexivity.
  exists w'. split; assumption.
Defined.

Lemma merged_on_host_witness :
  exists w',
    Engine.merge_or_fail "T1" "https://github.com/acme/widgets/pull/42" None
      (Sample.world Sample.ticket1 Sample.passed [None; None; Some Sample.database_down])
    = (Ret tt, w')
    /\ Engine.shell_calls w'
       = ["gh pr merge 42 --repo acme/widgets --squash --delete-branch"]
    /\ Engine.state <$> Engine.tickets w' !! "T1" = Some "sentinel_failed"
    /\ Engine.merged_at <$> Engine.tickets w' !! "T1" = Some (Some 1000%Z).
Proof.
  destruct (merged_on_host_recorded_as_failed
              (Sample.world Sample.ticket1 Sample.passed
                 [None; None; Some Sample.database_down])
              "T1" Sample.ticket1 "https://github.com/acme/widgets/pull/42" None
              "acme" "widgets" "42" Sample.database_down [])
    as (w' & Hrun & Hs & Htk & _); try reflexivity.
  - constructor.
  - exists w'. split; [exact Hrun|]. split; [exact Hs|]. rewrite Htk.
    split; reflexivity.
Defined.

Lemma transition_on_unknown_id_witness :
  exists w',
    Engine.setMerged "T9" "https://github.com/acme/widgets/pull/42"
      (Sample.world Sample.ticket1 Sample.passed []) = (Ret tt, w')
    /\ Engine.tickets w' = Engine.tickets (Sample.world Sample.ticket1 Sample.passed [])
    /\ Engine.ev_ticket <$> Engine.events w' = ["T9"].
Proof.
  destruct (transition_on_unknown_id_still_emits
              (Sample.world Sample.ticket1 Sample.passed [])
              "T9" "https://github.com/acme/widgets/pull/42" None)
    as [(w' & Hrun & Htk & Hev & _) _].
  - constructor.
  - reflexivity.
  - exists w'. split; [exact Hrun|]. split; [exact Htk|]. rewrite Hev. reflexivity.
Defined.

Lemma pr_url_round_trip_witness :
  Engine.pr_url_match "https://github.com/acme/widgets/pull/42/files"
  = Some ("acme", "widgets", "42").
Proof.
  apply (pr_url_round_trip "acme" "widgets" "42" "/files");
    try reflexivity; try discriminate.
  right. exists "/"%char, "files". split; reflexivity.
Defined.

(** * Further properties of the coder agent's patch engine *)

Section WriteFilesMore.
Import Coder.
Variable path_join : string -> string -> string.
Variable path_dirname : string -> string.

Abbreviation write_one := (write_one path_join path_dirname).
Abbreviation writeFiles_loop := (writeFiles_loop path_join path_dirname).
Abbreviation writeFiles := (writeFiles path_join path_dirname).

Lemma create_branch_cases full file written d1 :
  exists lg,
    (exists c,
        (run writeFileSync full (content file) ;;
         run log "info" "Wrote file"
               [("path", LStr (path file));
                ("bytes", LNum (Z.of_nat (String.length
                                            (default EmptyString (content file)))))] ;;
         ret (written ++ [path file])) d1
        = (Ret (written ++ [path file]),
           mkDisk (<[full := c]> (contents d1)) (dirs d1) lg))
    \/ (exists e,
        (run writeFileSync full (content file) ;;
         run log "info" "Wrote file"
               [("path", LStr (path file));
                ("bytes", LNum (Z.of_nat (String.length
                                            (default EmptyString (content file)))))] ;;
         ret (written ++ [path file])) d1
        = (Throw e, mkDisk (contents d1) (dirs d1) lg)).
Proof.
  destruct (content file) as [c|].
  - eexists. left. exists c. reflexivity.
  - exists (logs d1). right. eexists. unfold bind, writeFileSync, throw.
    now rewrite disk_eta.
Qed.

(** The three ways one edit can end: nothing written, the file written
    and its path reported, or an exception with nothing written.  File
    contents change at the edit's own path only. *)
Lemma write_one_cases repoDir written file d :
  exists ds lg,
    write_one repoDir written file d = (Ret written, mkDisk (contents d) ds lg)
    \/ (exists c,
         write_one repoDir written file d
         = (Ret (written ++ [path file]),
            mkDisk (<[path_join repoDir (path file) := c]> (contents d)) ds lg))
    \/ (exists e,
         write_one repoDir written file d = (Throw e, mkDisk (contents d) ds lg)).
Proof.
  destruct (ensure_dir_spec path_dirname (path_dirname (path_join repoDir (path file))) d)
    as [ds Hd].
  exists ds.
  destruct (write_one repoDir written file d) as [o d'] eqn:H.
  unfold Coder.write_one in H. erewrite bind_ret in H by exact Hd.
  assert (Hcreate :
    (run writeFileSync (path_join repoDir (path file)) (content file) ;;
     run log "info" "Wrote file"
           [("path", LStr (path file));
            ("bytes", LNum (Z.of_nat (String.length
                                        (default EmptyString (content file)))))] ;;
     ret (written ++ [path file])) (mkDisk (contents d) ds (logs d)) = (o, d') ->
    exists lg,
      (o, d') = (Ret written, mkDisk (contents d) ds lg)
      \/ (exists c,
           (o, d')
           = (Ret (written ++ [path file]),
              mkDisk (<[path_join repoDir (path file) := c]> (contents d)) ds lg))
      \/ (exists e, (o, d') = (Throw e, mkDisk (contents d) ds lg))).
  { intros Hk.
    destruct (create_branch_cases (path_join repoDir (path file)) file written
                (mkDisk (contents d) ds (logs d))) as [lg [[c Hc]|[e He]]];
      exists lg; [right; left; exists c; now rewrite <- Hk, Hc
                 |right; right; exists e; now rewrite <- Hk, He]. }
  destruct (String.eqb (action file) "modify"); [|now apply Hcreate].
  destruct (patches file) as [| |ps]; try (now apply Hcreate).
  clear Hcreate.
  unfold bind, existsSync, gets in H. cbn [contents dirs] in H.
  destruct (bool_decide _ || bool_decide _); cbn [negb] in H; cbv beta iota in H.
  - unfold readFileSync in H. cbn [contents] in H.
    destruct (contents d !! path_join repoDir (path file)) as [c|] eqn:Ec.
    + destruct (apply_patches_value file ps (c, 0%Z) (mkDisk (contents d) ds (logs d)))
        as [lg Hlg].
      rewrite Hlg in H. cbn [contents dirs logs] in H. cbv beta iota in H.
      destruct (patched ps (c, 0%Z)) as [c' n].
      destruct (0 <? n)%Z; inversion H; subst.
      * eexists. right. left. exists c'. reflexivity.
      * eexists. left. reflexivity.
    + inversion H; subst. eexists. right. right. eexists. reflexivity.
  - inversion H; subst. eexists. left. reflexivity.
Qed.

Lemma writeFiles_loop_app repoDir files1 : forall files2 written d,
  writeFiles_loop repoDir (files1 ++ files2) written d
  = (do w <- writeFiles_loop repoDir files1 written ;;
     writeFiles_loop repoDir files2 w) d.
Proof.
  induction files1 as [|f files1 IH]; intros files2 written d; [reflexivity|].
  cbn [Coder.writeFiles_loop app]. unfold bind.
  destruct (write_one repoDir written f d) as [[w|e] d1]; [|reflexivity].
  rewrite IH. reflexivity.
Qed.

(** Files that no edit of the list addresses keep their content (or
    their absence), also when the call ends in an exception. *)
Theorem untargeted_files_are_untouched repoDir files : forall d q,
  (forall f, f ∈ files -> path_join repoDir (path f) <> q) ->
  contents (snd (writeFiles repoDir files d)) !! q = contents d !! q.
Proof.
  unfold Coder.writeFiles. generalize (@nil string).
  induction files as [|f files IH]; intros written d q Hq; [reflexivity|].
  cbn [Coder.writeFiles_loop]. unfold bind.
  assert (Hf : path_join repoDir (path f) <> q) by (apply Hq; apply list_elem_of_here).
  assert (Hrest : forall g, g ∈ files -> path_join repoDir (path g) <> q)
    by (intros g Hg; apply Hq; now apply list_elem_of_further).
  destruct (write_one_cases repoDir written f d) as (ds & lg & [H|[[c H]|[e H]]]);
    rewrite H.
  - rewrite IH by exact Hrest. reflexivity.
  - rewrite IH by exact Hrest. cbn [contents]. now rewrite lookup_insert_ne.
  - reflexivity.
Qed.

(** [writeFiles] deletes nothing: a file that exists before the call
    exists after it, however the call ends. *)
Theorem writeFiles_never_deletes repoDir files : forall d q,
  is_Some (contents d !! q) ->
  is_Some (contents (snd (writeFiles repoDir files d)) !! q).
Proof.
  unfold Coder.writeFiles. generalize (@nil string).
  induction files as [|f files IH]; intros written d q Hq; [exact Hq|].
  cbn [Coder.writeFiles_loop]. unfold bind.
  destruct (write_one_cases repoDir written f d) as (ds & lg & [H|[[c H]|[e H]]]);
    rewrite H.
  - apply IH. exact Hq.
  - apply IH. cbn [contents]. rewrite lookup_insert.
    destruct (decide (path_join repoDir (path f) = q)); [eauto|exact Hq].
  - exact Hq.
Qed.

Lemma writeFiles_loop_written repoDir files : forall written d w d',
  writeFiles_loop repoDir files written d = (Ret w, d') ->
  exists l,
    w = written ++ l
    /\ sublist l (map path files)
    /\ (forall p, p ∈ l -> is_Some (contents d' !! path_join repoDir p))
    /\ (forall q, is_Some (contents d !! q) -> is_Some (contents d' !! q)).
Proof.
  induction files as [|f files IH]; intros written d w d' H.
  - inversion H; subst. exists []. rewrite app_nil_r.
    repeat split; [constructor | intros p Hp; inversion Hp | auto].
  - cbn [Coder.writeFiles_loop] in H. unfold bind in H.
    destruct (write_one_cases repoDir written f d) as (ds & lg & [Hw|[[c Hw]|[e Hw]]]);
      rewrite Hw in H; [| |discriminate].
    + destruct (IH _ _ _ _ H) as (l & -> & Hsub & Hex & Hkeep).
      exists l. repeat split; [now apply sublist_cons | exact Hex | exact Hkeep].
    + destruct (IH _ _ _ _ H) as (l & -> & Hsub & Hex & Hkeep).
      exists (path f :: l). rewrite <- List.app_assoc.
      repeat split; [now apply sublist_skip | | ].
      * intros p Hp. apply elem_of_cons in Hp as [->|Hp]; [|now apply Hex].
        apply Hkeep. cbn [contents]. rewrite lookup_insert_eq. eauto.
      * intros q Hq. apply Hkeep. cbn [contents]. rewrite lookup_insert.
        destruct (decide (path_join repoDir (path f) = q)); [eauto|exact Hq].
Qed.

(** The list that [writeFiles] returns names edits of the input, in the
    order of the input, and every path it names is a file on disk when
    the call returns. *)
Theorem written_paths_are_edits_on_disk repoDir files d w d' :
  writeFiles repoDir files d = (Ret w, d') ->
  sublist w (map path files)
  /\ (forall p, p ∈ w -> is_Some (contents d' !! path_join repoDir p)).
Proof.
  intros H. destruct (writeFiles_loop_written repoDir files [] d w d' H)
    as (l & -> & Hsub & Hex & _).
  split; assumption.
Qed.

(** An edit that takes the create branch without carrying content makes
    the whole call throw: the edits before it stay written on disk, the
    edits after it are not looked at, and the caller gets no list. *)
Theorem edit_without_content_aborts repoDir before bad after d w d1 :
  writeFiles repoDir before d = (Ret w, d1) ->
  takes_create_branch bad ->
  content bad = None ->
  exists e d2,
    writeFiles repoDir (before ++ bad :: after) d = (Throw e, d2)
    /\ contents d2 = contents d1.
Proof.
  intros Hb Hbranch Hc. unfold Coder.writeFiles in *.
  rewrite writeFiles_loop_app. erewrite bind_ret by exact Hb.
  cbn [Coder.writeFiles_loop].
  destruct (ensure_dir_spec path_dirname
              (path_dirname (path_join repoDir (path bad))) d1) as [ds Hd].
  assert (Hw : exists e,
    write_one repoDir w bad d1 = (Throw e, mkDisk (contents d1) ds (logs d1))).
  { unfold Coder.write_one. erewrite bind_ret by exact Hd. rewrite Hc.
    eexists.
    destruct (String.eqb_spec (action bad) "modify") as [Ha|Ha].
    - destruct Hbranch as [H|[->| ->]]; [contradiction| |]; reflexivity.
    - reflexivity. }
  destruct Hw as [e Hw]. exists e. eexists.
  erewrite bind_throw by exact Hw. split; reflexivity.
Qed.

(** A modify edit against a path where nothing exists is skipped, with
    no implicit create: the call goes on as if the edit were not in the
    list, on a disk with the same file contents. *)
Theorem modify_of_missing_file_is_skipped repoDir file ps rest d :
  action file = "modify" ->
  patches file = PatchesArray ps ->
  contents d !! path_join repoDir (path file) = None ->
  path_join repoDir (path file)
    ∉ dirs (snd (ensure_dir path_dirname (path_dirname (path_join repoDir (path file))) d)) ->
  exists d1,
    contents d1 = contents d
    /\ writeFiles repoDir (file :: rest) d = writeFiles repoDir rest d1.
Proof.
  intros Ha Hp Hc Hd.
  destruct (write_one_modify_missing path_join path_dirname repoDir [] file ps d
              Ha Hp Hc Hd) as [ds H].
  eexists. split; [|unfold Coder.writeFiles; cbn [Coder.writeFiles_loop];
                    erewrite bind_ret by exact H; reflexivity].
  reflexivity.
Qed.

End WriteFilesMore.

(** ** More on single patches *)

Section PatchesMore.
Import Coder.

Lemma get_substitution_plain matched before after repl :
  no_dollar repl = true -> JS.get_substitution matched before after repl = repl.
Proof.
  induction repl as [|c r IH]; intros H; [reflexivity|].
  cbn [no_dollar] in H. apply andb_true_iff in H as [Hc Hr].
  cbn [JS.get_substitution]. destruct (Ascii.eqb c "$"); [discriminate|].
  now rewrite IH.
Qed.

Lemma includes_finds s sub :
  JS.includes s sub = true -> exists before after, JS.find_first sub s = Some (before, after).
Proof.
  unfold JS.includes. destruct (JS.find_first sub s) as [[b a]|]; [eauto|discriminate].
Qed.

(** Replace-first with a plain replacement: when the search text occurs
    in the content and the replacement holds no dollar sign, the patch
    puts the replacement, as it is, in place of the first occurrence,
    leaves the rest of the content alone and counts as applied. *)
Theorem plain_patch_replaces_first_occurrence file c n srch repl d :
  srch <> EmptyString ->
  JS.includes c srch = true ->
  no_dollar repl = true ->
  exists before after d',
    c = before +:+ srch +:+ after
    /\ (forall k, (k < String.length before)%nat -> occurs_at srch c k = false)
    /\ apply_patch file (c, n) (mkPatch (Some srch) (Some repl)) d
       = (Ret (before +:+ repl +:+ after, (n + 1)%Z), d')
    /\ contents d' = contents d.
Proof.
  intros Hne Hin Hplain.
  destruct (includes_finds _ _ Hin) as (before & after & Hf).
  destruct (apply_patch_value file (c, n) (mkPatch (Some srch) (Some repl)) d)
    as [lg Hlg].
  exists before, after. eexists. split; [now apply find_first_sound|].
  split; [now apply (find_first_leftmost srch c before after)|].
  assert (Hv : patch_step (c, n) (mkPatch (Some srch) (Some repl))
               = (before +:+ repl +:+ after, (n + 1)%Z)).
  { unfold patch_step. cbn [search replace].
    destruct srch as [|a s]; [contradiction|].
    rewrite Hin. unfold JS.replace. rewrite Hf.
    now rewrite get_substitution_plain. }
  rewrite Hlg, Hv. split; reflexivity.
Qed.

(** The patch loop never throws and never touches a file; the counter
    it returns lies between 0 and the number of patches; and when it is
    0 the content is returned as it was given. *)
Theorem patch_loop_counts file ps c d :
  exists c' n d',
    apply_patches file ps (c, 0%Z) d = (Ret (c', n), d')
    /\ contents d' = contents d
    /\ (0 <= n <= Z.of_nat (length ps))%Z
    /\ (n = 0%Z -> c' = c).
Proof.
  destruct (apply_patches_value file ps (c, 0%Z) d) as [lg H].
  destruct (patched_count ps (c, 0%Z)) as [Hb He].
  destruct (patched ps (c, 0%Z)) as [c' n] eqn:E. cbn [fst snd] in *.
  exists c', n. eexists. split; [exact H|]. split; [reflexivity|].
  split; [lia|exact He].
Qed.

End PatchesMore.

(** ** The further properties run on a small checkout *)

Lemma untargeted_files_witness :
  let d := Sample.one_file "/repo/a.js" "hello" in
  let files := [Sample.modify_edit "b.js" [Sample.patch "x" "y"];
                Coder.mkEdit "c.js" "create" (Some "new") Coder.PatchesAbsent] in
  Coder.contents (snd (Coder.writeFiles Sample.join Sample.dirname "/repo" files d))
    !! "/repo/a.js"
  = Coder.contents d !! "/repo/a.js".
Proof.
  intros d files.
  apply (untargeted_files_are_untouched Sample.join Sample.dirname "/repo" files d
           "/repo/a.js").
  intros f Hf. unfold files in Hf.
  apply elem_of_cons in Hf as [->|Hf]; [discriminate|].
  apply list_elem_of_singleton in Hf as ->. discriminate.
Defined.

Lemma writeFiles_never_deletes_witness :
  let d := Sample.one_file "/repo/a.js" "hello" in
  let files := [Coder.mkEdit "a.js" "create" None Coder.PatchesAbsent] in
  is_Some (Coder.contents
             (snd (Coder.writeFiles Sample.join Sample.dirname "/repo" files d))
           !! "/repo/a.js").
Proof.
  intros d files.
  apply (writeFiles_never_deletes Sample.join Sample.dirname "/repo" files d "/repo/a.js").
  exists "hello". reflexivity.
Defined.

Lemma written_paths_witness :
  let d := Sample.one_file "/repo/a.js" "hello" in
  let files := [Sample.modify_edit "a.js" [Sample.patch "zzz" "y"];
                Coder.mkEdit "c.js" "create" (Some "new") Coder.PatchesAbsent] in
  sublist ["c.js"] (map Coder.path files)
  /\ (forall p, p ∈ ["c.js"] ->
        is_Some (Coder.contents
                   (snd (Coder.writeFiles Sample.join Sample.dirname "/repo" files d))
                 !! Sample.join "/repo" p)).
Proof.
  intros d files.
  apply (written_paths_are_edits_on_disk Sample.join Sample.dirname "/repo" files d
           ["c.js"] (snd (Coder.writeFiles Sample.join Sample.dirname "/repo" files d))).
  vm_compute. reflexivity.
Defined.

Lemma edit_without_content_witness :
  let d := Sample.one_file "/repo/a.js" "hello" in
  let first := Coder.mkEdit "c.js" "create" (Some "new") Coder.PatchesAbsent in
  let bad := Coder.mkEdit "d.js" "modify" None Coder.PatchesAbsent in
  let last := Coder.mkEdit "e.js" "create" (Some "late") Coder.PatchesAbsent in
  exists e d2,
    Coder.writeFiles Sample.join Sample.dirname "/repo" ([first] ++ bad :: [last]) d
    = (Throw e, d2)
    /\ Coder.contents d2
       = Coder.contents
           (snd (Coder.writeFiles Sample.join Sample.dirname "/repo" [first] d)).
Proof.
  intros d first bad last.
  apply (edit_without_content_aborts Sample.join Sample.dirname "/repo"
           [first] bad [last] d ["c.js"]
           (snd (Coder.writeFiles Sample.join Sample.dirname "/repo" [first] d))).
  - vm_compute. reflexivity.
  - right. left. reflexivity.
  - reflexivity.
Defined.

Lemma modify_of_missing_file_witness :
  let d := Sample.one_file "/repo/a.js" "hello" in
  let file := Sample.modify_edit "lib/new.js" [Sample.patch "x" "y"] in
  let rest := [Coder.mkEdit "c.js" "create" (Some "new") Coder.PatchesAbsent] in
  exists d1,
    Coder.contents d1 = Coder.contents d
    /\ Coder.writeFiles Sample.join Sample.dirname "/repo" (file :: rest) d
       = Coder.writeFiles Sample.join Sample.dirname "/repo" rest d1.
Proof.
  intros d file rest.
  apply (modify_of_missing_file_is_skipped Sample.join Sample.dirname "/repo" file
           [Sample.patch "x" "y"] rest d); try reflexivity.
  vm_compute. intros H. discriminate H.
Defined.

Lemma plain_patch_witness :
  exists before after d',
    "a-b-c" = before +:+ "-" +:+ after
    /\ (forall k, (k < String.length before)%nat -> Coder.occurs_at "-" "a-b-c" k = false)
    /\ Coder.apply_patch (Sample.modify_edit "a.js" []) ("a-b-c", 0%Z)
         (Sample.patch "-" "+") (Sample.one_file "/repo/a.js" "a-b-c")
       = (Ret (before +:+ "+" +:+ after, (0 + 1)%Z), d')
    /\ Coder.contents d' = Coder.contents (Sample.one_file "/repo/a.js" "a-b-c").
Proof.
  apply (plain_patch_replaces_first_occurrence (Sample.modify_edit "a.js" [])
           "a-b-c" 0%Z "-" "+" (Sample.one_file "/repo/a.js" "a-b-c"));
    (reflexivity || discriminate).
Defined.

(** * Properties of the context that the coder agent assembles *)

Section ContextMore.
Import Coder Context.
Variable path_join : string -> string -> string.
Variable JSON_parse : string -> Outcome RagLists.
Variable inherited : string -> option string.

Abbreviation fetch := (Coder.fetchExistingFileContent path_join).
Abbreviation fetch_each := (Context.fetch_each path_join).
Abbreviation collect := (Context.collect_existing_files path_join JSON_parse).

(** Fetching reads the checkout and leaves it as it is. *)
Lemma fetch_read_only repoDir p m d o d' :
  fetch repoDir p m d = (o, d') -> d' = d.
Proof.
  unfold Coder.fetchExistingFileContent, bind, existsSync, gets, readFileSync, ret.
  destruct (negb _); [now inversion 1|].
  destruct (contents d !! _); cbv zeta; [destruct (_ <? _)%Z|]; now inversion 1.
Qed.

(** What is fetched depends on the files and directories only. *)
Lemma fetch_same_files repoDir p m d d' :
  same_files d d' -> fst (fetch repoDir p m d') = fst (fetch repoDir p m d).
Proof.
  intros [Hc Hd].
  unfold Coder.fetchExistingFileContent, bind, existsSync, gets, readFileSync, ret.
  cbv beta iota zeta. rewrite Hc, Hd. destruct (negb _); [reflexivity|].
  cbv beta. rewrite Hc.
  destruct (contents d !! _); [destruct (_ <? _)%Z|]; reflexivity.
Qed.

Lemma note_same_files lvl txt fs d : same_files d (note lvl txt fs d).
Proof. split; reflexivity. Qed.

(** A target that is no directory is fetched without an error. *)
Lemma fetch_total repoDir p d :
  (contents d !! path_join repoDir p = None -> path_join repoDir p ∉ dirs d) ->
  exists r, fetch repoDir p None d = (Ret r, d).
Proof.
  intros H. destruct (contents d !! path_join repoDir p) as [c|] eqn:E.
  - eexists. apply (fetch_existing path_join repoDir p None c d E).
  - exists None. unfold Coder.fetchExistingFileContent, bind.
    rewrite existsSync_missing by auto. reflexivity.
Qed.

(** Assignment to a property of [existingFiles]. *)
Lemma set_property_cases o k v p c :
  set_property o k v !! p = Some c -> o !! p = Some c \/ (p = k /\ c = v).
Proof.
  unfold set_property. destruct (String.eqb k "__proto__"); [now left|].
  destruct (decide (p = k)) as [->|Hne].
  - rewrite lookup_insert_eq. intros [= ->]. now right.
  - rewrite lookup_insert_ne by congruence. now left.
Qed.

Lemma set_property_ne o k v p : p <> k -> set_property o k v !! p = o !! p.
Proof.
  intros Hne. unfold set_property. destruct (String.eqb k "__proto__"); [reflexivity|].
  apply lookup_insert_ne. congruence.
Qed.

Lemma set_property_eq o k v : k <> "__proto__" -> set_property o k v !! k = Some v.
Proof.
  intros Hne. unfold set_property.
  destruct (String.eqb_spec k "__proto__") as [->|_]; [contradiction|].
  apply lookup_insert_eq.
Qed.

(** The loop over the modify targets only adds to the log, and what it
    adds to [existingFiles] is the non-empty text fetched for a target. *)
Lemma fetch_each_inv repoDir targets : forall ex d o ex' d',
  fetch_each repoDir targets ex d = (o, ex', d') ->
  same_files d d'
  /\ forall p c, ex' !! p = Some c ->
       ex !! p = Some c
       \/ (p ∈ targets /\ c <> EmptyString
           /\ fst (fetch repoDir p None d) = Ret (Some c)).
Proof.
  induction targets as [|fp rest IH]; intros ex d o ex' d' H; cbn [Context.fetch_each] in H.
  - inversion H; subst. split; [split; reflexivity|]. auto.
  - destruct (fetch repoDir fp None d) as [[fc|e] d1] eqn:F.
    + pose proof (fetch_read_only _ _ _ _ _ _ F) as ->.
      destruct (JS.truthy fc) eqn:T.
      * apply IH in H as [[Hc Hd] Hx]. split; [split; assumption|].
        intros p c Hp. destruct (Hx p c Hp) as [Hi|(Hin & Hne & Hf)].
        -- apply set_property_cases in Hi as [Hi|[-> ->]]; [now left|].
           right. split; [apply list_elem_of_here|].
           destruct fc as [[|a s]|]; try discriminate.
           split; [discriminate|]. now rewrite F.
        -- right. split; [now apply list_elem_of_further|]. split; [assumption|].
           rewrite <- Hf. symmetry. apply fetch_same_files, note_same_files.
      * apply IH in H as [[Hc Hd] Hx]. split; [split; assumption|].
        intros p c Hp. destruct (Hx p c Hp) as [Hi|(Hin & Hne & Hf)]; [now left|].
        right. split; [now apply list_elem_of_further|]. split; [assumption|].
        rewrite <- Hf. symmetry. apply fetch_same_files, note_same_files.
    + inversion H; subst. pose proof (fetch_read_only _ _ _ _ _ _ F) as ->.
      split; [split; reflexivity|]. auto.
Qed.

(** X26.  Collecting the existing files is read-only, and every entry
    of [existingFiles] is a path listed in [files_to_modify] of the
    ticket's [rag_context] together with the non-empty text that
    [fetchExistingFileContent] returns for it in the checkout. *)
Theorem collected_files_are_fetched_targets repoDir rag d existingFiles d' :
  collect repoDir rag d = (existingFiles, d') ->
  same_files d d'
  /\ forall p c, existingFiles !! p = Some c ->
       c <> EmptyString
       /\ fst (fetch repoDir p None d) = Ret (Some c)
       /\ exists ctx targets,
            read_rag JSON_parse rag = Ret ctx
            /\ files_to_modify ctx = Some targets /\ p ∈ targets.
Proof.
  unfold Context.collect_existing_files. intros H.
  destruct (rag_present rag).
  2:{ inversion H; subst. split; [split; reflexivity|].
      intros p c Hp. now rewrite lookup_empty in Hp. }
  destruct (read_rag JSON_parse rag) as [ctx|e] eqn:R.
  2:{ inversion H; subst. split; [apply note_same_files|].
      intros p c Hp. now rewrite lookup_empty in Hp. }
  cbv zeta in H.
  destruct (fetch_each repoDir (default [] (files_to_modify ctx)) ∅ d)
    as [[o ex] d1] eqn:F.
  apply fetch_each_inv in F as [[Hc Hd] Hx].
  assert (Hfiles : same_files d d').
  { destruct o; inversion H; subst; split; assumption. }
  assert (ex = existingFiles) as -> by (destruct o; now inversion H).
  split; [assumption|]. intros p c Hp.
  destruct (Hx p c Hp) as [Hi|(Hin & Hne & Hf)]; [now rewrite lookup_empty in Hi|].
  split; [assumption|]. split; [assumption|].
  exists ctx. destruct (files_to_modify ctx) as [targets|] eqn:Em.
  - exists targets. auto.
  - cbn in Hin. now apply elem_of_nil in Hin.
Qed.

(** The loop over targets that are no directories: it ends without an
    error, keeps the log it found, puts the fetched text of a target
    under its path when that text is not empty, and reports the target
    as missing otherwise. *)
Lemma fetch_each_complete repoDir targets : forall ex d,
  targets_are_files path_join repoDir targets d ->
  exists ex' d',
    fetch_each repoDir targets ex d = (Ret tt, ex', d')
    /\ (forall l, l ∈ logs d -> l ∈ logs d')
    /\ (forall p, p ∉ targets -> ex' !! p = ex !! p)
    /\ (forall p r, p ∈ targets -> fst (fetch repoDir p None d) = Ret r ->
          if JS.truthy r then p <> "__proto__" -> ex' !! p = r
          else ex' !! p = ex !! p /\ not_found_line p ∈ logs d').
Proof.
  induction targets as [|fp rest IH]; intros ex d Hfiles; cbn [Context.fetch_each].
  - exists ex, d. split; [reflexivity|]. split; [auto|]. split; [auto|].
    intros p r Hp. now apply elem_of_nil in Hp.
  - destruct (fetch_total repoDir fp d) as [r0 F].
    { apply Hfiles, list_elem_of_here. }
    rewrite F.
    assert (Hsame : forall lvl txt fs q,
              fst (fetch repoDir q None (note lvl txt fs d)) = fst (fetch repoDir q None d)).
    { intros. apply fetch_same_files, note_same_files. }
    assert (Hrest : forall lvl txt fs,
              targets_are_files path_join repoDir rest (note lvl txt fs d)).
    { intros lvl txt fs q Hq. apply (Hfiles q). now apply list_elem_of_further. }
    destruct (JS.truthy r0) eqn:T.
    + destruct r0 as [[|a s]|]; try discriminate.
      change (default EmptyString (Some (String a s))) with (String a s).
      set (d1 := note _ _ _ d).
      destruct (IH (set_property ex fp (String a s)) d1 (Hrest _ _ _))
        as (ex' & d' & E & Hl & Hout & Hin).
      exists ex', d'. split; [exact E|]. split.
      { intros l Hlg. apply Hl. unfold d1, note, log, modify. cbn.
        apply elem_of_app. now left. }
      split.
      { intros p Hp. apply not_elem_of_cons in Hp as [Hne Hp].
        rewrite (Hout p Hp). now apply set_property_ne. }
      intros p r Hp Hr. destruct (decide (p ∈ rest)) as [Hpr|Hpr].
      * specialize (Hin p r Hpr). unfold d1 in Hin. rewrite Hsame in Hin.
        specialize (Hin Hr). destruct (JS.truthy r) eqn:Tr; [exact Hin|].
        destruct Hin as [Hi Hlog]. split; [|exact Hlog].
        rewrite Hi. apply set_property_ne. intros ->.
        rewrite F in Hr. cbn in Hr. inversion Hr; subst r. discriminate.
      * apply elem_of_cons in Hp as [->|Hp]; [|contradiction].
        rewrite F in Hr. cbn in Hr. inversion Hr; subst r. cbn [JS.truthy].
        intros Hproto. rewrite (Hout fp Hpr). now apply set_property_eq.
    + set (d1 := note _ _ _ d).
      destruct (IH ex d1 (Hrest _ _ _)) as (ex' & d' & E & Hl & Hout & Hin).
      exists ex', d'. split; [exact E|]. split.
      { intros l Hlg. apply Hl. unfold d1, note, log, modify. cbn.
        apply elem_of_app. now left. }
      split.
      { intros p Hp. apply not_elem_of_cons in Hp as [Hne Hp]. exact (Hout p Hp). }
      intros p r Hp Hr. destruct (decide (p ∈ rest)) as [Hpr|Hpr].
      * specialize (Hin p r Hpr). unfold d1 in Hin. rewrite Hsame in Hin.
        exact (Hin Hr).
      * apply elem_of_cons in Hp as [->|Hp]; [|contradiction].
        rewrite F in Hr. cbn in Hr. inversion Hr; subst r. rewrite T.
        split; [exact (Hout fp Hpr)|].
        apply Hl. unfold d1, note, log, modify. cbn.
        apply elem_of_app. right. apply list_elem_of_here.
Qed.

(** What the collection does for a [rag_context] that can be read and
    whose modify targets are no directories. *)
Lemma collect_complete repoDir rag ctx targets d :
  rag_present rag = true ->
  read_rag JSON_parse rag = Ret ctx ->
  files_to_modify ctx = Some targets ->
  targets_are_files path_join repoDir targets d ->
  exists ex' d',
    collect repoDir rag d = (ex', d')
    /\ (forall p r, p ∈ targets -> fst (fetch repoDir p None d) = Ret r ->
          if JS.truthy r then p <> "__proto__" -> ex' !! p = r
          else ex' !! p = None /\ not_found_line p ∈ logs d').
Proof.
  intros Hp Hr Hm Hfiles. unfold Context.collect_existing_files.
  rewrite Hp, Hr, Hm. cbv zeta. change (default [] (Some targets)) with targets.
  destruct (fetch_each_complete repoDir targets ∅ d Hfiles) as (ex' & d' & E & _ & _ & Hin).
  rewrite E. exists ex', d'. split; [reflexivity|].
  intros p r Hpin Hf. specialize (Hin p r Hpin Hf).
  destruct (JS.truthy r); [exact Hin|]. now rewrite lookup_empty in Hin.
Qed.

(** The text fetched for a file of at most 300 lines is the file. *)
Lemma fetch_small repoDir p c d :
  contents d !! path_join repoDir p = Some c ->
  (Z.of_nat (length (JS.split c nl)) <= 300)%Z ->
  fetch repoDir p None d = (Ret (Some c), d).
Proof.
  intros Hc Hn. rewrite (fetch_existing path_join repoDir p None c d Hc).
  cbv zeta. change (default 300%Z None) with 300%Z.
  destruct (Z.ltb_spec 300 (Z.of_nat (length (JS.split c nl)))) as [Hlt|_];
    [lia|reflexivity].
Qed.

(** X27.  A modify target that is an empty file in the checkout is
    treated as missing: it gets no entry in [existingFiles], and the
    log reports "File to modify not found" for it. *)
Theorem empty_file_is_reported_missing repoDir rag ctx targets p d :
  rag_present rag = true ->
  read_rag JSON_parse rag = Ret ctx ->
  files_to_modify ctx = Some targets ->
  targets_are_files path_join repoDir targets d ->
  p ∈ targets ->
  contents d !! path_join repoDir p = Some EmptyString ->
  exists existingFiles d',
    collect repoDir rag d = (existingFiles, d')
    /\ existingFiles !! p = None
    /\ not_found_line p ∈ logs d'.
Proof.
  intros Hp Hr Hm Hfiles Hin He.
  destruct (collect_complete repoDir rag ctx targets d Hp Hr Hm Hfiles)
    as (ex' & d' & E & Hx).
  exists ex', d'. split; [exact E|].
  apply (Hx p (Some EmptyString) Hin).
  rewrite (fetch_small repoDir p EmptyString d He); [reflexivity|].
  vm_compute. discriminate.
Qed.

Lemma find_first_unfold sub s :
  JS.find_first sub s =
    match JS.strip_prefix sub s with
    | Some rest => Some (EmptyString, rest)
    | None =>
        match s with
        | EmptyString => None
        | String c s' =>
            match JS.find_first sub s' with
            | Some (before, after) => Some (String c before, after)
            | None => None
            end
        end
    end.
Proof. destruct s; reflexivity. Qed.

(** A text includes what stands in its middle. *)
Lemma includes_middle a sub b : JS.includes (a +:+ sub +:+ b) sub = true.
Proof.
  unfold JS.includes. induction a as [|x a IH].
  - rewrite string_nil_app, find_first_unfold, strip_prefix_app. reflexivity.
  - rewrite string_cons_app, find_first_unfold.
    destruct (JS.strip_prefix sub _); [reflexivity|].
    destruct (JS.find_first sub (a +:+ sub +:+ b)) as [[u v]|]; [reflexivity|discriminate].
Qed.

(** The loop over the modify targets in [buildPrompt] only appends. *)
Lemma content_blocks_append ex l : forall s,
  exists t, fold_left (content_block inherited ex) l s = s +:+ t.
Proof.
  induction l as [|fp l IH]; intros s; cbn [fold_left].
  - exists EmptyString. now rewrite string_app_nil_r.
  - destruct (IH (content_block inherited ex s fp)) as [t ->]. unfold content_block.
    destruct (has_property inherited ex fp).
    + eexists. rewrite string_app_assoc. reflexivity.
    + now exists t.
Qed.

(** It appends the block of every target that has an entry. *)
Lemma content_blocks_show ex l p c : forall s,
  p ∈ l -> ex !! p = Some c -> c <> EmptyString ->
  exists a b, fold_left (content_block inherited ex) l s = a +:+ file_block p c +:+ b.
Proof.
  induction l as [|fp l IH]; intros s Hin Hp Hc; [now apply elem_of_nil in Hin|].
  cbn [fold_left]. destruct (decide (p = fp)) as [<-|Hne].
  - destruct (content_blocks_append ex l (content_block inherited ex s p)) as [t ->].
    unfold content_block, has_property, get_property. rewrite Hp.
    destruct c as [|x c]; [contradiction|]. cbn [JS.truthy JS.interpolate].
    exists s, t. rewrite string_app_assoc. reflexivity.
  - apply elem_of_cons in Hin as [->|Hin]; [contradiction|]. now apply IH.
Qed.

Lemma truthy_after a x r : JS.truthy (Some (a +:+ String x r)) = true.
Proof. destruct a; reflexivity. Qed.

Lemma truthy_block a p c b : JS.truthy (Some (a +:+ file_block p c +:+ b)) = true.
Proof. apply truthy_after. Qed.

(** X28.  The files section of the prompt is the fixed sentence
    "Determine appropriate file structure", and then there are no file
    hints, or it starts with one of the two headers: the bare list of
    hints joined by line feeds is never produced. *)
Theorem files_section_never_bare_hints rag fileHints existingFiles d :
  let filesSection := fst (fst (files_section JSON_parse inherited rag fileHints existingFiles d)) in
  (filesSection = "Determine appropriate file structure" /\ fileHints = [])
  \/ (exists rest, filesSection = "**Files to " +:+ rest).
Proof.
  unfold files_section.
  destruct (if rag_present rag then _ else _) as [[fc fm] d1].
  destruct fm as [|m fm].
  - destruct fc as [|c fc]; cbn [length Nat.eqb Nat.ltb Nat.leb andb].
    + destruct fileHints as [|h hs]; cbn [length Nat.ltb Nat.leb].
      * left. split; reflexivity.
      * right. cbv zeta. cbn [fst]. eexists. reflexivity.
    + right. cbv zeta. cbn [fst]. eexists. reflexivity.
  - cbn [length Nat.eqb Nat.ltb Nat.leb andb]. rewrite andb_false_r. cbv zeta.
    right. destruct fc as [|c fc]; cbn [length Nat.ltb Nat.leb].
    + destruct (content_blocks_append existingFiles (m :: fm)
                  (EmptyString
                   +:+ ("**Files to MODIFY (existing files - use surgical patches):**" +:+ nl)
                   +:+ bullet_list (m :: fm) +:+ (nl +:+ nl)
                   +:+ ("**Current content of files to modify:**" +:+ nl +:+ nl)))
        as [t ->].
      cbn [fst]. eexists. reflexivity.
    + destruct (content_blocks_append existingFiles (m :: fm)
                  ((EmptyString +:+ ("**Files to CREATE (new files):**" +:+ nl)
                    +:+ bullet_list (c :: fc) +:+ (nl +:+ nl))
                   +:+ ("**Files to MODIFY (existing files - use surgical patches):**" +:+ nl)
                   +:+ bullet_list (m :: fm) +:+ (nl +:+ nl)
                   +:+ ("**Current content of files to modify:**" +:+ nl +:+ nl)))
        as [t ->].
      cbn [fst]. eexists. reflexivity.
Qed.

(** X29.  From the checkout to the prompt: a modify target that is a
    non-empty file of at most 300 lines is collected by [processTicket]
    and, when what was collected is passed to [buildPrompt], shown in
    the files section in full between its [<file path=...>] tags. *)
Theorem fetched_content_reaches_prompt repoDir rag ctx targets p c fileHints d :
  rag_present rag = true ->
  read_rag JSON_parse rag = Ret ctx ->
  files_to_modify ctx = Some targets ->
  targets_are_files path_join repoDir targets d ->
  p ∈ targets ->
  p <> "__proto__" ->
  contents d !! path_join repoDir p = Some c ->
  c <> EmptyString ->
  (Z.of_nat (length (JS.split c nl)) <= 300)%Z ->
  exists existingFiles d1 filesSection d2,
    collect repoDir rag d = (existingFiles, d1)
    /\ files_section JSON_parse inherited rag fileHints existingFiles d1
       = (filesSection, true, d2)
    /\ JS.includes filesSection (file_block p c) = true.
Proof.
  intros Hp Hr Hm Hfiles Hin Hproto Hc Hne Hn.
  destruct (collect_complete repoDir rag ctx targets d Hp Hr Hm Hfiles)
    as (ex' & d' & E & Hx).
  specialize (Hx p (Some c) Hin).
  rewrite (fetch_small repoDir p c d Hc Hn) in Hx. specialize (Hx eq_refl).
  destruct c as [|x c]; [contradiction|]. cbn [JS.truthy] in Hx.
  specialize (Hx Hproto).
  exists ex', d'. unfold files_section. rewrite Hp, Hr, Hm.
  change (default [] (Some targets)) with targets.
  destruct targets as [|m fm]; [now apply elem_of_nil in Hin|].
  cbn [length Nat.eqb Nat.ltb Nat.leb]. rewrite andb_false_r. cbv zeta.
  match goal with
  | |- context [fold_left (content_block inherited ex') (m :: fm) ?s] =>
      destruct (content_blocks_show ex' (m :: fm) p (String x c) s Hin Hx Hne)
        as (a & b & ->)
  end.
  rewrite truthy_block. cbn [negb].
  eexists _, _. split; [exact E|]. split; [reflexivity|]. apply includes_middle.
Qed.

(** A target without a file is fetched as [null]. *)
Lemma fetch_missing repoDir p d :
  contents d !! path_join repoDir p = None ->
  path_join repoDir p ∉ dirs d ->
  fetch repoDir p None d = (Ret None, d).
Proof.
  intros Hc Hd. unfold Coder.fetchExistingFileContent, bind.
  rewrite existsSync_missing by assumption. reflexivity.
Qed.

(** The loop of [buildPrompt] appends a block for a target that has no
    entry but the name of an inherited member. *)
Lemma content_blocks_show_inherited ex l p txt : forall s,
  p ∈ l -> ex !! p = None -> inherited p = Some txt ->
  exists a b, fold_left (content_block inherited ex) l s = a +:+ file_block p txt +:+ b.
Proof.
  induction l as [|fp l IH]; intros s Hin Hp Hi; [now apply elem_of_nil in Hin|].
  cbn [fold_left]. destruct (decide (p = fp)) as [<-|Hne].
  - destruct (content_blocks_append ex l (content_block inherited ex s p)) as [t ->].
    unfold content_block, has_property, get_property. rewrite Hp, Hi.
    cbn [JS.interpolate].
    exists s, t. rewrite string_app_assoc. reflexivity.
  - apply elem_of_cons in Hin as [->|Hin]; [contradiction|]. now apply IH.
Qed.

(** X30.  A modify target that has no file in the checkout but whose
    path is the name of a member that every object inherits (such as
    [constructor] or [toString]) is reported as not found and gets no
    entry in [existingFiles], and still the files section of the prompt
    shows a [<file path=...>] block for it, holding the text of the
    inherited member. *)
Theorem inherited_name_is_shown_without_file repoDir rag ctx targets p txt fileHints d :
  rag_present rag = true ->
  read_rag JSON_parse rag = Ret ctx ->
  files_to_modify ctx = Some targets ->
  targets_are_files path_join repoDir targets d ->
  p ∈ targets ->
  contents d !! path_join repoDir p = None ->
  inherited p = Some txt ->
  exists existingFiles d1 filesSection d2,
    collect repoDir rag d = (existingFiles, d1)
    /\ existingFiles !! p = None
    /\ not_found_line p ∈ logs d1
    /\ files_section JSON_parse inherited rag fileHints existingFiles d1
       = (filesSection, true, d2)
    /\ JS.includes filesSection (file_block p txt) = true.
Proof.
  intros Hp Hr Hm Hfiles Hin Hc Hi.
  destruct (collect_complete repoDir rag ctx targets d Hp Hr Hm Hfiles)
    as (ex' & d' & E & Hx).
  specialize (Hx p None Hin).
  rewrite (fetch_missing repoDir p d Hc (Hfiles p Hin Hc)) in Hx.
  destruct (Hx eq_refl) as [Hnone Hlog].
  exists ex', d'. unfold files_section. rewrite Hp, Hr, Hm.
  change (default [] (Some targets)) with targets.
  destruct targets as [|m fm]; [now apply elem_of_nil in Hin|].
  cbn [length Nat.eqb Nat.ltb Nat.leb]. rewrite andb_false_r. cbv zeta.
  match goal with
  | |- context [fold_left (content_block inherited ex') (m :: fm) ?s] =>
      destruct (content_blocks_show_inherited ex' (m :: fm) p txt s Hin Hnone Hi)
        as (a & b & ->)
  end.
  rewrite truthy_block. cbn [negb].
  eexists _, _. split; [exact E|]. split; [exact Hnone|]. split; [exact Hlog|].
  split; [reflexivity|]. apply includes_middle.
Qed.

End ContextMore.

Lemma collected_files_witness :
  let d := Sample.one_file "/repo/a.js" "hello" in
  let rag := Context.RagObject (Context.mkRag None (Some ["a.js"; "b.js"])) in
  let parse := fun _ : string => Throw (Error "Unexpected token") in
  same_files d (snd (Context.collect_existing_files Sample.join parse "/repo" rag d))
  /\ forall p c,
       fst (Context.collect_existing_files Sample.join parse "/repo" rag d) !! p = Some c ->
       c <> EmptyString
       /\ fst (Coder.fetchExistingFileContent Sample.join "/repo" p None d) = Ret (Some c)
       /\ exists ctx targets,
            Context.read_rag parse rag = Ret ctx
            /\ Context.files_to_modify ctx = Some targets /\ p ∈ targets.
Proof.
  intros d rag parse.
  apply (collected_files_are_fetched_targets Sample.join parse "/repo" rag d).
  vm_compute. reflexivity.
Defined.

Lemma empty_file_witness :
  let d := Sample.one_file "/repo/a.js" EmptyString in
  let ctx := Context.mkRag None (Some ["a.js"]) in
  let parse := fun _ : string => Ret ctx in
  exists existingFiles d',
    Context.collect_existing_files Sample.join parse "/repo" (Context.RagText "{}") d
      = (existingFiles, d')
    /\ existingFiles !! "a.js" = None
    /\ not_found_line "a.js" ∈ Coder.logs d'.
Proof.
  intros d ctx parse.
  apply (empty_file_is_reported_missing Sample.join parse "/repo"
           (Context.RagText "{}") ctx ["a.js"] "a.js" d); try reflexivity.
  - intros q Hq. apply list_elem_of_singleton in Hq as ->. vm_compute. discriminate.
  - apply list_elem_of_here.
Defined.

Lemma fetched_content_witness :
  let d := Sample.one_file "/repo/a.js" "hello" in
  let ctx := Context.mkRag (Some ["new.js"]) (Some ["a.js"]) in
  let parse := fun _ : string => Throw (Error "Unexpected token") in
  exists existingFiles d1 filesSection d2,
    Context.collect_existing_files Sample.join parse "/repo" (Context.RagObject ctx) d
      = (existingFiles, d1)
    /\ Context.files_section parse object_prototype (Context.RagObject ctx) []
         existingFiles d1
       = (filesSection, true, d2)
    /\ JS.includes filesSection (file_block "a.js" "hello") = true.
Proof.
  intros d ctx parse.
  apply (fetched_content_reaches_prompt Sample.join parse object_prototype "/repo"
           (Context.RagObject ctx) ctx ["a.js"] "a.js" "hello" [] d); try reflexivity.
  - intros q Hq. apply list_elem_of_singleton in Hq as ->. vm_compute. discriminate.
  - apply list_elem_of_here.
  - discriminate.
  - discriminate.
  - vm_compute. discriminate.
Defined.

Lemma inherited_name_witness :
  let d := Sample.one_file "/repo/a.js" "hello" in
  let ctx := Context.mkRag None (Some ["a.js"; "constructor"]) in
  let parse := fun _ : string => Throw (Error "Unexpected token") in
  exists existingFiles d1 filesSection d2,
    Context.collect_existing_files Sample.join parse "/repo" (Context.RagObject ctx) d
      = (existingFiles, d1)
    /\ existingFiles !! "constructor" = None
    /\ not_found_line "constructor" ∈ Coder.logs d1
    /\ Context.files_section parse object_prototype (Context.RagObject ctx) []
         existingFiles d1
       = (filesSection, true, d2)
    /\ JS.includes filesSection (file_block "constructor" (native "Object")) = true.
Proof.
  intros d ctx parse.
  apply (inherited_name_is_shown_without_file Sample.join parse object_prototype "/repo"
           (Context.RagObject ctx) ctx ["a.js"; "constructor"] "constructor"
           (native "Object") [] d); try reflexivity.
  - intros q Hq Hnone. vm_compute.
    apply elem_of_cons in Hq as [->|Hq]; [vm_compute in Hnone; discriminate Hnone|].
    apply list_elem_of_singleton in Hq as ->. intros H. discriminate H.
  - apply list_elem_of_further, list_elem_of_here.
Defined.
